(** * needle (dlsys hw1): operators of [python/needle/ops.py]

    A shallow embedding of the operator library of the needle autograd
    engine.  Every operator class of [ops.py] is embedded as a pair of
    functions, [compute] (the forward pass on arrays) and [gradient] (the
    backward rule), over a model of the dense array backend that the
    source imports as [array_api] (numpy).

    Conventions.
    - Array elements range over a type [R] with the scalar operations the
      backend uses (class [Scalar]).  No algebraic law is built in: a
      theorem that needs one (say [x * 1 = x]) takes it as a hypothesis of
      its section, so that it is visible which laws a claim rests on.
    - An n-dimensional array is its shape and its elements in row-major
      (C) order, which is how numpy lays out the arrays that the source
      creates.
    - Python exceptions are values of [error]; fallible code is written in
      the [result] monad.
    - A [Tensor] whose value has been realized is represented by that
      value: the eager mode of the engine computes [cached_data] when a
      node is made, and the gradient rules of [ops.py] read nothing else
      from their arguments than shapes and realized values. *)

From Stdlib Require Import QArith Qcanon.
From Stdlib.Strings Require Byte.
From stdpp Require Import numbers list gmap.

Set Default Proof Using "Type".

(** ** Exceptions and the error monad *)

Inductive error : Type :=
  | ValueError            (* numpy: shapes do not fit; Python: bad unpacking *)
  | IndexError            (* Python list or tuple index out of range *)
  | AxisError             (* numpy: axis out of bounds *)
  | TypeError             (* wrong number of arguments to [compute] *)
  | KeyError              (* missing dictionary entry *)
  | RecursionError        (* recursion deeper than the interpreter allows *)
  | NotImplementedError.  (* [raise NotImplementedError()] *)

Inductive result (A : Type) : Type :=
  | Ok (a : A)
  | Err (e : error).
Arguments Ok {A} a.
Arguments Err {A} e.

Global Instance result_ret : MRet result := λ A a, Ok a.
Global Instance result_bind : MBind result := λ A B f m,
  match m with
  | Ok a => f a
  | Err e => Err e
  end.
Global Instance result_fmap : FMap result := λ A B f m,
  match m with
  | Ok a => Ok (f a)
  | Err e => Err e
  end.

Definition is_Ok {A} (m : result A) : Prop := ∃ a, m = Ok a.

(** ** Scalars *)

(** The element type of arrays and the scalar operations of the backend
    that [ops.py] reaches: [+], [*], [/], unary [-], [power] with a Python
    [int] exponent, [exp], [log], [maximum] and the comparison [>].  The
    power is the only one of them that can raise: the loop of an integer
    dtype refuses a negative exponent ([ValueError]: "Integers to negative
    integer powers are not allowed"), that of a floating dtype accepts
    every exponent. *)
Class Scalar (R : Type) : Type := {
  s_zero : R;
  s_one : R;
  s_add : R → R → R;
  s_mul : R → R → R;
  s_div : R → R → R;
  s_neg : R → R;
  s_pow : R → Z → result R;
  s_exp : R → R;
  s_log : R → R;
  s_max : R → R → R;
  s_gtb : R → R → bool;
}.

(** ** Python lists indexed by possibly negative integers *)

(** [l[i]] for a list of length [n]: indices [-n .. n-1] are valid. *)
Definition norm_index (n : nat) (i : Z) : result nat :=
  if bool_decide (0 ≤ i < Z.of_nat n)%Z then Ok (Z.to_nat i)
  else if bool_decide (- Z.of_nat n ≤ i < 0)%Z
       then Ok (Z.to_nat (i + Z.of_nat n))
  else Err IndexError.

Definition py_getitem {A} (l : list A) (i : Z) : result A :=
  k ← norm_index (length l) i;
  match l !! k with
  | Some x => Ok x
  | None => Err IndexError
  end.

Definition py_setitem {A} (l : list A) (i : Z) (x : A) : result (list A) :=
  k ← norm_index (length l) i;
  Ok (<[k := x]> l).

(** [l[i], l[j] = l[j], l[i]]: the right-hand side is evaluated first
    (left to right), then the two targets are assigned left to right. *)
Definition py_swap {A} (l : list A) (i j : Z) : result (list A) :=
  vj ← py_getitem l j;
  vi ← py_getitem l i;
  l1 ← py_setitem l i vj;
  py_setitem l1 j vi.

(** ** Shapes and row-major indexing *)

Definition numel (s : list nat) : nat := foldr Nat.mul 1 s.

(** Flat offset of a multi-index, and the multi-index of a flat offset. *)
Fixpoint ravel (s idx : list nat) : nat :=
  match s, idx with
  | _ :: s', i :: idx' => i * numel s' + ravel s' idx'
  | _, _ => 0
  end.

Fixpoint unravel (s : list nat) (k : nat) : list nat :=
  match s with
  | [] => []
  | _ :: s' => k / numel s' :: unravel s' (k mod numel s')
  end.

(** [gather l axes] is [[l[ax] for ax in axes]]. *)
Definition gather (l : list nat) (axes : list nat) : list nat :=
  map (λ ax, nth ax l 0) axes.

Fixpoint index_of (p : nat) (l : list nat) : nat :=
  match l with
  | [] => 0
  | x :: l' => if x =? p then 0 else S (index_of p l')
  end.

(** Inverse of a permutation of [0 .. n-1] given as a list. *)
Definition inv_perm (axes : list nat) : list nat :=
  map (λ p, index_of p axes) (seq 0 (length axes)).

Definition is_perm (axes : list nat) (n : nat) : bool :=
  bool_decide (length axes = n) &&
  forallb (λ p, bool_decide (p ∈ axes)) (seq 0 n).

(** numpy broadcasting of two shapes, aligned at the trailing axes.  The
    helper works on reversed shapes. *)
Definition broadcast_dim (d1 d2 : nat) : result nat :=
  if d1 =? d2 then Ok d1
  else if d1 =? 1 then Ok d2
  else if d2 =? 1 then Ok d1
  else Err ValueError.

Fixpoint broadcast_rev (r1 r2 : list nat) : result (list nat) :=
  match r1, r2 with
  | [], r => Ok r
  | r, [] => Ok r
  | d1 :: r1', d2 :: r2' =>
      d ← broadcast_dim d1 d2;
      r ← broadcast_rev r1' r2';
      Ok (d :: r)
  end.

Definition broadcast_shapes (s1 s2 : list nat) : result (list nat) :=
  r ← broadcast_rev (reverse s1) (reverse s2);
  Ok (reverse r).

(** Can an array of shape [s] be broadcast to exactly the shape [t]? *)
Definition broadcastable_to (s t : list nat) : bool :=
  bool_decide (length s ≤ length t) &&
  forallb (λ '(d, e), (d =? e) || (d =? 1))
          (zip s (drop (length t - length s) t)).

(** The index into an array of shape [s] that a broadcast result reads at
    the index [idx] (which may have extra leading axes). *)
Definition bcast_index (s idx : list nat) : list nat :=
  zip_with (λ d i, if d =? 1 then 0 else i) s
           (drop (length idx - length s) idx).

(** Axis arguments of reductions: [None] is Python's [None] (all axes). *)
Definition norm_axis (n : nat) (ax : Z) : result nat :=
  if bool_decide (0 ≤ ax < Z.of_nat n)%Z then Ok (Z.to_nat ax)
  else if bool_decide (- Z.of_nat n ≤ ax < 0)%Z
       then Ok (Z.to_nat (ax + Z.of_nat n))
  else Err AxisError.

Definition normalize_axes (n : nat) (axes : option (list Z))
  : result (list nat) :=
  match axes with
  | None => Ok (seq 0 n)
  | Some l =>
      l' ← mapM (norm_axis n) l;
      if bool_decide (NoDup l') then Ok l' else Err ValueError
  end.

(** Remove the entries of [l] at the positions listed in [axes]; [m] is the
    position of the head of [l]. *)
Fixpoint drop_axes_from {A} (m : nat) (axes : list nat) (l : list A)
  : list A :=
  match l with
  | [] => []
  | x :: l' =>
      if bool_decide (m ∈ axes) then drop_axes_from (S m) axes l'
      else x :: drop_axes_from (S m) axes l'
  end.

Definition drop_axes {A} (axes : list nat) (l : list A) : list A :=
  drop_axes_from 0 axes l.

(** ** The array backend *)

Section Needle.
Context {R : Type} `{Scalar R}.

Record NDArray : Type := mkArr {
  shape : list nat;
  data : list R;
}.

Definition wf (a : NDArray) : Prop := length (data a) = numel (shape a).

Definition rank (a : NDArray) : nat := length (shape a).

Definition elem (a : NDArray) (idx : list nat) : R :=
  nth (ravel (shape a) idx) (data a) s_zero.

(** Build an array of shape [s] from a function of the multi-index. *)
Definition tabulate (s : list nat) (f : list nat → R) : NDArray :=
  {| shape := s;
     data := map (λ k, f (unravel s k)) (seq 0 (numel s)) |}.

(** [numpy.add.reduce] of a sequence: the identity for the empty
    sequence, otherwise a fold that starts from the first element.  The
    order in which numpy adds is not part of its contract; the model
    adds left to right. *)
Definition add_reduce (xs : list R) : R :=
  match xs with
  | [] => s_zero
  | x :: xs' => foldl s_add x xs'
  end.

Definition np_ones (s : list nat) : NDArray :=
  {| shape := s; data := replicate (numel s) s_one |}.

Definition np_map (f : R → R) (a : NDArray) : NDArray :=
  {| shape := shape a; data := map f (data a) |}.

(** [numpy.power(a, n)] for a Python [int] [n]: the loop raises the
    elements to the power one after the other, and an element that it
    refuses raises the exception (an array without elements raises
    nothing). *)
Definition np_power (a : NDArray) (n : Z) : result NDArray :=
  d ← mapM (λ x, s_pow x n) (data a);
  Ok {| shape := shape a; data := d |}.
Definition np_negative : NDArray → NDArray := np_map s_neg.
Definition np_log : NDArray → NDArray := np_map s_log.
Definition np_exp : NDArray → NDArray := np_map s_exp.
(** [numpy.maximum(a, 0)]. *)
Definition np_maximum0 : NDArray → NDArray :=
  np_map (λ x, s_max x s_zero).
(** [(a > 0).astype(float32)]. *)
Definition np_gt0_mask : NDArray → NDArray :=
  np_map (λ x, if s_gtb x s_zero then s_one else s_zero).

(** [numpy.reshape(a, s)] for a tuple [s] of non-negative integers. *)
Definition np_reshape (a : NDArray) (s : list nat) : result NDArray :=
  if bool_decide (numel s = numel (shape a))
  then Ok {| shape := s; data := data a |}
  else Err ValueError.

(** [numpy.transpose(a, axes)]: axis [i] of the result is axis
    [axes[i]] of [a]. *)
Definition np_transpose (a : NDArray) (axes : list nat) : result NDArray :=
  if is_perm axes (rank a)
  then Ok (tabulate (gather (shape a) axes)
             (λ idx, elem a (gather idx (inv_perm axes))))
  else Err ValueError.

(** [numpy.broadcast_to(a, t)]. *)
Definition np_broadcast_to (a : NDArray) (t : list nat) : result NDArray :=
  if broadcastable_to (shape a) t
  then Ok (tabulate t (λ idx, elem a (bcast_index (shape a) idx)))
  else Err ValueError.

(** An elementwise binary operation with broadcasting ([a + b], [a * b],
    [a / b] on arrays). *)
Definition np_binop (f : R → R → R) (a b : NDArray) : result NDArray :=
  s ← broadcast_shapes (shape a) (shape b);
  a' ← np_broadcast_to a s;
  b' ← np_broadcast_to b s;
  Ok {| shape := s; data := zip_with f (data a') (data b') |}.

Definition np_add : NDArray → NDArray → result NDArray := np_binop s_add.
Definition np_mul : NDArray → NDArray → result NDArray := np_binop s_mul.
Definition np_div : NDArray → NDArray → result NDArray := np_binop s_div.

(** [numpy.sum(a, axes)]: [None] sums over all axes, a tuple over the
    axes it lists (negative axes count from the end; a repeated axis is
    an error; the empty tuple reduces nothing). *)
Definition np_sum (a : NDArray) (axes : option (list Z)) : result NDArray :=
  ax ← normalize_axes (rank a) axes;
  let s := shape a in
  let s' := drop_axes ax s in
  Ok {| shape := s';
        data := map (λ k,
                  add_reduce (map (λ p, nth p (data a) s_zero)
                    (filter (λ p, ravel s' (drop_axes ax (unravel s p)) = k)
                            (seq 0 (numel s)))))
                  (seq 0 (numel s')) |}.

(** [numpy.matmul(a, b)]: a one-dimensional operand is promoted to a
    matrix (a row for [a], a column for [b]) and the added axis is
    removed from the result; the axes before the last two are batch
    axes and broadcast against each other. *)
Definition np_matmul (a b : NDArray) : result NDArray :=
  match shape a, shape b with
  | [], _ | _, [] => Err ValueError
  | _, _ =>
      let sa := if rank a =? 1 then 1 :: shape a else shape a in
      let sb := if rank b =? 1 then shape b ++ [1] else shape b in
      let ba := take (length sa - 2) sa in
      let bb := take (length sb - 2) sb in
      match drop (length sa - 2) sa, drop (length sb - 2) sb with
      | [n; m], [m'; p] =>
          if m =? m' then
            bc ← broadcast_shapes ba bb;
            let full := bc ++ [n; p] in
            let cell (idx : list nat) : R :=
              let bi := take (length bc) idx in
              let i := nth (length bc) idx 0 in
              let j := nth (S (length bc)) idx 0 in
              add_reduce (map (λ t,
                s_mul (nth (ravel sa (bcast_index ba bi ++ [i; t]))
                           (data a) s_zero)
                      (nth (ravel sb (bcast_index bb bi ++ [t; j]))
                           (data b) s_zero))
                (seq 0 m)) in
            Ok {| shape := bc ++ (if rank a =? 1 then [] else [n])
                              ++ (if rank b =? 1 then [] else [p]);
                  data := data (tabulate full cell) |}
          else Err ValueError
      | _, _ => Err ValueError
      end
  end.

(** ** Operators ([ops.py]) *)

(** The operator classes with their constructor arguments, as the
    attributes they hold after [__init__]. *)
Inductive Op : Type :=
  | EWiseAdd
  | AddScalar (scalar : R)
  | EWiseMul
  | MulScalar (scalar : R)
  | PowerScalar (scalar : Z)
  | EWiseDiv
  | DivScalar (scalar : R)
  | Transpose (axes : option (list Z))
  | Reshape (new_shape : list nat)
  | BroadcastTo (new_shape : list nat)
  | Summation (axes : option (list Z))
  | MatMul
  | Negate
  | Log
  | Exp
  | ReLU.

(** What a caller may pass as [axes] to [Summation]: [None], a bare
    integer, or a tuple. *)
Inductive axes_arg : Type :=
  | AxesNone
  | AxesInt (k : Z)
  | AxesTuple (l : list Z).

(** [Summation.__init__]: an [int] is wrapped into a one-element tuple. *)
Definition Summation_init (axes : axes_arg) : Op :=
  match axes with
  | AxesInt k => Summation (Some [k])
  | AxesTuple l => Summation (Some l)
  | AxesNone => Summation None
  end.

(** *** Forward computations *)

Definition EWiseAdd_compute (a b : NDArray) : result NDArray := np_add a b.

Definition AddScalar_compute (scalar : R) (a : NDArray) : result NDArray :=
  Ok (np_map (λ x, s_add x scalar) a).

Definition EWiseMul_compute (a b : NDArray) : result NDArray := np_mul a b.

Definition MulScalar_compute (scalar : R) (a : NDArray) : result NDArray :=
  Ok (np_map (λ x, s_mul x scalar) a).

Definition PowerScalar_compute (scalar : Z) (a : NDArray) : result NDArray :=
  np_power a scalar.

Definition EWiseDiv_compute (a b : NDArray) : result NDArray := np_div a b.

Definition DivScalar_compute (scalar : R) (a : NDArray) : result NDArray :=
  Ok (np_map (λ x, s_div x scalar) a).

(** [Transpose.compute]: start from [list(range(len(a.shape)))] and swap
    two entries, the last two when [self.axes] is [None], else those at
    [self.axes[0]] and [self.axes[1]]. *)
Definition Transpose_axes (axes : option (list Z)) (n : nat)
  : result (list nat) :=
  match axes with
  | None => py_swap (seq 0 n) (-1) (-2)
  | Some l =>
      a1 ← py_getitem l 1;
      a0 ← py_getitem l 0;
      py_swap (seq 0 n) a0 a1
  end.

Definition Transpose_compute (axes : option (list Z)) (a : NDArray)
  : result NDArray :=
  ax ← Transpose_axes axes (rank a);
  np_transpose a ax.

Definition Reshape_compute (new_shape : list nat) (a : NDArray)
  : result NDArray :=
  np_reshape a new_shape.

Definition BroadcastTo_compute (new_shape : list nat) (a : NDArray)
  : result NDArray :=
  np_broadcast_to a new_shape.

Definition Summation_compute (axes : option (list Z)) (a : NDArray)
  : result NDArray :=
  np_sum a axes.

Definition MatMul_compute (a b : NDArray) : result NDArray := np_matmul a b.

Definition Negate_compute (a : NDArray) : result NDArray :=
  Ok (np_negative a).

Definition Log_compute (a : NDArray) : result NDArray := Ok (np_log a).

Definition Exp_compute (a : NDArray) : result NDArray := Ok (np_exp a).

Definition ReLU_compute (a : NDArray) : result NDArray :=
  Ok (np_maximum0 a).

(** Dispatch on the operator; the arguments are the realized inputs.  A
    wrong number of arguments is Python's [TypeError]. *)
Definition compute (op : Op) (args : list NDArray) : result NDArray :=
  match op, args with
  | EWiseAdd, [a; b] => EWiseAdd_compute a b
  | AddScalar c, [a] => AddScalar_compute c a
  | EWiseMul, [a; b] => EWiseMul_compute a b
  | MulScalar c, [a] => MulScalar_compute c a
  | PowerScalar n, [a] => PowerScalar_compute n a
  | EWiseDiv, [a; b] => EWiseDiv_compute a b
  | DivScalar c, [a] => DivScalar_compute c a
  | Transpose axes, [a] => Transpose_compute axes a
  | Reshape s, [a] => Reshape_compute s a
  | BroadcastTo s, [a] => BroadcastTo_compute s a
  | Summation axes, [a] => Summation_compute axes a
  | MatMul, [a; b] => MatMul_compute a b
  | Negate, [a] => Negate_compute a
  | Log, [a] => Log_compute a
  | Exp, [a] => Exp_compute a
  | ReLU, [a] => ReLU_compute a
  | _, _ => Err TypeError
  end.

(** The module-level helpers of [ops.py]: [f(a, ...)] is [F(...)(a)],
    which makes the node and, in eager mode, computes its value. *)
Definition add (a b : NDArray) := compute EWiseAdd [a; b].
Definition add_scalar (a : NDArray) (scalar : R) :=
  compute (AddScalar scalar) [a].
Definition multiply (a b : NDArray) := compute EWiseMul [a; b].
Definition mul_scalar (a : NDArray) (scalar : R) :=
  compute (MulScalar scalar) [a].
Definition power_scalar (a : NDArray) (scalar : Z) :=
  compute (PowerScalar scalar) [a].
Definition divide (a b : NDArray) := compute EWiseDiv [a; b].
Definition divide_scalar (a : NDArray) (scalar : R) :=
  compute (DivScalar scalar) [a].
Definition transpose (a : NDArray) (axes : option (list Z)) :=
  compute (Transpose axes) [a].
Definition reshape (a : NDArray) (new_shape : list nat) :=
  compute (Reshape new_shape) [a].
Definition broadcast_to (a : NDArray) (new_shape : list nat) :=
  compute (BroadcastTo new_shape) [a].
Definition summation (a : NDArray) (axes : axes_arg) :=
  compute (Summation_init axes) [a].
Definition matmul (a b : NDArray) := compute MatMul [a; b].
Definition negate (a : NDArray) := compute Negate [a].
Definition log (a : NDArray) := compute Log [a].
Definition exp (a : NDArray) := compute Exp [a].
Definition relu (a : NDArray) := compute ReLU [a].

(** Modelled from the spec: the operator methods of [Tensor], which live
    in [autograd.py] (not among the sources at hand).  Section 4.1: the
    arithmetic operators "are exposed as methods that construct a new node
    via the matching Operator"; with a tensor on the right that is the
    elementwise operator, with a Python number the scalar one. *)
Definition Tensor_mul (a b : NDArray) := multiply a b.
Definition Tensor_mul_scalar (a : NDArray) (c : R) := mul_scalar a c.
Definition Tensor_truediv (a b : NDArray) := divide a b.
Definition Tensor_truediv_scalar (a : NDArray) (c : R) := divide_scalar a c.
Definition Tensor_neg (a : NDArray) := negate a.
Definition Tensor_pow (a : NDArray) (n : Z) := power_scalar a n.
Definition Tensor_matmul (a b : NDArray) := matmul a b.

(** Modelled from the spec: [tensor * array] for a numpy array on the
    right (as in [Summation.gradient]).  The array is not a [Tensor], so
    the scalar operator is built with the array as its [scalar], and
    [MulScalar.compute] evaluates [a * self.scalar] in the backend, with
    broadcasting. *)
Definition Tensor_mul_array (a arr : NDArray) := np_mul a arr.

(** *** Gradients

    [gradient op out_grad inputs] is [op.gradient(out_grad, node)] for a
    node whose inputs have the realized values [inputs]; the result is the
    tuple of gradients, one per input (a single returned tensor is a tuple
    of length one). *)

Fixpoint foldlM {A B} (f : A → B → result A) (a : A) (l : list B)
  : result A :=
  match l with
  | [] => Ok a
  | x :: l' => a' ← f a x; foldlM f a' l'
  end.

Definition EWiseAdd_gradient (out_grad : NDArray) (inputs : list NDArray)
  : result (list NDArray) :=
  Ok [out_grad; out_grad].

Definition AddScalar_gradient (out_grad : NDArray) (inputs : list NDArray)
  : result (list NDArray) :=
  Ok [out_grad].

Definition EWiseMul_gradient (out_grad : NDArray) (inputs : list NDArray)
  : result (list NDArray) :=
  match inputs with
  | [lhs; rhs] =>
      gl ← Tensor_mul out_grad rhs;
      gr ← Tensor_mul out_grad lhs;
      Ok [gl; gr]
  | _ => Err ValueError
  end.

Definition MulScalar_gradient (scalar : R) (out_grad : NDArray)
    (inputs : list NDArray) : result (list NDArray) :=
  g ← Tensor_mul_scalar out_grad scalar;
  Ok [g].

(** [PowerScalar.gradient] is [raise NotImplementedError()]. *)
Definition PowerScalar_gradient (scalar : Z) (out_grad : NDArray)
    (inputs : list NDArray) : result (list NDArray) :=
  Err NotImplementedError.

(** [out_grad / rhs, -out_grad * lhs * (rhs ** -2)], which Python parses
    as [((-out_grad) * lhs) * (rhs ** (-2))]. *)
Definition EWiseDiv_gradient (out_grad : NDArray) (inputs : list NDArray)
  : result (list NDArray) :=
  match inputs with
  | [lhs; rhs] =>
      gl ← Tensor_truediv out_grad rhs;
      n ← Tensor_neg out_grad;
      nl ← Tensor_mul n lhs;
      p ← Tensor_pow rhs (-2);
      gr ← Tensor_mul nl p;
      Ok [gl; gr]
  | _ => Err ValueError
  end.

Definition DivScalar_gradient (scalar : R) (out_grad : NDArray)
    (inputs : list NDArray) : result (list NDArray) :=
  g ← Tensor_truediv_scalar out_grad scalar;
  Ok [g].

Definition Transpose_gradient (axes : option (list Z)) (out_grad : NDArray)
    (inputs : list NDArray) : result (list NDArray) :=
  g ← transpose out_grad axes;
  Ok [g].

Definition Reshape_gradient (out_grad : NDArray) (inputs : list NDArray)
  : result (list NDArray) :=
  match inputs with
  | [x] =>
      g ← reshape out_grad (shape x);
      Ok [g]
  | _ => Err ValueError
  end.

(** The loop of [BroadcastTo.gradient]: [output_shape_idx] runs over
    [range(len(output_shape) - 1, -1, -1)] while [input_shape_idx] counts
    down from [len(input_shape) - 1]; the state of the loop is
    [(reduce_dim, input_shape_idx)]. *)
Definition BroadcastTo_loop_body (output_shape input_shape : list nat)
    (st : list nat * Z) (output_shape_idx : nat) : list nat * Z :=
  let '(reduce_dim, input_shape_idx) := st in
  ((if bool_decide (input_shape_idx < 0)%Z
    then reduce_dim ++ [output_shape_idx]
    else if bool_decide (nth output_shape_idx output_shape 0
                         ≠ nth (Z.to_nat input_shape_idx) input_shape 0)
    then reduce_dim ++ [output_shape_idx]
    else reduce_dim),
   (input_shape_idx - 1)%Z).

Definition BroadcastTo_reduce_dim (output_shape input_shape : list nat)
  : list nat :=
  fst (foldl (BroadcastTo_loop_body output_shape input_shape)
             ([], (Z.of_nat (length input_shape) - 1)%Z)
             (reverse (seq 0 (length output_shape)))).

Definition BroadcastTo_gradient (out_grad : NDArray) (inputs : list NDArray)
  : result (list NDArray) :=
  match inputs with
  | [x] =>
      let output_shape := shape out_grad in
      let input_shape := shape x in
      let reduce_dim := BroadcastTo_reduce_dim output_shape input_shape in
      s ← summation out_grad (AxesTuple (map Z.of_nat reduce_dim));
      g ← reshape s input_shape;
      Ok [g]
  | _ => Err ValueError
  end.

(** [if self.axes:] is false for [None] and for the empty tuple. *)
Definition Summation_gradient (axes : option (list Z)) (out_grad : NDArray)
    (inputs : list NDArray) : result (list NDArray) :=
  match inputs with
  | [x] =>
      let input_shape := shape x in
      sum_shape ←
        match axes with
        | Some (dim :: dims) =>
            foldlM (λ sum_shape d, py_setitem sum_shape d 1)
                   input_shape (dim :: dims)
        | Some [] | None => Ok (replicate (length input_shape) 1)
        end;
      out_grad' ← reshape out_grad sum_shape;
      g ← Tensor_mul_array out_grad' (np_ones input_shape);
      Ok [g]
  | _ => Err ValueError
  end.

Definition MatMul_gradient (out_grad : NDArray) (inputs : list NDArray)
  : result (list NDArray) :=
  match inputs with
  | [x; y] =>
      ty ← transpose y None;
      dx ← Tensor_matmul out_grad ty;
      tx ← transpose x None;
      dy ← Tensor_matmul tx out_grad;
      dx ← (if bool_decide (shape dx ≠ shape x)
            then summation dx (AxesTuple
                   (map Z.of_nat (seq 0 (rank dx - rank x))))
            else Ok dx);
      dy ← (if bool_decide (shape dy ≠ shape y)
            then summation dy (AxesTuple
                   (map Z.of_nat (seq 0 (rank dy - rank y))))
            else Ok dy);
      Ok [dx; dy]
  | _ => Err ValueError
  end.

Definition Negate_gradient (out_grad : NDArray) (inputs : list NDArray)
  : result (list NDArray) :=
  g ← Tensor_neg out_grad;
  Ok [g].

Definition Log_gradient (out_grad : NDArray) (inputs : list NDArray)
  : result (list NDArray) :=
  match inputs with
  | [x] =>
      g ← Tensor_truediv out_grad x;
      Ok [g]
  | _ => Err ValueError
  end.

Definition Exp_gradient (out_grad : NDArray) (inputs : list NDArray)
  : result (list NDArray) :=
  match inputs with
  | [x] =>
      e ← exp x;
      g ← Tensor_mul out_grad e;
      Ok [g]
  | _ => Err ValueError
  end.

(** [out_grad * Tensor((cached_data > 0).astype(float32))] where
    [cached_data] is the realized value of the input [x]. *)
Definition ReLU_gradient (out_grad : NDArray) (inputs : list NDArray)
  : result (list NDArray) :=
  match inputs with
  | [x] =>
      let cached_data := x in
      g ← Tensor_mul out_grad (np_gt0_mask cached_data);
      Ok [g]
  | _ => Err ValueError
  end.

Definition gradient (op : Op) (out_grad : NDArray) (inputs : list NDArray)
  : result (list NDArray) :=
  match op with
  | EWiseAdd => EWiseAdd_gradient out_grad inputs
  | AddScalar _ => AddScalar_gradient out_grad inputs
  | EWiseMul => EWiseMul_gradient out_grad inputs
  | MulScalar c => MulScalar_gradient c out_grad inputs
  | PowerScalar n => PowerScalar_gradient n out_grad inputs
  | EWiseDiv => EWiseDiv_gradient out_grad inputs
  | DivScalar c => DivScalar_gradient c out_grad inputs
  | Transpose axes => Transpose_gradient axes out_grad inputs
  | Reshape _ => Reshape_gradient out_grad inputs
  | BroadcastTo _ => BroadcastTo_gradient out_grad inputs
  | Summation axes => Summation_gradient axes out_grad inputs
  | MatMul => MatMul_gradient out_grad inputs
  | Negate => Negate_gradient out_grad inputs
  | Log => Log_gradient out_grad inputs
  | Exp => Exp_gradient out_grad inputs
  | ReLU => ReLU_gradient out_grad inputs
  end.

(** ** The computation graph and the backward pass *)

(** Modelled from the spec: the node of section 3 ([Value]/[Tensor] of
    [autograd.py], which is not among the sources at hand).  Nodes live in
    an arena (section 9) and are named by their index in it; [inputs]
    holds the indices of the operand nodes, so that a node used by several
    consumers is shared, not copied.  The engine is eager: every node of
    the arena carries its realized value.  The accumulated gradient
    ([grad]) is kept per node identity in the state of the backward
    pass. *)
Record Tensor : Type := mkTensor {
  operator : option Op;
  inputs : list nat;
  cached_value : NDArray;
  requires_grad : bool;
}.

(** Modelled from the spec: [make_leaf] of section 4.1, a node with no
    provenance.  The new node is appended to the arena; the result is the
    arena and the identity of the node. *)
Definition make_leaf (g : list Tensor) (array : NDArray) (rg : bool)
  : list Tensor * nat :=
  (g ++ [mkTensor None [] array rg], length g).

Definition realized (g : list Tensor) (i : nat) : result NDArray :=
  match g !! i with
  | Some t => Ok (cached_value t)
  | None => Err KeyError
  end.

(** Modelled from the spec: graph construction (section 2): "given an
    operator and input nodes, produces an output node ... eagerly
    evaluated, wired to its inputs". *)
Definition make_from_op (g : list Tensor) (o : Op) (ins : list nat)
  : result (list Tensor * nat) :=
  vals ← mapM (realized g) ins;
  v ← compute o vals;
  Ok (g ++ [mkTensor (Some o) ins v true], length g).

(** Modelled from the spec: step 1 of section 4.3, the post-order of a
    depth-first traversal from the root along [inputs], without
    repetitions; [post] is the order built so far and doubles as the set
    of visited nodes.  [fuel] bounds the depth of the recursion. *)
Fixpoint topo_sort_dfs (fuel : nat) (g : list Tensor) (node : nat)
    (post : list nat) : result (list nat) :=
  match fuel with
  | 0 => Err RecursionError
  | S fuel' =>
      if bool_decide (node ∈ post) then Ok post
      else
        match g !! node with
        | None => Err KeyError
        | Some t =>
            post' ← foldlM (λ acc i, topo_sort_dfs fuel' g i acc)
                           post (inputs t);
            Ok (post' ++ [node])
        end
  end.

(** The reverse post-order: the root first, leaves last.  In an arena
    every path has fewer nodes than the arena. *)
Definition find_topo_sort (g : list Tensor) (root : nat)
  : result (list nat) :=
  post ← topo_sort_dfs (length g) g root [];
  Ok (reverse post).

(** Modelled from the spec: "sum its accumulated contribution list into a
    single gradient tensor" (step 3), with the [add] of [ops.py], left to
    right. *)
Definition sum_node_list (l : list NDArray) : result NDArray :=
  match l with
  | [] => Err TypeError
  | x :: l' => foldlM add x l'
  end.

(** State of the backward pass: the map from node identity to the list
    of gradient contributions (step 2), and the [grad] recorded for the
    nodes processed so far. *)
Record BackwardState : Type := mkState {
  node_to_grads : gmap nat (list NDArray);
  grad : gmap nat NDArray;
}.

Definition append_grad (m : gmap nat (list NDArray)) (i : nat)
    (gi : NDArray) : gmap nat (list NDArray) :=
  <[i := default [] (m !! i) ++ [gi]]> m.

(** Modelled from the spec: step 3 of section 4.3 for one node: sum the
    contributions, record the sum as the node's [grad], and, for a
    non-leaf, call the operator's [gradient] and append each returned
    gradient to the list of the corresponding input. *)
Definition backward_step (g : list Tensor) (st : BackwardState)
    (node : nat) : result BackwardState :=
  match g !! node with
  | None => Err KeyError
  | Some t =>
      summed ← sum_node_list (default [] (node_to_grads st !! node));
      let grad' := <[node := summed]> (grad st) in
      match operator t with
      | None => Ok (mkState (node_to_grads st) grad')
      | Some o =>
          vals ← mapM (realized g) (inputs t);
          gs ← gradient o summed vals;
          Ok (mkState
                (foldl (λ m '(i, gi), append_grad m i gi)
                       (node_to_grads st) (zip (inputs t) gs))
                grad')
      end
  end.

(** Modelled from the spec: the backward engine of section 4.3; the
    root's list is seeded with [out_grad] and the nodes are processed in
    topological order, root first. *)
Definition compute_gradient_of_variables (g : list Tensor) (root : nat)
    (out_grad : NDArray) : result BackwardState :=
  order ← find_topo_sort g root;
  foldlM (backward_step g) (mkState {[ root := [out_grad] ]} ∅) order.

(** Modelled from the spec: [backward()] seeds the root with "a gradient
    of ones matching the root's shape". *)
Definition backward (g : list Tensor) (root : nat) : result BackwardState :=
  v ← realized g root;
  compute_gradient_of_variables g root (np_ones (shape v)).

End Needle.

Arguments NDArray R : clear implicits.
Arguments Op R : clear implicits.
Arguments Tensor R : clear implicits.
Arguments BackwardState R : clear implicits.

(** ** An exact instance of the scalars

    The rationals in canonical form, with exact arithmetic.  [Qc] has no
    exponential and no logarithm: the two fields are filled with their
    first-order expansions at 0 and at 1. *)

Definition Qc_pow (x : Qc) (n : Z) : Qc :=
  match n with
  | Z0 => Q2Qc 1
  | Zpos p => Qcpower x (Pos.to_nat p)
  | Zneg p => Qcinv (Qcpower x (Pos.to_nat p))
  end.

Global Instance Qc_scalar : Scalar Qc := {|
  s_zero := Q2Qc 0;
  s_one := Q2Qc 1;
  s_add := Qcplus;
  s_mul := Qcmult;
  s_div := Qcdiv;
  s_neg := Qcopp;
  s_pow := λ x n, Ok (Qc_pow x n);
  s_exp := λ x, Qcplus (Q2Qc 1) x;
  s_log := λ x, Qcminus x (Q2Qc 1);
  s_max := λ x y, if bool_decide (Qclt x y) then y else x;
  s_gtb := λ x y, bool_decide (Qclt y x);
|}.

(** ** Scalars of two dtypes

    The elements of numpy arrays of dtype [int64] and of a floating
    dtype, with the rationals standing for the floats as in [Qc_scalar].
    An operation on two integers is done in [int64] (with wrap-around),
    one with a float in it in floating point, and the true division
    [/] always gives a float.  The Python literal [0] is an integer,
    which takes the dtype of what it is combined with; [numpy.ones] and
    the mask of [ReLU] are floats.  The power of an integer with a
    negative exponent raises [ValueError]. *)
Inductive np_number : Type :=
  | np_int64 (z : Z)
  | np_float (q : Qc).

Definition wrap_int64 (z : Z) : Z := ((z + 2 ^ 63) `mod` 2 ^ 64 - 2 ^ 63)%Z.

Definition np_to_float (x : np_number) : Qc :=
  match x with
  | np_int64 z => Q2Qc (inject_Z z)
  | np_float q => q
  end.

Definition np_arith (fi : Z → Z → Z) (ff : Qc → Qc → Qc) (x y : np_number)
  : np_number :=
  match x, y with
  | np_int64 a, np_int64 b => np_int64 (wrap_int64 (fi a b))
  | _, _ => np_float (ff (np_to_float x) (np_to_float y))
  end.

Global Instance np_number_scalar : Scalar np_number := {|
  s_zero := np_int64 0;
  s_one := np_float (Q2Qc 1);
  s_add := np_arith Z.add Qcplus;
  s_mul := np_arith Z.mul Qcmult;
  s_div := λ x y, np_float (Qcdiv (np_to_float x) (np_to_float y));
  s_neg := λ x,
    match x with
    | np_int64 a => np_int64 (wrap_int64 (- a))
    | np_float q => np_float (Qcopp q)
    end;
  s_pow := λ x n,
    match x with
    | np_int64 a =>
        if bool_decide (n < 0)%Z then Err ValueError
        else Ok (np_int64 (wrap_int64 (a ^ n)))
    | np_float q => Ok (np_float (Qc_pow q n))
    end;
  s_exp := λ x, np_float (Qcplus (Q2Qc 1) (np_to_float x));
  s_log := λ x, np_float (Qcminus (np_to_float x) (Q2Qc 1));
  s_max := np_arith Z.max
             (λ p q, if bool_decide (Qclt p q) then q else p);
  s_gtb := λ x y, bool_decide (Qclt (np_to_float y) (np_to_float x));
|}.

(** * Properties *)

(** ** The error monad *)

Lemma bind_Ok {A B} (f : A → result B) (a : A) : (Ok a ≫= f) = f a.
Proof. reflexivity. Qed.

Lemma bind_Ok_inv {A B} (f : A → result B) (m : result A) (b : B) :
  (m ≫= f) = Ok b → ∃ a, m = Ok a ∧ f a = Ok b.
Proof. destruct m as [a|e]; [eauto | discriminate]. Qed.

Lemma foldlM_cons {A B} (f : A → B → result A) (a : A) (x : B)
    (l : list B) :
  foldlM f a (x :: l) = (f a x ≫= λ a', foldlM f a' l).
Proof. reflexivity. Qed.

Lemma foldlM_app {A B} (f : A → B → result A) (a : A) (l1 l2 : list B) :
  foldlM f a (l1 ++ l2) = (foldlM f a l1 ≫= λ a', foldlM f a' l2).
Proof.
  revert a. induction l1 as [|x l1 IH]; intros a; simpl; [done|].
  destruct (f a x) as [a'|e]; simpl; [apply IH | done].
Qed.

Lemma mapM_Ok_map {A B} (f : A → result B) (g : A → B) (l : list A) :
  Forall (λ x, f x = Ok (g x)) l → mapM f l = Ok (map g l).
Proof.
  induction 1 as [|x l Hx _ IH]; [done|]. simpl. rewrite Hx. simpl.
  by rewrite IH.
Qed.

Lemma mapM_Err_head {A B} (f : A → result B) (e : error) (x : A)
    (l : list A) :
  f x = Err e → mapM f (x :: l) = Err e.
Proof. intros Hx. simpl. by rewrite Hx. Qed.

(** ** Row-major indexing *)

Lemma length_unravel (s : list nat) (k : nat) :
  length (unravel s k) = length s.
Proof. revert k. induction s as [|d s IH]; intros k; simpl; auto. Qed.

Lemma numel_cons (d : nat) (s : list nat) : numel (d :: s) = d * numel s.
Proof. reflexivity. Qed.

Arguments numel : simpl never.

Lemma numel_app (s1 s2 : list nat) : numel (s1 ++ s2) = numel s1 * numel s2.
Proof.
  induction s1 as [|d s1 IH]; simpl; [unfold numel; simpl; lia|].
  rewrite !numel_cons, IH. lia.
Qed.

Lemma unravel_lt (s : list nat) (k : nat) :
  k < numel s → Forall2 lt (unravel s k) s.
Proof.
  revert k. induction s as [|d s IH]; intros k Hk; simpl; [constructor|].
  rewrite numel_cons in Hk.
  assert (numel s ≠ 0) by (intros E; rewrite E in Hk; lia).
  constructor.
  - apply Nat.Div0.div_lt_upper_bound. lia.
  - apply IH. apply Nat.mod_upper_bound. done.
Qed.

Lemma ravel_unravel (s : list nat) (k : nat) :
  k < numel s → ravel s (unravel s k) = k.
Proof.
  revert k. induction s as [|d s IH]; intros k Hk; simpl in *;
    [unfold numel in Hk; simpl in Hk; lia|].
  rewrite numel_cons in Hk.
  assert (numel s ≠ 0) by (intros E; rewrite E in Hk; lia).
  rewrite IH by (apply Nat.mod_upper_bound; done).
  pose proof (Nat.div_mod_eq k (numel s)). lia.
Qed.

Lemma ravel_lt (s idx : list nat) :
  Forall2 lt idx s → ravel s idx < numel s.
Proof.
  intros Hidx. induction Hidx as [|i d idx s Hi _ IH]; simpl;
    [unfold numel; simpl; lia|].
  rewrite numel_cons. nia.
Qed.

Lemma unravel_ravel (s idx : list nat) :
  Forall2 lt idx s → unravel s (ravel s idx) = idx.
Proof.
  intros Hidx. induction Hidx as [|i d idx s Hi Hrest IH]; simpl; [done|].
  pose proof (ravel_lt _ _ Hrest) as Hlt.
  assert (numel s ≠ 0) by lia.
  f_equal.
  - rewrite Nat.div_add_l by done. rewrite Nat.div_small by done. lia.
  - rewrite Nat.add_comm, Nat.Div0.mod_add, Nat.mod_small by done. done.
Qed.

(** ** Arrays built from an index function *)

Section Tabulate.
Context {R : Type} `{Scalar R}.

Lemma list_tabulate_nth (l : list R) (d : R) :
  map (λ k, nth k l d) (seq 0 (length l)) = l.
Proof.
  apply list_eq. intros i. rewrite list_lookup_fmap.
  destruct (decide (i < length l)) as [Hi|Hi].
  - rewrite lookup_seq_lt by done. simpl.
    destruct (lookup_lt_is_Some_2 l i Hi) as [x Hx].
    by rewrite (nth_lookup_Some _ _ _ _ Hx).
  - rewrite lookup_seq_ge by lia. simpl.
    symmetry. apply lookup_ge_None. lia.
Qed.

Lemma tabulate_wf (s : list nat) (f : list nat → R) : wf (tabulate s f).
Proof. unfold wf, tabulate. simpl. by rewrite length_map, length_seq. Qed.

Lemma tabulate_ext (s : list nat) (f g : list nat → R) :
  (∀ idx, Forall2 lt idx s → f idx = g idx) → tabulate s f = tabulate s g.
Proof.
  intros Hfg. unfold tabulate. f_equal.
  apply map_ext_in. intros k Hk. apply in_seq in Hk.
  apply Hfg, unravel_lt. lia.
Qed.

Lemma tabulate_elem (a : NDArray R) :
  wf a → tabulate (shape a) (elem a) = a.
Proof.
  intros Hwf. destruct a as [s l]. unfold wf, tabulate, elem in *. simpl in *.
  f_equal. rewrite <- Hwf.
  transitivity (map (λ k, nth k l s_zero) (seq 0 (length l)));
    [|apply list_tabulate_nth].
  apply map_ext_in. intros k Hk. apply in_seq in Hk.
  rewrite ravel_unravel by lia. done.
Qed.

Lemma elem_tabulate (s : list nat) (f : list nat → R) (idx : list nat) :
  Forall2 lt idx s → elem (tabulate s f) idx = f idx.
Proof.
  intros Hidx. unfold elem, tabulate. simpl.
  pose proof (ravel_lt _ _ Hidx) as Hlt.
  rewrite nth_lookup, list_lookup_fmap, lookup_seq_lt by done. simpl.
  by rewrite unravel_ravel.
Qed.

End Tabulate.

(** ** Broadcasting an array to its own shape *)

Lemma broadcast_rev_same (r : list nat) : broadcast_rev r r = Ok r.
Proof.
  induction r as [|d r IH]; simpl; [done|].
  unfold broadcast_dim. rewrite Nat.eqb_refl. simpl. by rewrite IH.
Qed.

Lemma broadcast_shapes_same (s : list nat) : broadcast_shapes s s = Ok s.
Proof.
  unfold broadcast_shapes. rewrite broadcast_rev_same. simpl.
  by rewrite reverse_involutive.
Qed.

Lemma broadcastable_to_same (s : list nat) : broadcastable_to s s = true.
Proof.
  unfold broadcastable_to. rewrite bool_decide_true by done.
  rewrite Nat.sub_diag. simpl.
  induction s as [|d s IH]; simpl; [done|].
  by rewrite Nat.eqb_refl.
Qed.

Lemma bcast_index_same (s idx : list nat) :
  Forall2 lt idx s → bcast_index s idx = idx.
Proof.
  intros Hidx. unfold bcast_index.
  rewrite (Forall2_length _ _ _ Hidx), Nat.sub_diag, drop_0.
  induction Hidx as [|i d idx s Hi _ IH]; simpl; [done|].
  rewrite IH. destruct (Nat.eqb_spec d 1); [f_equal; lia | done].
Qed.

Section SameShape.
Context {R : Type} `{Scalar R}.

Lemma np_broadcast_to_same (a : NDArray R) :
  wf a → np_broadcast_to a (shape a) = Ok a.
Proof.
  intros Hwf. unfold np_broadcast_to. rewrite broadcastable_to_same.
  f_equal. etransitivity; [|by apply tabulate_elem].
  apply tabulate_ext. intros idx Hidx. by rewrite bcast_index_same.
Qed.

(** On two arrays of one shape an elementwise operation of the backend
    is the pointwise operation on the elements. *)
Lemma np_binop_same_shape (f : R → R → R) (a b : NDArray R) :
  wf a → wf b → shape b = shape a →
  np_binop f a b = Ok (mkArr (shape a) (zip_with f (data a) (data b))).
Proof.
  intros Ha Hb Hs. unfold np_binop. rewrite Hs, broadcast_shapes_same.
  simpl. rewrite (np_broadcast_to_same a Ha). simpl.
  rewrite <- Hs, (np_broadcast_to_same b Hb). simpl. by rewrite Hs.
Qed.

Lemma np_binop_wf (f : R → R → R) (a b c : NDArray R) :
  np_binop f a b = Ok c → wf c.
Proof.
  unfold np_binop. intros Hc.
  apply bind_Ok_inv in Hc as (s & _ & Hc).
  apply bind_Ok_inv in Hc as (a' & Ha' & Hc).
  apply bind_Ok_inv in Hc as (b' & Hb' & Hc).
  injection Hc as <-. unfold np_broadcast_to in *.
  destruct (broadcastable_to (shape a) s); [|done].
  destruct (broadcastable_to (shape b) s); [|done].
  injection Ha' as <-. injection Hb' as <-.
  unfold wf. simpl. rewrite length_zip_with, !length_map, !length_seq. lia.
Qed.

End SameShape.

(** ** Elementwise operators *)

Section Elementwise.
Context {R : Type} `{Scalar R}.

Lemma wf_np_map (f : R → R) (a : NDArray R) : wf a → wf (np_map f a).
Proof. unfold wf, np_map. simpl. by rewrite length_map. Qed.

(** C1 (the code departs from the claim).  [PowerScalar]'s forward pass
    is the elementwise power [x^n], as claimed: it raises every element
    to the power [n] and fails only where the backend refuses to do so
    for an element.  Its [gradient], however, is a stub: for every
    exponent [n], incoming gradient and input it raises
    [NotImplementedError] instead of returning
    [out_grad * n * x^(n-1)]. *)
Theorem PowerScalar_gradient_raises (n : Z) (out_grad x : NDArray R) :
  power_scalar x n
    = (mapM (λ v, s_pow v n) (data x) ≫= λ d, Ok (mkArr (shape x) d)) ∧
  (∀ pw : R → R, Forall (λ v, s_pow v n = Ok (pw v)) (data x) →
     power_scalar x n = Ok (mkArr (shape x) (map pw (data x)))) ∧
  gradient (PowerScalar n) out_grad [x] = Err NotImplementedError.
Proof.
  split_and!; [reflexivity| |reflexivity].
  intros pw Hpw. unfold power_scalar, compute, PowerScalar_compute, np_power.
  by rewrite (mapM_Ok_map _ pw _ Hpw).
Qed.

(** C9.  Reshaping an array to any shape with the same number of
    elements and back to its own shape gives the array back, and the
    gradient of [Reshape] is [out_grad] reshaped to the shape of the
    input. *)
Theorem Reshape_round_trip (x out_grad : NDArray R) (shapeB : list nat) :
  numel shapeB = numel (shape x) →
  shape out_grad = shapeB →
  (reshape x shapeB ≫= λ y, reshape y (shape x)) = Ok x ∧
  gradient (Reshape shapeB) out_grad [x]
    = (reshape out_grad (shape x) ≫= λ g, Ok [g]) ∧
  gradient (Reshape shapeB) out_grad [x]
    = Ok [mkArr (shape x) (data out_grad)].
Proof.
  intros Hn Hs. destruct x as [s l]. simpl in *.
  unfold reshape, compute, Reshape_compute, np_reshape. simpl.
  rewrite bool_decide_true by done. simpl.
  rewrite bool_decide_true by done.
  split; [done|]. split; [done|].
  unfold Reshape_gradient, reshape, compute, Reshape_compute, np_reshape.
  simpl. rewrite Hs, bool_decide_true by done. done.
Qed.

End Elementwise.

Section ReLU_laws.
Context {R : Type} `{Scalar R}.
Hypothesis mul_one_r : ∀ x : R, s_mul x s_one = x.
Hypothesis mul_zero_r : ∀ x : R, s_mul x s_zero = s_zero.
Hypothesis max_zero_zero : s_max (s_zero : R) s_zero = s_zero.
Hypothesis gtb_zero_zero : s_gtb (s_zero : R) s_zero = false.

(** C3.  [ReLU]'s forward pass is the elementwise [max(x, 0)]; its
    gradient is [out_grad] where the forward input [x] is positive and
    [0] elsewhere; at a position where [x] is exactly [0] the output is
    [0] and so is the gradient.  (Scalars: [g * 1 = g], [g * 0 = 0],
    [max(0, 0) = 0], not [0 > 0].) *)
Theorem ReLU_forward_and_gradient (x out_grad : NDArray R) :
  wf x → wf out_grad → shape out_grad = shape x →
  ∃ y g,
    relu x = Ok y ∧ gradient ReLU out_grad [x] = Ok [g] ∧
    shape y = shape x ∧ data y = map (λ v, s_max v s_zero) (data x) ∧
    shape g = shape x ∧
    data g = zip_with (λ d v, if s_gtb v s_zero then d else s_zero)
               (data out_grad) (data x) ∧
    ∀ i, data x !! i = Some s_zero →
         data y !! i = Some s_zero ∧ data g !! i = Some s_zero.
Proof using mul_one_r mul_zero_r max_zero_zero gtb_zero_zero.
  intros Hx Hg Hs.
  eexists (np_maximum0 x),
    (mkArr (shape x)
       (zip_with (λ d v, if s_gtb v s_zero then d else s_zero)
          (data out_grad) (data x))).
  split; [reflexivity|]. split.
  - unfold gradient, ReLU_gradient, Tensor_mul, multiply, compute,
      EWiseMul_compute, np_mul.
    rewrite np_binop_same_shape;
      [|done|by apply wf_np_map|by rewrite Hs]. simpl.
    rewrite Hs. do 3 f_equal. rewrite zip_with_fmap_r.
    apply zip_with_ext; [|done|done].
    intros d v. by destruct (s_gtb v s_zero).
  - simpl. do 4 (split; [done|]). intros i Hi. split.
    + rewrite list_lookup_fmap, Hi. simpl. by rewrite max_zero_zero.
    + unfold wf in *. rewrite Hs, <- Hx in Hg.
      destruct (lookup_lt_is_Some_2 (data out_grad) i) as [d Hd].
      { rewrite Hg. by eapply lookup_lt_Some. }
      rewrite lookup_zip_with, Hd, Hi. simpl. by rewrite gtb_zero_zero.
Qed.

End ReLU_laws.

(** Witness of [ReLU_forward_and_gradient]: the input [[-1, 0, 2]] with
    incoming gradient [[5, 5, 5]] over the rationals. *)
Lemma ReLU_forward_and_gradient_witness :
  let x := mkArr [3] [Q2Qc (-1); Q2Qc 0; Q2Qc 2] in
  let og := mkArr [3] [Q2Qc 5; Q2Qc 5; Q2Qc 5] in
  ∃ y g,
    relu x = Ok y ∧ gradient ReLU og [x] = Ok [g] ∧
    shape y = shape x ∧ data y = map (λ v, s_max v s_zero) (data x) ∧
    shape g = shape x ∧
    data g = zip_with (λ d v, if s_gtb v s_zero then d else s_zero)
               (data og) (data x) ∧
    ∀ i, data x !! i = Some s_zero →
         data y !! i = Some s_zero ∧ data g !! i = Some s_zero.
Proof.
  apply (@ReLU_forward_and_gradient Qc Qc_scalar
           Qcmult_1_r Qcmult_0_r eq_refl eq_refl);
    reflexivity.
Defined.

Section EWiseDiv.
Context {R : Type} `{Scalar R}.

(** The forward pass of [Divide] on two arrays of one shape. *)
Lemma EWiseDiv_forward (lhs rhs : NDArray R) :
  wf lhs → wf rhs → shape rhs = shape lhs →
  divide lhs rhs
    = Ok (mkArr (shape lhs) (zip_with s_div (data lhs) (data rhs))).
Proof.
  intros Hl Hr Hsr. unfold divide, compute, EWiseDiv_compute, np_div.
  by rewrite np_binop_same_shape.
Qed.

(** The gradient of [Divide] up to the power: [out_grad / rhs] and
    [(-out_grad) * lhs] are computed first, then [rhs ** -2]. *)
Lemma EWiseDiv_gradient_steps (lhs rhs out_grad : NDArray R) :
  wf lhs → wf rhs → wf out_grad →
  shape rhs = shape lhs → shape out_grad = shape lhs →
  gradient EWiseDiv out_grad [lhs; rhs]
  = (p ← power_scalar rhs (-2);
     gr ← multiply
            (mkArr (shape lhs)
               (zip_with (λ g l, s_mul (s_neg g) l)
                  (data out_grad) (data lhs))) p;
     Ok [mkArr (shape lhs) (zip_with s_div (data out_grad) (data rhs)); gr]).
Proof.
  intros Hl Hr Hg Hsr Hsg.
  cbn [gradient EWiseDiv_gradient].
  unfold Tensor_truediv, divide, Tensor_neg, negate, Tensor_mul, multiply,
    Tensor_pow.
  cbn [compute].
  unfold EWiseDiv_compute, EWiseMul_compute, Negate_compute, np_div, np_mul,
    np_negative.
  rewrite np_binop_same_shape; [|done|done|congruence]. rewrite bind_Ok.
  rewrite bind_Ok.
  rewrite np_binop_same_shape;
    [|by apply wf_np_map|done|simpl; congruence]. rewrite bind_Ok.
  cbn [np_map shape data]. rewrite zip_with_fmap_l, Hsg. done.
Qed.

(** C7 (the code departs from the claim).  On two arrays of one shape
    [Divide]'s forward pass is the elementwise quotient.  Its gradient
    for the denominator is written [-out_grad * lhs * (rhs ** -2)].
    Where the backend computes the power [r ** -2] as [1 / (r * r)], as
    it does for arrays of floats, the gradient is [out_grad / rhs] and
    [-out_grad * lhs / rhs^2], as claimed (scalars: multiplying by a
    reciprocal is dividing).  Where the backend refuses the power, as
    numpy does for every array of integers, the gradient raises
    [ValueError] although the forward pass returns the quotient: for
    [lhs = [6, 1]] and [rhs = [3, 2]] of dtype [int64] the quotient is
    [[2.0, 0.5]] and the gradient is not computed. *)
Theorem EWiseDiv_forward_and_gradient :
  (∀ lhs rhs out_grad : NDArray R,
     (∀ r : R, r ≠ s_zero → s_pow r (-2) = Ok (s_div s_one (s_mul r r))) →
     (∀ y z : R, s_mul y (s_div s_one z) = s_div y z) →
     wf lhs → wf rhs → wf out_grad →
     shape rhs = shape lhs → shape out_grad = shape lhs →
     Forall (λ r, r ≠ s_zero) (data rhs) →
     divide lhs rhs
       = Ok (mkArr (shape lhs) (zip_with s_div (data lhs) (data rhs))) ∧
     gradient EWiseDiv out_grad [lhs; rhs]
       = Ok [mkArr (shape lhs) (zip_with s_div (data out_grad) (data rhs));
             mkArr (shape lhs)
               (zip_with (λ gl r, s_div gl (s_mul r r))
                  (zip_with (λ g l, s_mul (s_neg g) l)
                     (data out_grad) (data lhs))
                  (data rhs))]) ∧
  (∀ (lhs rhs out_grad : NDArray R) (r : R) (rs : list R),
     wf lhs → wf rhs → wf out_grad →
     shape rhs = shape lhs → shape out_grad = shape lhs →
     data rhs = r :: rs → s_pow r (-2) = Err ValueError →
     divide lhs rhs
       = Ok (mkArr (shape lhs) (zip_with s_div (data lhs) (data rhs))) ∧
     gradient EWiseDiv out_grad [lhs; rhs] = Err ValueError).
Proof.
  split.
  - intros lhs rhs out_grad pow_neg_two mul_reciprocal
      Hl Hr Hg Hsr Hsg Hnz.
    split; [by apply EWiseDiv_forward|].
    rewrite EWiseDiv_gradient_steps by done.
    unfold power_scalar, compute, PowerScalar_compute, np_power.
    rewrite (mapM_Ok_map _ (λ r, s_div s_one (s_mul r r))).
    2:{ eapply Forall_impl; [exact Hnz|]. intros r. apply pow_neg_two. }
    rewrite !bind_Ok. unfold multiply, compute, EWiseMul_compute, np_mul.
    rewrite np_binop_same_shape; cbn [shape data]; [| | |congruence].
    + rewrite bind_Ok. do 4 f_equal. rewrite zip_with_fmap_r.
      apply zip_with_ext; [|done..]. intros gl r. apply mul_reciprocal.
    + unfold wf in *. cbn [shape data]. rewrite length_zip_with.
      rewrite Hsg, <- Hl in Hg. rewrite Hg. lia.
    + unfold wf in *. cbn [shape data]. by rewrite length_map.
  - intros lhs rhs out_grad r rs Hl Hr Hg Hsr Hsg Hd Hpow.
    split; [by apply EWiseDiv_forward|].
    rewrite EWiseDiv_gradient_steps by done.
    unfold power_scalar, compute, PowerScalar_compute, np_power.
    by rewrite Hd, (mapM_Err_head (λ x, s_pow x (-2)) ValueError r rs Hpow).
Qed.

End EWiseDiv.

Lemma Qc_pow_neg_two (r : Qc) :
  r ≠ s_zero → s_pow r (-2) = Ok (s_div s_one (s_mul r r)).
Proof.
  intros _. simpl. f_equal. unfold Qcdiv.
  rewrite Qcmult_1_l. f_equal. by rewrite Qcmult_1_r.
Qed.

Lemma Qc_mul_reciprocal (y z : Qc) : s_mul y (s_div s_one z) = s_div y z.
Proof. simpl. unfold Qcdiv. by rewrite Qcmult_1_l. Qed.

Lemma Qc_nonzero (n : positive) : Q2Qc (Z.pos n # 1) ≠ Q2Qc 0.
Proof. intros E. apply Q2Qc_eq_iff in E. discriminate. Qed.

(** Witness of [EWiseDiv_forward_and_gradient]: [[6, 1] / [3, 2]] with
    incoming gradient [[1, 1]], over the rationals (where the gradient
    is the claimed one) and on arrays of dtype [int64] (where it
    raises). *)
Lemma EWiseDiv_forward_and_gradient_witness :
  (let lhs := mkArr [2] [Q2Qc 6; Q2Qc 1] in
   let rhs := mkArr [2] [Q2Qc 3; Q2Qc 2] in
   let og := mkArr [2] [Q2Qc 1; Q2Qc 1] in
   divide lhs rhs
     = Ok (mkArr (shape lhs) (zip_with s_div (data lhs) (data rhs))) ∧
   gradient EWiseDiv og [lhs; rhs]
     = Ok [mkArr (shape lhs) (zip_with s_div (data og) (data rhs));
           mkArr (shape lhs)
             (zip_with (λ gl r, s_div gl (s_mul r r))
                (zip_with (λ g l, s_mul (s_neg g) l) (data og) (data lhs))
                (data rhs))]) ∧
  (let lhs := mkArr [2] [np_int64 6; np_int64 1] in
   let rhs := mkArr [2] [np_int64 3; np_int64 2] in
   let og : NDArray np_number := np_ones [2] in
   divide lhs rhs
     = Ok (mkArr [2] [np_float (Q2Qc 2); np_float (Q2Qc (1 # 2))]) ∧
   gradient EWiseDiv og [lhs; rhs] = Err ValueError).
Proof.
  split.
  - apply (proj1 (@EWiseDiv_forward_and_gradient Qc Qc_scalar));
      try reflexivity.
    + apply Qc_pow_neg_two.
    + apply Qc_mul_reciprocal.
    + repeat constructor; apply Qc_nonzero.
  - intros lhs rhs og.
    destruct (proj2 (@EWiseDiv_forward_and_gradient np_number
                       np_number_scalar)
                lhs rhs og (np_int64 3) [np_int64 2]) as [Hf Hg];
      try reflexivity.
    split; [|exact Hg]. rewrite Hf. cbn.
    repeat f_equal; apply Qc_is_canon; reflexivity.
Defined.

(** ** Transpose *)

(** The transposition of [a] and [b] as a function on positions, the
    permutation of [0 .. n-1] it induces, and the position that a valid
    Python index denotes. *)
Definition transp (a b m : nat) : nat :=
  if m =? a then b else if m =? b then a else m.

Definition swap_axes (n a b : nat) : list nat := map (transp a b) (seq 0 n).

Definition valid_index (n : nat) (i : Z) : Prop :=
  (- Z.of_nat n ≤ i < Z.of_nat n)%Z.

Definition py_pos (n : nat) (i : Z) : nat :=
  Z.to_nat (if bool_decide (0 ≤ i)%Z then i else i + Z.of_nat n).

Lemma transp_involutive (a b m : nat) : transp a b (transp a b m) = m.
Proof.
  unfold transp.
  destruct (Nat.eqb_spec m a) as [->|Hma].
  - destruct (Nat.eqb_spec b a) as [->|Hba]; [done|].
    by rewrite Nat.eqb_refl.
  - destruct (Nat.eqb_spec m b) as [->|Hmb].
    + by rewrite Nat.eqb_refl.
    + by rewrite (proj2 (Nat.eqb_neq m a)), (proj2 (Nat.eqb_neq m b)).
Qed.

Lemma transp_lt (n a b m : nat) : a < n → b < n → m < n → transp a b m < n.
Proof.
  unfold transp. intros.
  destruct (m =? a); [done|]. by destruct (m =? b).
Qed.

Lemma norm_index_valid (n : nat) (i : Z) :
  valid_index n i → norm_index n i = Ok (py_pos n i) ∧ py_pos n i < n.
Proof.
  unfold valid_index, norm_index, py_pos. intros Hi.
  destruct (decide (0 ≤ i)%Z).
  - rewrite !bool_decide_true by lia. split; [done | lia].
  - rewrite bool_decide_false by lia. rewrite bool_decide_true by lia.
    rewrite bool_decide_false by lia. split; [done | lia].
Qed.

Lemma length_swap_axes (n a b : nat) : length (swap_axes n a b) = n.
Proof. unfold swap_axes. by rewrite length_map, length_seq. Qed.

Lemma lookup_swap_axes (n a b m : nat) :
  m < n → swap_axes n a b !! m = Some (transp a b m).
Proof.
  intros Hm. unfold swap_axes.
  change (map ?f ?l) with (f <$> l).
  by rewrite list_lookup_fmap, lookup_seq_lt.
Qed.

Lemma py_swap_seq (n : nat) (i j : Z) :
  valid_index n i → valid_index n j →
  py_swap (seq 0 n) i j = Ok (swap_axes n (py_pos n i) (py_pos n j)).
Proof.
  intros Hi Hj.
  destruct (norm_index_valid n i Hi) as [Ei Hpi].
  destruct (norm_index_valid n j Hj) as [Ej Hpj].
  unfold py_swap, py_getitem, py_setitem.
  rewrite length_seq, Ej. simpl. rewrite lookup_seq_lt by done. simpl.
  rewrite Ei. simpl. rewrite lookup_seq_lt by done. simpl.
  rewrite length_insert, length_seq, Ej. simpl. f_equal.
  apply list_eq. intros m.
  destruct (decide (m < n)) as [Hm|Hm].
  - rewrite lookup_swap_axes by done. unfold transp.
    destruct (decide (m = py_pos n j)) as [->|Hne].
    + rewrite list_lookup_insert_eq
        by (by rewrite length_insert, length_seq).
      destruct (Nat.eqb_spec (py_pos n j) (py_pos n i)) as [E|E];
        [by rewrite E | by rewrite Nat.eqb_refl].
    + rewrite list_lookup_insert_ne by done.
      destruct (Nat.eqb_spec m (py_pos n j)); [done|].
      destruct (decide (m = py_pos n i)) as [->|Hne'].
      * rewrite list_lookup_insert_eq by (by rewrite length_seq).
        by rewrite Nat.eqb_refl.
      * rewrite list_lookup_insert_ne by done.
        destruct (Nat.eqb_spec m (py_pos n i)); [done|].
        by rewrite lookup_seq_lt.
  - rewrite !lookup_ge_None_2;
      [done | rewrite length_swap_axes; lia
      | rewrite !length_insert, length_seq; lia].
Qed.

Lemma NoDup_swap_axes (n a b : nat) : NoDup (swap_axes n a b).
Proof.
  unfold swap_axes. apply NoDup_fmap_2; [|apply NoDup_seq].
  intros x y E. apply (f_equal (transp a b)) in E.
  by rewrite !transp_involutive in E.
Qed.

Lemma index_of_lookup (l : list nat) (m p : nat) :
  NoDup l → l !! m = Some p → index_of p l = m.
Proof.
  revert m. induction l as [|x l IH]; intros m Hnd Hm; [done|].
  apply NoDup_cons in Hnd as [Hx Hnd]. simpl.
  destruct m as [|m]; simpl in Hm.
  - injection Hm as ->. by rewrite Nat.eqb_refl.
  - destruct (Nat.eqb_spec x p) as [->|_].
    + exfalso. apply Hx. by eapply list_elem_of_lookup_2.
    + f_equal. by apply IH.
Qed.

Lemma inv_perm_swap_axes (n a b : nat) :
  a < n → b < n → inv_perm (swap_axes n a b) = swap_axes n a b.
Proof.
  intros Ha Hb. unfold inv_perm. rewrite length_swap_axes.
  unfold swap_axes at 2. apply map_ext_in. intros p Hp.
  apply in_seq in Hp. apply index_of_lookup; [apply NoDup_swap_axes|].
  rewrite lookup_swap_axes by (apply transp_lt; lia).
  by rewrite transp_involutive.
Qed.

Lemma is_perm_swap_axes (n a b : nat) :
  a < n → b < n → is_perm (swap_axes n a b) n = true.
Proof.
  intros Ha Hb. unfold is_perm.
  rewrite bool_decide_true by apply length_swap_axes. simpl.
  apply forallb_forall. intros p Hp. apply in_seq in Hp.
  apply bool_decide_eq_true.
  apply (list_elem_of_lookup_2 _ (transp a b p)).
  rewrite lookup_swap_axes by (apply transp_lt; lia).
  by rewrite transp_involutive.
Qed.

(** Gathering along a transposition. *)
Lemma lookup_gather_swap (n a b m : nat) (x : list nat) :
  length x = n → a < n → b < n → m < n →
  gather x (swap_axes n a b) !! m = x !! transp a b m.
Proof.
  intros Hx Ha Hb Hm. unfold gather.
  change (map ?f ?l) with (f <$> l).
  rewrite list_lookup_fmap, lookup_swap_axes by done. simpl.
  destruct (lookup_lt_is_Some_2 x (transp a b m)) as [v Hv].
  { rewrite Hx. by apply transp_lt. }
  by rewrite (nth_lookup_Some _ _ _ _ Hv).
Qed.

Lemma length_gather (x axes : list nat) : length (gather x axes) = length axes.
Proof. unfold gather. by rewrite length_map. Qed.

Lemma gather_swap_involutive (n a b : nat) (x : list nat) :
  length x = n → a < n → b < n →
  gather (gather x (swap_axes n a b)) (swap_axes n a b) = x.
Proof.
  intros Hx Ha Hb. apply list_eq. intros m.
  destruct (decide (m < n)) as [Hm|Hm].
  - rewrite lookup_gather_swap;
      [|by rewrite length_gather, length_swap_axes|done..].
    rewrite lookup_gather_swap; [|done..|by apply transp_lt].
    by rewrite transp_involutive.
  - rewrite !lookup_ge_None_2;
      [done | lia | rewrite length_gather, length_swap_axes; lia].
Qed.

Lemma Forall2_lt_gather_swap (n a b : nat) (idx s : list nat) :
  length s = n → a < n → b < n →
  Forall2 lt idx s →
  Forall2 lt (gather idx (swap_axes n a b)) (gather s (swap_axes n a b)).
Proof.
  intros Hs Ha Hb Hlt.
  pose proof (Forall2_length _ _ _ Hlt) as Hlen.
  apply Forall2_same_length_lookup_2.
  { by rewrite !length_gather. }
  intros m v d Hv Hd.
  assert (m < n) as Hm.
  { apply lookup_lt_Some in Hv.
    by rewrite length_gather, length_swap_axes in Hv. }
  rewrite lookup_gather_swap in Hv by (done || lia).
  rewrite lookup_gather_swap in Hd by done.
  by eapply Forall2_lookup_lr.
Qed.

Lemma gather_swap_last_two (k u v : nat) (s0 : list nat) :
  length s0 = k →
  gather (s0 ++ [u; v]) (swap_axes (k + 2) (k + 1) k) = s0 ++ [v; u].
Proof.
  intros Hk. apply list_eq. intros m.
  destruct (decide (m < k + 2)) as [Hm|Hm].
  - rewrite lookup_gather_swap; [|rewrite length_app; simpl; lia|lia..].
    unfold transp.
    destruct (Nat.eqb_spec m (k + 1)) as [->|H1].
    + rewrite !lookup_app_r by lia. rewrite Hk.
      replace (k - k) with 0 by lia. by replace (k + 1 - k) with 1 by lia.
    + destruct (Nat.eqb_spec m k) as [->|H2].
      * rewrite !lookup_app_r by lia. rewrite Hk.
        replace (k - k) with 0 by lia. by replace (k + 1 - k) with 1 by lia.
      * by rewrite !lookup_app_l by lia.
  - rewrite !lookup_ge_None_2;
      [done | rewrite length_app; simpl; lia
      | rewrite length_gather, length_swap_axes; lia].
Qed.

(** The axis pairs that [Transpose] accepts for an array of rank [n]:
    with [axes] omitted the rank must be at least 2; otherwise the first
    two entries of the tuple must be valid (possibly negative) indices. *)
Definition valid_axes (n : nat) (axes : option (list Z)) : Prop :=
  match axes with
  | None => 2 ≤ n
  | Some (a0 :: a1 :: _) => valid_index n a0 ∧ valid_index n a1
  | Some _ => False
  end.

Lemma Transpose_axes_None (n : nat) :
  2 ≤ n → Transpose_axes None n = Ok (swap_axes n (n - 1) (n - 2)).
Proof.
  intros Hn. unfold Transpose_axes.
  rewrite py_swap_seq by (unfold valid_index; lia).
  unfold py_pos. rewrite !bool_decide_false by lia.
  do 2 f_equal; lia.
Qed.

Lemma Transpose_axes_ok (n : nat) (axes : option (list Z)) :
  valid_axes n axes →
  ∃ a b, a < n ∧ b < n ∧ Transpose_axes axes n = Ok (swap_axes n a b).
Proof.
  destruct axes as [[|a0 [|a1 rest]]|]; simpl; try done.
  - intros [H0 H1].
    exists (py_pos n a0), (py_pos n a1).
    split; [by apply norm_index_valid|]. split; [by apply norm_index_valid|].
    unfold py_getitem, norm_index.
    rewrite bool_decide_true by (simpl length; lia). simpl.
    by apply py_swap_seq.
  - intros Hn. exists (n - 1), (n - 2).
    split; [lia|]. split; [lia|]. by apply Transpose_axes_None.
Qed.

(** The pair of positions that [Transpose.compute] exchanges in an array
    of rank [n]. *)
Definition axis_pair (n : nat) (axes : option (list Z)) : nat * nat :=
  match axes with
  | None => (n - 1, n - 2)
  | Some (a0 :: a1 :: _) => (py_pos n a0, py_pos n a1)
  | Some _ => (0, 0)
  end.

Lemma Transpose_axes_pair (n : nat) (a0 a1 : Z) (rest : list Z) :
  Transpose_axes (Some (a0 :: a1 :: rest)) n = py_swap (seq 0 n) a0 a1.
Proof.
  unfold Transpose_axes, py_getitem, norm_index.
  rewrite bool_decide_true by (simpl length; lia). simpl.
  by rewrite bool_decide_true by (simpl length; lia).
Qed.

Lemma Transpose_axes_spec (n : nat) (axes : option (list Z)) :
  valid_axes n axes →
  Transpose_axes axes n
    = Ok (swap_axes n (axis_pair n axes).1 (axis_pair n axes).2) ∧
  (axis_pair n axes).1 < n ∧ (axis_pair n axes).2 < n.
Proof.
  destruct axes as [[|a0 [|a1 rest]]|]; cbn [valid_axes axis_pair fst snd];
    try done.
  - intros [H0 H1]. rewrite Transpose_axes_pair.
    split; [by apply py_swap_seq|].
    split; by apply norm_index_valid.
  - intros Hn. split; [by apply Transpose_axes_None | lia].
Qed.

Section Transpose.
Context {R : Type} `{Scalar R}.

(** The array [x] of rank [n] with its axes [a] and [b] exchanged. *)
Definition transposed (x : NDArray R) (n a b : nat) : NDArray R :=
  tabulate (gather (shape x) (swap_axes n a b))
           (λ idx, elem x (gather idx (swap_axes n a b))).

(** [y] is [x] with its axes [a] and [b] exchanged: entry [m] of the
    shape of [y] is entry [m] of the shape of [x], except that the
    entries at [a] and [b] have changed places, and the element of [y]
    at an index is the element of [x] at that index with its entries at
    [a] and [b] exchanged. *)
Definition axes_exchanged (x y : NDArray R) (a b : nat) : Prop :=
  wf y ∧ length (shape y) = rank x ∧
  (∀ m, m < rank x → shape y !! m = shape x !! transp a b m) ∧
  (∀ idx, Forall2 lt idx (shape y) →
     elem y idx = elem x (gather idx (swap_axes (rank x) a b))).

Lemma rank_transposed (x : NDArray R) (n a b : nat) :
  rank (transposed x n a b) = n.
Proof. unfold rank. simpl. by rewrite length_gather, length_swap_axes. Qed.

Lemma np_transpose_swap (x : NDArray R) (n a b : nat) :
  rank x = n → a < n → b < n →
  np_transpose x (swap_axes n a b) = Ok (transposed x n a b).
Proof.
  intros Hr Ha Hb. unfold np_transpose. rewrite Hr.
  by rewrite is_perm_swap_axes, inv_perm_swap_axes.
Qed.

Lemma transposed_involutive (x : NDArray R) (n a b : nat) :
  wf x → rank x = n → a < n → b < n →
  transposed (transposed x n a b) n a b = x.
Proof.
  intros Hwf Hr Ha Hb. unfold transposed at 1. simpl shape.
  rewrite gather_swap_involutive by done.
  etransitivity; [|by apply tabulate_elem].
  apply tabulate_ext. intros idx Hidx.
  pose proof (Forall2_length _ _ _ Hidx) as Hlen.
  unfold transposed. rewrite elem_tabulate
    by (by apply (Forall2_lt_gather_swap n)).
  unfold rank in Hr.
  by rewrite gather_swap_involutive by (done || congruence).
Qed.

Lemma transposed_exchanged (x : NDArray R) (a b : nat) :
  a < rank x → b < rank x →
  axes_exchanged x (transposed x (rank x) a b) a b.
Proof.
  intros Ha Hb. split_and!.
  - apply tabulate_wf.
  - apply rank_transposed.
  - intros m Hm. simpl. by apply lookup_gather_swap.
  - intros idx Hidx. unfold transposed. by rewrite elem_tabulate.
Qed.

Lemma Transpose_compute_swap (x : NDArray R) (axes : option (list Z))
    (n a b : nat) :
  rank x = n → a < n → b < n →
  Transpose_axes axes n = Ok (swap_axes n a b) →
  Transpose_compute axes x = Ok (transposed x n a b).
Proof.
  intros Hr Ha Hb E. unfold Transpose_compute. rewrite Hr, E. simpl.
  by apply np_transpose_swap.
Qed.

(** [Transpose] with a valid axes argument on an array of the rank the
    argument is valid for. *)
Lemma transpose_valid (x : NDArray R) (axes : option (list Z)) (n : nat) :
  rank x = n → valid_axes n axes →
  transpose x axes
    = Ok (transposed x n (axis_pair n axes).1 (axis_pair n axes).2).
Proof.
  intros Hr Hv. destruct (Transpose_axes_spec _ _ Hv) as (E & Ha & Hb).
  unfold transpose, compute. by apply Transpose_compute_swap.
Qed.

(** C8.  For a valid axis pair [Transpose] exchanges the two axes: the
    pair [(axes[0], axes[1])], negative entries counting from the end, or
    the last two axes with [axes] omitted; the result has the shape of
    the input with the two entries exchanged and holds at every index
    the element that the input holds at the index with the two entries
    exchanged.  Transposing twice with the same pair gives the array
    back.  The gradient of [Transpose] is [out_grad] transposed by the
    same pair.  With [axes] omitted the result of shape [(..., d2, d1)]
    has at [(..., j, i)] the element that the input has at
    [(..., i, j)]. *)
Theorem Transpose_involution (x out_grad : NDArray R)
    (axes : option (list Z)) :
  wf x → valid_axes (rank x) axes →
  let a := (axis_pair (rank x) axes).1 in
  let b := (axis_pair (rank x) axes).2 in
  (∀ a0 a1 rest, axes = Some (a0 :: a1 :: rest) →
     a = py_pos (rank x) a0 ∧ b = py_pos (rank x) a1) ∧
  (axes = None → a = rank x - 1 ∧ b = rank x - 2) ∧
  (∃ y, transpose x axes = Ok y ∧ axes_exchanged x y a b ∧
        transpose y axes = Ok x) ∧
  (transpose x axes ≫= λ y, transpose y axes) = Ok x ∧
  gradient (Transpose axes) out_grad [x]
    = (transpose out_grad axes ≫= λ g, Ok [g]) ∧
  (rank out_grad = rank x →
   ∃ g, gradient (Transpose axes) out_grad [x] = Ok [g] ∧
        axes_exchanged out_grad g a b) ∧
  (∀ s0 d1 d2, shape x = s0 ++ [d1; d2] →
     ∃ y, transpose x None = Ok y ∧ shape y = s0 ++ [d2; d1] ∧
          ∀ idx0 i j, Forall2 lt idx0 s0 → i < d1 → j < d2 →
            elem y (idx0 ++ [j; i]) = elem x (idx0 ++ [i; j])).
Proof.
  intros Hwf Hv a b.
  destruct (Transpose_axes_spec _ _ Hv) as (E & Ha & Hb).
  fold a b in E, Ha, Hb.
  pose proof (transpose_valid x axes (rank x) eq_refl Hv) as Hy.
  fold a b in Hy.
  assert (transpose (transposed x (rank x) a b) axes = Ok x) as Hyy.
  { rewrite (transpose_valid _ axes (rank x));
      [|apply rank_transposed|done].
    fold a b. by rewrite transposed_involutive. }
  split_and!.
  - by intros a0 a1 rest ->.
  - by intros ->.
  - exists (transposed x (rank x) a b).
    split; [done|]. split; [by apply transposed_exchanged|done].
  - by rewrite Hy, bind_Ok.
  - done.
  - intros Hr. exists (transposed out_grad (rank x) a b). split.
    + cbn [gradient]. unfold Transpose_gradient.
      by rewrite (transpose_valid out_grad axes (rank x)).
    + rewrite <- Hr. apply transposed_exchanged; by rewrite Hr.
  - intros s0 d1 d2 Hs.
    assert (rank x = length s0 + 2) as Hr.
    { unfold rank. rewrite Hs, length_app. simpl. lia. }
    unfold transpose, compute.
    rewrite (Transpose_compute_swap x None (length s0 + 2)
               (length s0 + 1) (length s0)); [|done|lia|lia|].
    2:{ rewrite Transpose_axes_None by lia. do 2 f_equal; lia. }
    eexists. split; [done|]. unfold transposed. simpl shape. rewrite Hs.
    split; [by apply gather_swap_last_two|].
    intros idx0 i j Hidx Hi Hj.
    pose proof (Forall2_length _ _ _ Hidx) as Hlen.
    rewrite elem_tabulate.
    + by rewrite gather_swap_last_two.
    + rewrite gather_swap_last_two by done.
      apply Forall2_app; [done|]. by repeat constructor.
Qed.

End Transpose.

(** Witness of [Transpose_involution]: a 2 x 3 array of rationals with
    the axis pair [(-1, 0)], which denotes the axes 1 and 0. *)
Lemma Transpose_involution_witness :
  let x := mkArr [2; 3] (map (λ z, Q2Qc (inject_Z z)) [1; 2; 3; 4; 5; 6]%Z) in
  let og := mkArr [3; 2] (map (λ z, Q2Qc (inject_Z z)) [1; 1; 1; 1; 1; 1]%Z) in
  let axes := Some [-1; 0]%Z in
  (∃ y, transpose x axes = Ok y ∧ axes_exchanged x y 1 0 ∧
        transpose y axes = Ok x) ∧
  (transpose x axes ≫= λ y, transpose y axes) = Ok x ∧
  gradient (Transpose axes) og [x] = (transpose og axes ≫= λ g, Ok [g]) ∧
  ∃ g, gradient (Transpose axes) og [x] = Ok [g] ∧
       axes_exchanged og g 1 0.
Proof.
  intros x og axes.
  destruct (@Transpose_involution Qc Qc_scalar x og axes)
    as (_ & _ & H1 & H2 & H3 & H4 & _).
  - reflexivity.
  - split; unfold valid_index, rank; simpl; lia.
  - exact (conj H1 (conj H2 (conj H3 (H4 eq_refl)))).
Defined.

(** ** BroadcastTo *)

(** An axis [i] of the broadcast result was broadcast when it is a new
    leading axis, or when the input has size 1 there and the result has
    not; [off] is the number of new leading axes. *)
Definition is_broadcast_axis (input_shape output_shape : list nat)
    (i : nat) : Prop :=
  let off := length output_shape - length input_shape in
  i < off ∨
  (nth (i - off) input_shape 0 = 1 ∧ nth i output_shape 0 ≠ 1).

Global Instance is_broadcast_axis_dec input_shape output_shape i :
  Decision (is_broadcast_axis input_shape output_shape i).
Proof. unfold is_broadcast_axis. apply _. Defined.

Lemma BroadcastTo_loop (output_shape input_shape : list nat) (n : nat)
    (rd : list nat) (c : Z) :
  foldl (BroadcastTo_loop_body output_shape input_shape) (rd, c)
        (reverse (seq 0 n))
  = (rd ++ filter (λ i,
             (c - (Z.of_nat n - 1 - Z.of_nat i) < 0)%Z ∨
             nth i output_shape 0
               ≠ nth (Z.to_nat (c - (Z.of_nat n - 1 - Z.of_nat i)))
                     input_shape 0)
           (reverse (seq 0 n)),
     (c - Z.of_nat n)%Z).
Proof.
  revert rd c. induction n as [|n IH]; intros rd c.
  - simpl. rewrite app_nil_r. f_equal. lia.
  - rewrite seq_S, reverse_snoc. simpl foldl.
    change (0 + n) with n. rewrite IH. f_equal; [|lia].
    rewrite (list_filter_iff _
      (λ i, (c - (Z.of_nat (S n) - 1 - Z.of_nat i) < 0)%Z ∨
            nth i output_shape 0
              ≠ nth (Z.to_nat (c - (Z.of_nat (S n) - 1 - Z.of_nat i)))
                    input_shape 0) (reverse (seq 0 n))).
    2:{ intros i.
        by replace (c - 1 - (Z.of_nat n - 1 - Z.of_nat i))%Z
          with (c - (Z.of_nat (S n) - 1 - Z.of_nat i))%Z by lia. }
    destruct (decide (c < 0)%Z) as [Hc|Hc].
    + rewrite bool_decide_true by done.
      rewrite filter_cons_True by (left; lia).
      by rewrite <- app_assoc.
    + rewrite bool_decide_false by done.
      destruct (decide (nth n output_shape 0
                        ≠ nth (Z.to_nat c) input_shape 0)) as [Hd|Hd].
      * rewrite bool_decide_true by done.
        rewrite filter_cons_True.
        -- by rewrite <- app_assoc.
        -- right. by replace (c - (Z.of_nat (S n) - 1 - Z.of_nat n))%Z
             with c by lia.
      * rewrite bool_decide_false by done.
        rewrite filter_cons_False; [done|].
        replace (c - (Z.of_nat (S n) - 1 - Z.of_nat n))%Z with c by lia.
        intros [?|?]; [lia | done].
Qed.

(** What [broadcastable_to] checks. *)
Lemma broadcastable_to_spec (s t : list nat) :
  broadcastable_to s t = true →
  length s ≤ length t ∧
  ∀ k d e, s !! k = Some d → t !! (length t - length s + k) = Some e →
           d = e ∨ d = 1.
Proof.
  unfold broadcastable_to. intros Hb.
  apply andb_prop in Hb as [Hlen Hall].
  apply bool_decide_eq_true in Hlen. split; [done|].
  intros k d e Hd He.
  rewrite forallb_forall in Hall.
  specialize (Hall (d, e)). simpl in Hall.
  assert ((d =? e) || (d =? 1) = true) as Hde.
  { apply Hall. apply list_elem_of_In.
    apply (list_elem_of_lookup_2 _ k).
    apply lookup_zip_with_Some. exists d, e.
    by rewrite lookup_drop. }
  apply orb_prop in Hde as [Hde|Hde]; apply Nat.eqb_eq in Hde; auto.
Qed.

Lemma filter_ext_in {A} (P Q : A → Prop) `{∀ x, Decision (P x)}
    `{∀ x, Decision (Q x)} (l : list A) :
  (∀ x, x ∈ l → (P x ↔ Q x)) → filter P l = filter Q l.
Proof.
  induction l as [|x l IH]; intros HPQ; [done|].
  rewrite !filter_cons.
  rewrite IH by (intros y Hy; apply HPQ; by right).
  destruct (decide (P x)) as [HP|HP], (decide (Q x)) as [HQ|HQ];
    try done; exfalso; apply (HPQ x) in HP || apply (HPQ x) in HQ;
    (done || by left).
Qed.

Lemma BroadcastTo_reduce_dim_spec (output_shape input_shape : list nat) :
  broadcastable_to input_shape output_shape = true →
  BroadcastTo_reduce_dim output_shape input_shape
  = filter (is_broadcast_axis input_shape output_shape)
           (reverse (seq 0 (length output_shape))).
Proof.
  intros Hb. apply broadcastable_to_spec in Hb as [Hlen Hb].
  unfold BroadcastTo_reduce_dim. rewrite BroadcastTo_loop. simpl.
  apply filter_ext_in. intros i Hi.
  apply elem_of_reverse, elem_of_seq in Hi.
  unfold is_broadcast_axis.
  set (off := length output_shape - length input_shape).
  destruct (decide (i < off)) as [Ho|Ho].
  { split; intros _; left; lia. }
  replace (Z.to_nat (Z.of_nat (length input_shape) - 1
             - (Z.of_nat (length output_shape) - 1 - Z.of_nat i)))
    with (i - off) by lia.
  destruct (lookup_lt_is_Some_2 input_shape (i - off)) as [d Hd]; [lia|].
  destruct (lookup_lt_is_Some_2 output_shape i) as [e He]; [lia|].
  rewrite (nth_lookup_Some _ _ _ _ Hd), (nth_lookup_Some _ _ _ _ He).
  assert (d = e ∨ d = 1) as Hde.
  { apply (Hb (i - off) d e Hd).
    by replace (length output_shape - length input_shape + (i - off))
      with i by lia. }
  split.
  - intros [?|?]; [lia|]. right. lia.
  - intros [?|[? ?]]; [lia|]. right. lia.
Qed.

Lemma mapM_norm_axis (n : nat) (l : list nat) :
  Forall (λ i, i < n) l → mapM (norm_axis n) (map Z.of_nat l) = Ok l.
Proof.
  induction 1 as [|i l Hi _ IH]; [done|].
  assert (norm_axis n (Z.of_nat i) = Ok i) as E.
  { unfold norm_axis. rewrite bool_decide_true by lia.
    by rewrite Nat2Z.id. }
  simpl. rewrite E. simpl. by rewrite IH.
Qed.

Lemma drop_axes_from_all {A} (m : nat) (axes : list nat) (l : list A) :
  (∀ i, m ≤ i < m + length l → i ∈ axes) → drop_axes_from m axes l = [].
Proof.
  revert m. induction l as [|x l IH]; intros m Hin; [done|].
  simpl. rewrite bool_decide_true by (apply Hin; simpl; lia).
  apply IH. intros i Hi. apply Hin. simpl. lia.
Qed.

Lemma drop_axes_from_app {A} (m : nat) (axes : list nat) (l1 l2 : list A) :
  drop_axes_from m axes (l1 ++ l2)
  = drop_axes_from m axes l1 ++ drop_axes_from (m + length l1) axes l2.
Proof.
  revert m. induction l1 as [|x l1 IH]; intros m; simpl.
  - by rewrite Nat.add_0_r.
  - rewrite IH. replace (S m + length l1) with (m + S (length l1)) by lia.
    by destruct (bool_decide (m ∈ axes)).
Qed.

(** Dropping from [t] axes on which [s] has size 1, where [s] and [t]
    agree on the other axes, leaves the number of elements of [s]. *)
Lemma numel_drop_axes_from (m : nat) (axes : list nat) (s t : list nat) :
  length s = length t →
  (∀ k d e, s !! k = Some d → t !! k = Some e →
     (m + k ∈ axes → d = 1) ∧ (m + k ∉ axes → d = e)) →
  numel (drop_axes_from m axes t) = numel s.
Proof.
  revert m s. induction t as [|e t IH]; intros m [|d s] Hlen Hk;
    try done.
  simpl in Hlen. simpl drop_axes_from.
  destruct (Hk 0 d e eq_refl eq_refl) as [Hin Hout].
  rewrite Nat.add_0_r in Hin, Hout.
  assert (numel (drop_axes_from (S m) axes t) = numel s) as IH'.
  { apply IH; [lia|]. intros k d' e' Hd' He'.
    replace (S m + k) with (m + S k) by lia. by apply Hk. }
  destruct (decide (m ∈ axes)) as [Hm|Hm].
  - rewrite bool_decide_true by done.
    rewrite IH', numel_cons. rewrite Hin by done. lia.
  - rewrite bool_decide_false by done.
    by rewrite !numel_cons, IH', Hout.
Qed.

Lemma numel_drop_broadcast_axes (input_shape output_shape : list nat) :
  broadcastable_to input_shape output_shape = true →
  numel (drop_axes (BroadcastTo_reduce_dim output_shape input_shape)
                   output_shape)
  = numel input_shape.
Proof.
  intros Hb. rewrite BroadcastTo_reduce_dim_spec by done.
  apply broadcastable_to_spec in Hb as [Hlen Hb].
  set (off := length output_shape - length input_shape).
  set (rd := filter _ _).
  assert (∀ i, i ∈ rd ↔
            i < length output_shape
            ∧ is_broadcast_axis input_shape output_shape i) as Hrd.
  { intros i. unfold rd.
    rewrite list_elem_of_filter, elem_of_reverse, elem_of_seq.
    split; intros [? ?]; split; (done || lia). }
  rewrite <- (take_drop off output_shape).
  unfold drop_axes. rewrite drop_axes_from_app.
  assert (length (take off output_shape) = off) as Htake.
  { rewrite length_take. unfold off. lia. }
  rewrite drop_axes_from_all.
  2:{ intros i Hi. apply Hrd. rewrite Htake in Hi.
      split; [unfold off in *; lia|]. left. fold off. lia. }
  rewrite Htake. simpl.
  apply numel_drop_axes_from.
  { rewrite length_drop. unfold off. lia. }
  intros k d e Hd He. rewrite lookup_drop in He.
  pose proof (lookup_lt_Some _ _ _ Hd) as Hk.
  pose proof (Hb k d e Hd He) as Hde.
  rewrite Hrd. unfold is_broadcast_axis. fold off.
  replace (off + k - off) with k by lia.
  rewrite (nth_lookup_Some _ _ _ _ Hd), (nth_lookup_Some _ _ _ _ He).
  split.
  - intros [_ [?|[? ?]]]; lia.
  - intros Hnot. destruct (decide (d = e)) as [|Hne]; [done|].
    exfalso. apply Hnot.
    split; [apply lookup_lt_Some in He; lia|]. right. lia.
Qed.

Section BroadcastTo.
Context {R : Type} `{Scalar R}.

(** [y = broadcast_to(x, new_shape); z = summation(y); z.backward()],
    then read [x.grad]. *)
Definition broadcast_sum_backward (x : NDArray R) (new_shape : list nat)
  : result (option (NDArray R)) :=
  let '(g1, v) := make_leaf [] x true in
  '(g2, y) ← make_from_op g1 (BroadcastTo new_shape) [v];
  '(g3, z) ← make_from_op g2 (Summation_init AxesNone) [y];
  st ← backward g3 z;
  Ok (grad st !! v).

(** The number 4 as the backend computes it when it adds four ones. *)
Definition s_four : R := s_add (s_add (s_add s_one s_one) s_one) s_one.

Lemma Forall_lt_reduce_dim (input_shape output_shape : list nat) :
  Forall (λ i, i < length output_shape)
    (filter (is_broadcast_axis input_shape output_shape)
            (reverse (seq 0 (length output_shape)))).
Proof.
  apply Forall_forall. intros i Hi.
  apply list_elem_of_filter in Hi as [_ Hi].
  apply elem_of_reverse, elem_of_seq in Hi. lia.
Qed.

Lemma BroadcastTo_gradient_ok (x out_grad : NDArray R) :
  broadcastable_to (shape x) (shape out_grad) = true →
  ∃ s g,
    summation out_grad (AxesTuple (map Z.of_nat
      (BroadcastTo_reduce_dim (shape out_grad) (shape x)))) = Ok s ∧
    reshape s (shape x) = Ok g ∧
    BroadcastTo_gradient out_grad [x] = Ok [g] ∧
    shape g = shape x.
Proof.
  intros Hb.
  pose proof (numel_drop_broadcast_axes _ _ Hb) as Hnum.
  unfold BroadcastTo_gradient, summation, reshape, compute,
    Summation_init, Summation_compute, Reshape_compute, np_sum,
    normalize_axes.
  rewrite (BroadcastTo_reduce_dim_spec _ _ Hb) in Hnum |- *.
  rewrite mapM_norm_axis by apply Forall_lt_reduce_dim. simpl.
  rewrite bool_decide_true
    by (apply NoDup_filter; rewrite reverse_Permutation; apply NoDup_seq).
  simpl.
  unfold np_reshape. simpl.
  rewrite bool_decide_true by done. simpl.
  eexists _, _. split; [reflexivity|]. simpl.
  rewrite bool_decide_true by done. done.
Qed.

Hypothesis mul_one_one : s_mul (s_one : R) s_one = s_one.

(** C4.  For a target shape to which the input can be broadcast,
    [BroadcastTo]'s gradient sums [out_grad] over exactly the axes that
    were broadcast (the new leading axes and the axes where the input has
    size 1 and the result has not) and reshapes the sum to the shape of
    the input.  In particular, broadcasting a (3,1) tensor to (3,4),
    summing all elements and running the backward pass gives the tensor
    a gradient of shape (3,1) whose entries are all 4 (given that
    [1 * 1 = 1]). *)
Theorem BroadcastTo_gradient_sums_broadcast_axes (x out_grad : NDArray R)
    (new_shape : list nat) :
  broadcastable_to (shape x) new_shape = true →
  shape out_grad = new_shape →
  (∃ s g,
     BroadcastTo_reduce_dim new_shape (shape x)
       = filter (is_broadcast_axis (shape x) new_shape)
                (reverse (seq 0 (length new_shape))) ∧
     summation out_grad (AxesTuple (map Z.of_nat
       (BroadcastTo_reduce_dim new_shape (shape x)))) = Ok s ∧
     reshape s (shape x) = Ok g ∧
     gradient (BroadcastTo new_shape) out_grad [x] = Ok [g] ∧
     shape g = shape x) ∧
  (∀ a b c : R,
     broadcast_sum_backward (mkArr [3; 1] [a; b; c]) [3; 4]
       = Ok (Some (mkArr [3; 1] [s_four; s_four; s_four]))).
Proof using mul_one_one.
  intros Hb Hs. split.
  - subst new_shape.
    destruct (BroadcastTo_gradient_ok x out_grad Hb)
      as (s & g & Hsum & Hre & Hg & Hsh).
    exists s, g. split; [by apply BroadcastTo_reduce_dim_spec|]. done.
  - intros a b c.
    transitivity (Ok (Some (mkArr [3; 1]
      (replicate 3 (s_add (s_add (s_add (s_mul (s_one : R) s_one)
         (s_mul s_one s_one)) (s_mul s_one s_one))
         (s_mul s_one s_one)))))).
    + by vm_compute.
    + by rewrite !mul_one_one.
Qed.

End BroadcastTo.

(** Witness of [BroadcastTo_gradient_sums_broadcast_axes]: a (3,1)
    array of rationals broadcast to (2,3,4). *)
Lemma BroadcastTo_gradient_sums_broadcast_axes_witness :
  let x := mkArr [3; 1] [Q2Qc 1; Q2Qc 2; Q2Qc 3] in
  let og : NDArray Qc := np_ones [2; 3; 4] in
  let new_shape := [2; 3; 4] in
  (∃ s g,
     BroadcastTo_reduce_dim new_shape (shape x)
       = filter (is_broadcast_axis (shape x) new_shape)
                (reverse (seq 0 (length new_shape))) ∧
     summation og (AxesTuple (map Z.of_nat
       (BroadcastTo_reduce_dim new_shape (shape x)))) = Ok s ∧
     reshape s (shape x) = Ok g ∧
     gradient (BroadcastTo new_shape) og [x] = Ok [g] ∧
     shape g = shape x) ∧
  (∀ a b c : Qc,
     broadcast_sum_backward (mkArr [3; 1] [a; b; c]) [3; 4]
       = Ok (Some (mkArr [3; 1] [s_four; s_four; s_four]))).
Proof.
  apply (@BroadcastTo_gradient_sums_broadcast_axes Qc Qc_scalar
           (Qcmult_1_l _)); reflexivity.
Defined.

(** Witness of [Reshape_round_trip]: a (2,3) array of rationals reshaped
    to (3,2). *)
Lemma Reshape_round_trip_witness :
  let x := mkArr [2; 3] (map (λ z, Q2Qc (inject_Z z)) [1; 2; 3; 4; 5; 6]%Z) in
  let og : NDArray Qc := np_ones [3; 2] in
  let shapeB := [3; 2] in
  (reshape x shapeB ≫= λ y, reshape y (shape x)) = Ok x ∧
  gradient (Reshape shapeB) og [x] = (reshape og (shape x) ≫= λ g, Ok [g]) ∧
  gradient (Reshape shapeB) og [x] = Ok [mkArr (shape x) (data og)].
Proof.
  apply (@Reshape_round_trip Qc Qc_scalar); reflexivity.
Defined.

(** ** The backward pass: accumulation at a shared node *)

Section Accumulation.
Context {R : Type} `{Scalar R}.

(** [h = f(...) + g(...)] for operators [f] and [g] applied to nodes of
    the arena [G0]: [ins_f] and [ins_g] are the operands, among them the
    shared node.  The result is the extended arena with the identities
    of the two results and of [h]. *)
Definition diamond_on (G0 : list (Tensor R)) (f : Op R) (ins_f : list nat)
    (g : Op R) (ins_g : list nat)
  : result (list (Tensor R) * (nat * nat * nat)) :=
  '(g2, fv) ← make_from_op G0 f ins_f;
  '(g3, gv) ← make_from_op g2 g ins_g;
  '(g4, h) ← make_from_op g3 EWiseAdd [fv; gv];
  Ok (g4, (fv, gv, h)).

(** [h = f(v) + g(v)] for operators of one input and a fresh leaf [v]
    of value [x]. *)
Definition diamond (x : NDArray R) (f g : Op R)
  : result (list (Tensor R) * (nat * nat * nat * nat)) :=
  let '(g1, v) := make_leaf [] x true in
  '(g4, (fv, gv, h)) ← diamond_on g1 f [v] g [v];
  Ok (g4, (v, fv, gv, h)).

(** [root.backward()], then read [v.grad]. *)
Definition grad_after_backward (G : list (Tensor R)) (root v : nat)
  : result (option (NDArray R)) :=
  st ← backward G root;
  Ok (grad st !! v).

(** [root.backward()], then read the list of contributions that [v]
    has accumulated. *)
Definition contributions_after_backward (G : list (Tensor R))
    (root v : nat) : result (list (NDArray R)) :=
  st ← backward G root;
  Ok (default [] (node_to_grads st !! v)).

Lemma np_binop_same_shape_ok (op : R → R → R) (a b : NDArray R) :
  shape b = shape a →
  ∃ c, np_binop op a b = Ok c ∧ shape c = shape a.
Proof.
  intros Hs. unfold np_binop, np_broadcast_to.
  rewrite Hs, broadcast_shapes_same. simpl.
  rewrite broadcastable_to_same. simpl. eauto.
Qed.

(** One step of the backward pass at a leaf and at an operator node. *)
Lemma backward_step_leaf (G : list (Tensor R)) (st : BackwardState R)
    (node : nat) (t : Tensor R) (l : list (NDArray R)) (summed : NDArray R) :
  G !! node = Some t → operator t = None →
  node_to_grads st !! node = Some l →
  sum_node_list l = Ok summed →
  backward_step G st node
    = Ok (mkState (node_to_grads st) (<[node := summed]> (grad st))).
Proof.
  intros Ht Ho Hl Hsum. unfold backward_step.
  rewrite Ht, Hl. simpl. rewrite Hsum. simpl. by rewrite Ho.
Qed.

Lemma backward_step_op (G : list (Tensor R)) (st : BackwardState R)
    (node : nat) (t : Tensor R) (o : Op R) (l vals gs : list (NDArray R))
    (summed : NDArray R) :
  G !! node = Some t → operator t = Some o →
  node_to_grads st !! node = Some l →
  sum_node_list l = Ok summed →
  mapM (realized G) (inputs t) = Ok vals →
  gradient o summed vals = Ok gs →
  backward_step G st node
    = Ok (mkState
            (foldl (λ m '(i, gi), append_grad m i gi)
                   (node_to_grads st) (zip (inputs t) gs))
            (<[node := summed]> (grad st))).
Proof.
  intros Ht Ho Hl Hsum Hvals Hgs. unfold backward_step.
  rewrite Ht, Hl. simpl. rewrite Hsum. simpl. rewrite Ho, Hvals. simpl.
  by rewrite Hgs.
Qed.

Lemma diamond_backward (x a b ga gb s : NDArray R) (f g : Op R) :
  compute f [x] = Ok a →
  compute g [x] = Ok b →
  shape b = shape a →
  gradient f (np_ones (shape a)) [x] = Ok [ga] →
  gradient g (np_ones (shape b)) [x] = Ok [gb] →
  add gb ga = Ok s →
  ∃ G v fv gv h,
    diamond x f g = Ok (G, (v, fv, gv, h)) ∧
    grad_after_backward G fv v = Ok (Some ga) ∧
    grad_after_backward G gv v = Ok (Some gb) ∧
    grad_after_backward G h v = Ok (Some s) ∧
    contributions_after_backward G h v = Ok [gb; ga].
Proof.
  intros Hf Hg Hs Hgf Hgg Hsum.
  destruct (np_binop_same_shape_ok s_add a b Hs) as (c & Hc & Hsc).
  unfold diamond, diamond_on. simpl. unfold make_from_op. simpl.
  rewrite Hf. simpl. rewrite Hg. simpl.
  unfold EWiseAdd_compute, np_add. rewrite Hc. simpl.
  eexists _, _, _, _, _. split; [reflexivity|].
  set (G := [_; _; _; _]).
  assert (find_topo_sort G 1 = Ok [1; 0]) as Ht1 by (by vm_compute).
  assert (find_topo_sort G 2 = Ok [2; 0]) as Ht2 by (by vm_compute).
  assert (find_topo_sort G 3 = Ok [3; 2; 1; 0]) as Ht3 by (by vm_compute).
  unfold grad_after_backward, contributions_after_backward, backward,
    compute_gradient_of_variables.
  rewrite Ht1, Ht2, Ht3.
  change (realized G 1) with (Ok a). change (realized G 2) with (Ok b).
  change (realized G 3) with (Ok c).
  rewrite !bind_Ok. unfold foldlM. rewrite Hsc.
  pose proof Hgg as Hgg'. rewrite Hs in Hgg'.
  split; [|split].
  - erewrite backward_step_op; [|reflexivity|reflexivity
      |apply lookup_singleton_eq|reflexivity|reflexivity|exact Hgf].
    simpl. unfold append_grad. rewrite lookup_singleton_ne by done. simpl.
    erewrite backward_step_leaf; [|reflexivity|reflexivity
      |apply lookup_insert_eq|reflexivity].
    simpl. by rewrite lookup_insert_eq.
  - erewrite backward_step_op; [|reflexivity|reflexivity
      |apply lookup_singleton_eq|reflexivity|reflexivity|exact Hgg].
    simpl. unfold append_grad. rewrite lookup_singleton_ne by done. simpl.
    erewrite backward_step_leaf; [|reflexivity|reflexivity
      |apply lookup_insert_eq|reflexivity].
    simpl. by rewrite lookup_insert_eq.
  - erewrite backward_step_op; [|reflexivity|reflexivity
      |apply lookup_singleton_eq|reflexivity|reflexivity|reflexivity].
    simpl. unfold append_grad.
    rewrite lookup_insert_ne, !lookup_singleton_ne by done. simpl.
    erewrite backward_step_op; [|reflexivity|reflexivity
      |apply lookup_insert_eq|reflexivity|reflexivity|exact Hgg'].
    simpl. unfold append_grad.
    rewrite !lookup_insert_ne, lookup_singleton_ne by done. simpl.
    erewrite backward_step_op; [|reflexivity|reflexivity
      |simpl; by rewrite !lookup_insert_ne, lookup_insert_eq by done
      |reflexivity|reflexivity|exact Hgf].
    simpl. unfold append_grad. rewrite lookup_insert_eq. simpl.
    erewrite backward_step_leaf; [|reflexivity|reflexivity
      |apply lookup_insert_eq|simpl; by rewrite Hsum].
    simpl. by rewrite !lookup_insert_eq.
Qed.

(** *** The arena and the topological order *)

(** Nodes are appended to the arena after their inputs (section 3: "the
    input graph is acyclic (it is built incrementally ...)"). *)
Definition wf_graph (G : list (Tensor R)) : Prop :=
  ∀ i t, G !! i = Some t → Forall (λ j, j < i) (inputs t).

Definition arity (o : Op R) : nat :=
  match o with
  | EWiseAdd | EWiseMul | EWiseDiv | MatMul => 2
  | _ => 1
  end.

(** Every operator node has as many inputs as its operator takes. *)
Definition arity_ok (G : list (Tensor R)) : Prop :=
  ∀ i t o, G !! i = Some t → operator t = Some o →
           length (inputs t) = arity o.

(** [w] is reachable from [u] along [inputs] edges. *)
Inductive reachable (G : list (Tensor R)) : nat → nat → Prop :=
  | reachable_refl u : reachable G u u
  | reachable_step u t v w :
      G !! u = Some t → v ∈ inputs t → reachable G v w → reachable G u w.

(** In a post-order every node comes after its inputs. *)
Definition inputs_first (G : list (Tensor R)) (post : list nat) : Prop :=
  ∀ p1 u p2 t v, post = p1 ++ u :: p2 → G !! u = Some t →
                 v ∈ inputs t → v ∈ p1.

(** What one call of the traversal adds to the order built so far. *)
Definition dfs_extends (G : list (Tensor R)) (bound node : nat)
    (post post' : list nat) : Prop :=
  ∃ ext, post' = post ++ ext ∧
         Forall (λ u, u < bound ∧ reachable G node u) ext ∧
         node ∈ post' ∧
         (NoDup post → NoDup post') ∧
         (inputs_first G post → inputs_first G post').

Lemma inputs_first_snoc (G : list (Tensor R)) (post : list nat)
    (node : nat) (t : Tensor R) :
  inputs_first G post → node ∉ post → G !! node = Some t →
  Forall (λ i, i ∈ post) (inputs t) →
  inputs_first G (post ++ [node]).
Proof.
  intros Hpost Hnot Ht Hin p1 u p2 t' v Heq Hu Hv.
  destruct p2 as [|w p2 _] using rev_ind.
  - apply app_inj_tail in Heq as [-> ->].
    rewrite Ht in Hu. injection Hu as <-.
    rewrite Forall_forall in Hin. by apply Hin.
  - rewrite app_comm_cons, app_assoc in Heq.
    apply app_inj_tail in Heq as [-> ->].
    by eapply Hpost.
Qed.

Lemma topo_sort_dfs_list (G : list (Tensor R)) (fuel bound root : nat) :
  (∀ node post post',
     topo_sort_dfs fuel G node post = Ok post' →
     dfs_extends G (S node) node post post') →
  ∀ ins post post1,
    Forall (λ i, i < bound ∧ reachable G root i) ins →
    foldlM (λ acc i, topo_sort_dfs fuel G i acc) post ins = Ok post1 →
    ∃ ext, post1 = post ++ ext ∧
           Forall (λ u, u < bound ∧ reachable G root u) ext ∧
           Forall (λ i, i ∈ post1) ins ∧
           (NoDup post → NoDup post1) ∧
           (inputs_first G post → inputs_first G post1).
Proof.
  intros IH ins. induction ins as [|i ins IHins]; intros post post1 Hins Hf.
  - injection Hf as <-. exists []. rewrite app_nil_r. by repeat split.
  - simpl in Hf. apply bind_Ok_inv in Hf as (post0 & H0 & Hf).
    apply Forall_cons in Hins as [[Hi Hri] Hins].
    apply IH in H0 as (ext0 & -> & Hext0 & Hin0 & Hnd0 & Hif0).
    apply IHins in Hf as (ext1 & -> & Hext1 & Hin1 & Hnd1 & Hif1);
      [|done].
    exists (ext0 ++ ext1). split_and!.
    + by rewrite app_assoc.
    + apply Forall_app. split; [|done].
      eapply Forall_impl; [exact Hext0|]. intros u [Hu Hr]. split; [lia|].
      clear -Hri Hr. induction Hri; [done|].
      eapply reachable_step; eauto.
    + apply Forall_cons. split; [|done].
      apply elem_of_app. by left.
    + auto.
    + auto.
Qed.

Lemma reachable_trans (G : list (Tensor R)) (u v w : nat) :
  reachable G u v → reachable G v w → reachable G u w.
Proof.
  induction 1; [done|]. intros Hw. eapply reachable_step; eauto.
Qed.

Lemma topo_sort_dfs_extends (G : list (Tensor R)) (fuel : nat) :
  wf_graph G →
  ∀ node post post',
    topo_sort_dfs fuel G node post = Ok post' →
    dfs_extends G (S node) node post post'.
Proof.
  intros Hwf. induction fuel as [|fuel IH]; intros node post post' Hd;
    [done|].
  simpl in Hd. case_bool_decide as Hin.
  - injection Hd as <-. exists []. rewrite app_nil_r. by repeat split.
  - destruct (G !! node) as [t|] eqn:Ht; [|done].
    apply bind_Ok_inv in Hd as (post1 & H1 & Hd). injection Hd as <-.
    eapply (topo_sort_dfs_list G fuel node node IH) in H1
      as (ext & -> & Hext & Hins & Hnd & Hif).
    2:{ pose proof (Hwf node t Ht) as Hlt.
        rewrite Forall_forall in Hlt |- *. intros i Hi.
        split; [by apply Hlt|].
        eapply reachable_step; [done..|constructor]. }
    assert (node ∉ post ++ ext) as Hnot.
    { intros [?|Hx]%elem_of_app; [done|].
      rewrite Forall_forall in Hext. apply Hext in Hx. lia. }
    exists (ext ++ [node]). split_and!.
    + by rewrite app_assoc.
    + apply Forall_app. split.
      * eapply Forall_impl; [exact Hext|]. intros u [? ?]. split; [lia|done].
      * by repeat constructor.
    + apply elem_of_app. right. by left.
    + intros Hp. apply NoDup_app. split_and!.
      * by apply Hnd.
      * intros u Hu ->%list_elem_of_singleton. done.
      * apply NoDup_singleton.
    + intros Hp. by eapply inputs_first_snoc; eauto.
Qed.

(** In an arena the traversal never runs out of fuel. *)
Lemma topo_sort_dfs_total (G : list (Tensor R)) (fuel : nat) :
  wf_graph G →
  ∀ node post, node < length G → node < fuel →
    is_Ok (topo_sort_dfs fuel G node post).
Proof.
  intros Hwf. induction fuel as [|fuel IH]; intros node post HG Hfuel;
    [lia|].
  simpl. case_bool_decide as Hin; [by eexists|].
  destruct (lookup_lt_is_Some_2 G node HG) as [t Ht]. rewrite Ht.
  pose proof (Hwf node t Ht) as Hlt.
  assert (is_Ok (foldlM (λ acc i, topo_sort_dfs fuel G i acc)
                        post (inputs t))) as [post1 ->]; [|by eexists].
  clear Ht Hin. revert post.
  induction Hlt as [|i ins Hi _ IHins]; intros post; [by eexists|].
  simpl. destruct (IH i post) as [post0 ->]; [lia..|]. simpl.
  apply IHins.
Qed.

(** The order of the backward pass: it exists, has no repetition, holds
    exactly the nodes reachable from the root, and every node precedes
    its inputs. *)
Lemma find_topo_sort_spec (G : list (Tensor R)) (root : nat) :
  wf_graph G → root < length G →
  ∃ order,
    find_topo_sort G root = Ok order ∧
    NoDup order ∧
    (∀ u, u ∈ order ↔ reachable G root u) ∧
    (∀ o1 u o2 t v, order = o1 ++ u :: o2 → G !! u = Some t →
                    v ∈ inputs t → v ∈ o2).
Proof.
  intros Hwf Hroot. unfold find_topo_sort.
  destruct (topo_sort_dfs_total G (length G) Hwf root [] Hroot Hroot)
    as [post Hpost].
  rewrite Hpost. simpl. exists (reverse post).
  apply topo_sort_dfs_extends in Hpost
    as (ext & -> & Hext & Hin & Hnd & Hif); [|done].
  simpl in *.
  assert (inputs_first G ext) as Hfirst.
  { apply Hif. intros p1 u p2 t v Heq. by destruct p1. }
  split_and!; [done| | |].
  - rewrite reverse_Permutation. apply Hnd. constructor.
  - intros u. rewrite elem_of_reverse. split.
    + intros Hu. rewrite Forall_forall in Hext. by apply Hext.
    + intros Hr.
      assert (∀ a b, reachable G a b → a ∈ ext → b ∈ ext) as Hclosed;
        [|by apply (Hclosed root)].
      clear -Hfirst. intros a b Hab.
      induction Hab as [|a t v w Ht Hv _ IH]; [done|].
      intros Ha. apply IH.
      apply list_elem_of_split in Ha as (p1 & p2 & ->).
      apply elem_of_app. left. by eapply Hfirst.
  - intros o1 u o2 t v Heq Ht Hv.
    apply (f_equal reverse) in Heq.
    rewrite reverse_involutive, reverse_app, reverse_cons in Heq.
    rewrite <- app_assoc in Heq. simpl in Heq.
    apply elem_of_reverse. by eapply Hfirst.
Qed.

Lemma compute_arity (o : Op R) (vals : list (NDArray R)) (v : NDArray R) :
  compute o vals = Ok v → length vals = arity o.
Proof.
  destruct o, vals as [|? [|? [|? ?]]]; simpl; by try discriminate.
Qed.

Lemma gradient_length (o : Op R) (out_grad : NDArray R)
    (vals gs : list (NDArray R)) :
  gradient o out_grad vals = Ok gs → length gs = arity o.
Proof.
  destruct o; simpl;
    unfold EWiseAdd_gradient, AddScalar_gradient, EWiseMul_gradient,
      MulScalar_gradient, PowerScalar_gradient, EWiseDiv_gradient,
      DivScalar_gradient, Transpose_gradient, Reshape_gradient,
      BroadcastTo_gradient, Summation_gradient, MatMul_gradient,
      Negate_gradient, Log_gradient, Exp_gradient, ReLU_gradient;
    intros Hg;
    repeat match type of Hg with
           | match ?l with _ => _ end = _ => destruct l; try discriminate
           | (?m ≫= _) = _ =>
               destruct m eqn:?; simpl in Hg; try discriminate
           end;
    try discriminate; by injection Hg as <-.
Qed.

(** *** Accumulation of gradient contributions *)

(** The contributions accumulated so far for node [v]. *)
Definition contribs (m : gmap nat (list (NDArray R))) (v : nat)
  : list (NDArray R) :=
  default [] (m !! v).

(** The number of input slots of node [u] that hold [v]. *)
Definition uses (G : list (Tensor R)) (u v : nat) : nat :=
  match G !! u with
  | Some t =>
      match operator t with
      | Some _ => length (filter (λ i, i = v) (inputs t))
      | None => 0
      end
  | None => 0
  end.

(** The seed: one contribution at the root. *)
Definition seed (root v : nat) : nat := if decide (v = root) then 1 else 0.

Lemma contribs_append_grad (m : gmap nat (list (NDArray R))) (i v : nat)
    (gi : NDArray R) :
  contribs (append_grad m i gi) v
  = if decide (i = v) then contribs m v ++ [gi] else contribs m v.
Proof.
  unfold contribs, append_grad. destruct (decide (i = v)) as [->|Hne].
  - by rewrite lookup_insert_eq.
  - by rewrite lookup_insert_ne.
Qed.

Lemma contribs_foldl_append (pairs : list (nat * NDArray R))
    (m : gmap nat (list (NDArray R))) (v : nat) :
  contribs (foldl (λ m '(i, gi), append_grad m i gi) m pairs) v
  = contribs m v ++ map snd (filter (λ p, p.1 = v) pairs).
Proof.
  revert m. induction pairs as [|[i gi] pairs IH]; intros m; simpl.
  - by rewrite app_nil_r.
  - rewrite IH, contribs_append_grad, filter_cons. simpl.
    destruct (decide (i = v)); simpl; [by rewrite <- app_assoc | done].
Qed.

Lemma filter_zip_fst (v : nat) (ins : list nat) (gs : list (NDArray R)) :
  length gs = length ins →
  length (filter (λ p, p.1 = v) (zip ins gs))
  = length (filter (λ i, i = v) ins).
Proof.
  revert gs. induction ins as [|i ins IH]; intros [|gi gs] Hlen;
    try done.
  simpl zip. simpl in Hlen. rewrite !filter_cons. simpl.
  destruct (decide (i = v)); simpl; (rewrite IH by lia); done.
Qed.

Lemma filter_zip_fst_nil (v : nat) (ins : list nat) (gs : list (NDArray R)) :
  v ∉ ins → filter (λ p, p.1 = v) (zip ins gs) = [].
Proof.
  revert gs. induction ins as [|i ins IH]; intros [|gi gs] Hv; try done.
  simpl zip. rewrite filter_cons. simpl.
  apply not_elem_of_cons in Hv as [Hne Hv].
  destruct (decide (i = v)); [congruence|]. by apply IH.
Qed.

(** The invariant of the backward pass after the nodes of [done] have
    been processed: every node has one contribution per input slot of a
    processed node that holds it (and the seed at the root), and the
    [grad] of a processed node is the sum of its contributions. *)
Definition backward_inv (G : list (Tensor R)) (root : nat)
    (done : list nat) (st : BackwardState R) : Prop :=
  (∀ v, length (contribs (node_to_grads st) v)
        = seed root v + sum_list_with (λ u, uses G u v) done) ∧
  (∀ v, v ∈ done →
        ∃ s, grad st !! v = Some s ∧
             sum_node_list (contribs (node_to_grads st) v) = Ok s).

Lemma backward_step_inv (G : list (Tensor R)) (root u : nat)
    (done : list nat) (st st1 : BackwardState R) :
  arity_ok G →
  backward_step G st u = Ok st1 →
  u ∉ done →
  (∀ t v, G !! u = Some t → v ∈ inputs t → (v ∉ done) ∧ v ≠ u) →
  backward_inv G root done st →
  backward_inv G root (done ++ [u]) st1.
Proof.
  intros Har Hstep Hu Hins [Hlen Hgrad]. unfold backward_step in Hstep.
  destruct (G !! u) as [t|] eqn:Ht; [|done].
  apply bind_Ok_inv in Hstep as (summed & Hsum & Hstep).
  fold (contribs (node_to_grads st) u) in Hsum.
  destruct (operator t) as [o|] eqn:Ho.
  - apply bind_Ok_inv in Hstep as (vals & Hvals & Hstep).
    apply bind_Ok_inv in Hstep as (gs & Hgs & Hstep).
    injection Hstep as <-. simpl.
    assert (length gs = length (inputs t)) as Hgl.
    { rewrite (gradient_length _ _ _ _ Hgs). symmetry. by eapply Har. }
    split; simpl.
    + intros v. rewrite contribs_foldl_append, length_app, length_map.
      rewrite filter_zip_fst by done.
      assert (uses G u v = length (filter (λ i, i = v) (inputs t))) as Hus
        by (unfold uses; by rewrite Ht, Ho).
      rewrite sum_list_with_app, Hlen. simpl. lia.
    + intros v [Hv|Hv%list_elem_of_singleton]%elem_of_app.
      * destruct (Hgrad v Hv) as (s & Hs & Hsv).
        exists s. rewrite lookup_insert_ne by congruence.
        split; [done|].
        rewrite contribs_foldl_append, filter_zip_fst_nil, app_nil_r;
          [done|].
        intros Hin. by destruct (Hins t v eq_refl Hin).
      * subst v. exists summed. rewrite lookup_insert_eq. split; [done|].
        rewrite contribs_foldl_append, filter_zip_fst_nil, app_nil_r;
          [done|].
        intros Hin. by destruct (Hins t u eq_refl Hin).
  - injection Hstep as <-. split; simpl.
    + intros v.
      assert (uses G u v = 0) as Hus by (unfold uses; by rewrite Ht, Ho).
      rewrite sum_list_with_app, Hlen. simpl. lia.
    + intros v [Hv|Hv%list_elem_of_singleton]%elem_of_app.
      * destruct (Hgrad v Hv) as (s & Hs & Hsv).
        exists s. by rewrite lookup_insert_ne by congruence.
      * subst v. exists summed. by rewrite lookup_insert_eq.
Qed.

Lemma backward_fold_inv (G : list (Tensor R)) (root : nat)
    (todo done : list nat) (st st' : BackwardState R) :
  arity_ok G →
  NoDup (done ++ todo) →
  (∀ o1 u o2 t v, done ++ todo = o1 ++ u :: o2 → G !! u = Some t →
                  v ∈ inputs t → v ∈ o2) →
  foldlM (backward_step G) st todo = Ok st' →
  backward_inv G root done st →
  backward_inv G root (done ++ todo) st'.
Proof.
  intros Har. revert done st.
  induction todo as [|u todo IH]; intros done st Hnd Htopo Hfold Hinv.
  - injection Hfold as <-. by rewrite app_nil_r.
  - simpl in Hfold. apply bind_Ok_inv in Hfold as (st1 & Hstep & Hfold).
    apply NoDup_app in Hnd as Hnd'. destruct Hnd' as (_ & Hdisj & Hnd2).
    apply NoDup_cons in Hnd2 as [Hu2 _].
    replace (done ++ u :: todo) with ((done ++ [u]) ++ todo) in *
      by (by rewrite <- app_assoc).
    apply (IH (done ++ [u]) st1); [done|done|done|].
    eapply backward_step_inv; [done|done| | |done].
    + intros Hu. apply (Hdisj u Hu). by left.
    + intros t v Ht Hv.
      assert (v ∈ todo) as Hvt.
      { eapply (Htopo done u todo); [by rewrite <- app_assoc|done..]. }
      split.
      * intros Hvd. apply (Hdisj v Hvd). by right.
      * intros ->. done.
Qed.

(** The downstream operations that consume [v]: the nodes of the order
    that have [v] among their inputs. *)
Definition consumers (G : list (Tensor R)) (order : list nat) (v : nat)
  : list nat :=
  filter (λ u, 0 < uses G u v) order.

Lemma sum_uses_consumers (G : list (Tensor R)) (order : list nat) (v : nat) :
  (∀ u, u ∈ order → uses G u v ≤ 1) →
  sum_list_with (λ u, uses G u v) order = length (consumers G order v).
Proof.
  unfold consumers. induction order as [|u order IH]; intros Hle; [done|].
  simpl. rewrite filter_cons.
  rewrite IH by (intros w Hw; apply Hle; by right).
  pose proof (Hle u ltac:(by left)) as Hu.
  destruct (decide (0 < uses G u v)); simpl; lia.
Qed.

(** The backward pass on an arbitrary arena. *)
Lemma backward_accumulates (G : list (Tensor R)) (root : nat)
    (out_grad : NDArray R) (st : BackwardState R) :
  wf_graph G → arity_ok G → root < length G →
  compute_gradient_of_variables G root out_grad = Ok st →
  ∃ order,
    find_topo_sort G root = Ok order ∧ NoDup order ∧
    (∀ u, u ∈ order ↔ reachable G root u) ∧
    ∀ v, reachable G root v →
      length (contribs (node_to_grads st) v)
        = seed root v + sum_list_with (λ u, uses G u v) order ∧
      ((∀ u, reachable G root u → uses G u v ≤ 1) →
       length (contribs (node_to_grads st) v)
         = seed root v + length (consumers G order v)) ∧
      ∃ s, grad st !! v = Some s ∧
           sum_node_list (contribs (node_to_grads st) v) = Ok s.
Proof.
  intros Hwf Har Hroot Hrun.
  destruct (find_topo_sort_spec G root Hwf Hroot)
    as (order & Hord & Hnd & Hreach & Htopo).
  exists order. split_and!; [done..|].
  unfold compute_gradient_of_variables in Hrun. rewrite Hord in Hrun.
  simpl in Hrun.
  apply (backward_fold_inv G root order []) in Hrun as [Hlen Hgrad];
    [|done|done|done|].
  - intros v Hv. simpl in *. split_and!.
    + apply Hlen.
    + intros Hle. rewrite Hlen. f_equal. apply sum_uses_consumers.
      intros u Hu. by apply Hle, Hreach.
    + by apply Hgrad, Hreach.
  - split; simpl.
    + intros v. unfold contribs, seed.
      destruct (decide (v = root)) as [->|Hne].
      * by rewrite lookup_singleton_eq.
      * by rewrite lookup_singleton_ne.
    + intros v Hv. by apply not_elem_of_nil in Hv.
Qed.

(** Graphs built with [make_leaf] and [make_from_op] are arenas. *)
Lemma wf_graph_nil : wf_graph [] ∧ arity_ok [].
Proof. split; intros i t; by rewrite lookup_nil. Qed.

Lemma make_leaf_wf (G : list (Tensor R)) (x : NDArray R) (rg : bool) :
  wf_graph G ∧ arity_ok G →
  wf_graph (make_leaf G x rg).1 ∧ arity_ok (make_leaf G x rg).1.
Proof.
  intros [Hwf Har]. unfold make_leaf. simpl. split.
  - intros i t [Hi|[_ Hi]]%lookup_app_Some; [by eapply Hwf|].
    apply list_lookup_singleton_Some in Hi as [_ <-]. constructor.
  - intros i t o [Hi|[_ Hi]]%lookup_app_Some; [by eapply Har|].
    by apply list_lookup_singleton_Some in Hi as [_ <-].
Qed.

Lemma mapM_realized_lt (G : list (Tensor R)) (ins : list nat)
    (vals : list (NDArray R)) :
  mapM (realized G) ins = Ok vals →
  Forall (λ j, j < length G) ins ∧ length vals = length ins.
Proof.
  revert vals. induction ins as [|i ins IH]; intros vals Hm.
  - injection Hm as <-. by split.
  - simpl in Hm. apply bind_Ok_inv in Hm as (v & Hv & Hm).
    apply bind_Ok_inv in Hm as (vs & Hvs & Hm). injection Hm as <-.
    destruct (IH vs Hvs) as [Hlt Hlen]. split; [|simpl; lia].
    constructor; [|done].
    unfold realized in Hv. destruct (G !! i) eqn:Hi; [|done].
    by eapply lookup_lt_Some.
Qed.

Lemma make_from_op_wf (G G' : list (Tensor R)) (o : Op R) (ins : list nat)
    (id : nat) :
  wf_graph G ∧ arity_ok G →
  make_from_op G o ins = Ok (G', id) →
  wf_graph G' ∧ arity_ok G'.
Proof.
  intros [Hwf Har] Hm. unfold make_from_op in Hm.
  apply bind_Ok_inv in Hm as (vals & Hvals & Hm).
  apply bind_Ok_inv in Hm as (v & Hv & Hm). injection Hm as <- <-.
  destruct (mapM_realized_lt _ _ _ Hvals) as [Hlt Hlen]. split.
  - intros i t [Hi|[Hge Hi]]%lookup_app_Some; [by eapply Hwf|].
    apply list_lookup_singleton_Some in Hi as [Hi0 <-]. simpl.
    eapply Forall_impl; [exact Hlt|]. intros j Hj. simpl in Hj. lia.
  - intros i t o' [Hi|[_ Hi]]%lookup_app_Some; [by eapply Har|].
    apply list_lookup_singleton_Some in Hi as [_ <-]. simpl.
    intros [= <-]. rewrite <- Hlen. by eapply compute_arity.
Qed.

(** *** The shared node anywhere in an arena *)

Lemma topo_sort_dfs_S (G : list (Tensor R)) (fuel node : nat)
    (post : list nat) :
  topo_sort_dfs (S fuel) G node post
  = if bool_decide (node ∈ post) then Ok post
    else match G !! node with
         | None => Err KeyError
         | Some t =>
             foldlM (λ acc i, topo_sort_dfs fuel G i acc) post (inputs t)
               ≫= λ post', Ok (post' ++ [node])
         end.
Proof. reflexivity. Qed.

(** More fuel does not change the result of the traversal. *)
Lemma topo_sort_dfs_fuel_S (G : list (Tensor R)) (fuel : nat) :
  ∀ node post p,
    topo_sort_dfs fuel G node post = Ok p →
    topo_sort_dfs (S fuel) G node post = Ok p.
Proof.
  induction fuel as [|fuel IH]; intros node post p Hd; [done|].
  rewrite topo_sort_dfs_S in Hd |- *.
  case_bool_decide; [done|]. destruct (G !! node) as [t|]; [|done].
  apply bind_Ok_inv in Hd as (p1 & Hp1 & Hd).
  assert (foldlM (λ acc i, topo_sort_dfs (S fuel) G i acc) post (inputs t)
          = Ok p1) as ->; [|done].
  clear -IH Hp1. revert post Hp1.
  induction (inputs t) as [|i ins IHins]; intros post Hp1; [done|].
  rewrite foldlM_cons in Hp1 |- *.
  apply bind_Ok_inv in Hp1 as (p0 & Hp0 & Hp1).
  rewrite (IH _ _ _ Hp0). by apply IHins.
Qed.

Lemma topo_sort_dfs_fuel_le (G : list (Tensor R)) (fuel fuel' node : nat)
    (post p : list nat) :
  fuel ≤ fuel' →
  topo_sort_dfs fuel G node post = Ok p →
  topo_sort_dfs fuel' G node post = Ok p.
Proof.
  induction 1 as [|fuel' _ IH]; [done|].
  intros Hd. by apply topo_sort_dfs_fuel_S, IH.
Qed.

(** A step of the backward pass records the sum of the node's
    contributions as its [grad] and leaves the other [grad]s alone. *)
Lemma backward_step_grad_self (G : list (Tensor R)) (st st1 : BackwardState R)
    (u : nat) :
  backward_step G st u = Ok st1 →
  ∃ s, sum_node_list (contribs (node_to_grads st) u) = Ok s ∧
       grad st1 !! u = Some s.
Proof.
  unfold backward_step. intros Hstep.
  destruct (G !! u) as [t|]; [|done].
  apply bind_Ok_inv in Hstep as (summed & Hsum & Hstep).
  exists summed. split; [done|].
  destruct (operator t).
  - apply bind_Ok_inv in Hstep as (vals & _ & Hstep).
    apply bind_Ok_inv in Hstep as (gs & _ & Hstep).
    injection Hstep as <-. apply lookup_insert_eq.
  - injection Hstep as <-. apply lookup_insert_eq.
Qed.

Lemma backward_step_grad_other (G : list (Tensor R))
    (st st1 : BackwardState R) (u v : nat) :
  backward_step G st u = Ok st1 → v ≠ u → grad st1 !! v = grad st !! v.
Proof.
  unfold backward_step. intros Hstep Hne.
  destruct (G !! u) as [t|]; [|done].
  apply bind_Ok_inv in Hstep as (summed & Hsum & Hstep).
  destruct (operator t).
  - apply bind_Ok_inv in Hstep as (vals & _ & Hstep).
    apply bind_Ok_inv in Hstep as (gs & _ & Hstep).
    injection Hstep as <-. by apply lookup_insert_ne.
  - injection Hstep as <-. by apply lookup_insert_ne.
Qed.

Lemma backward_fold_grad_other (G : list (Tensor R)) (todo : list nat)
    (st st' : BackwardState R) (v : nat) :
  foldlM (backward_step G) st todo = Ok st' → v ∉ todo →
  grad st' !! v = grad st !! v.
Proof.
  revert st. induction todo as [|u todo IH]; intros st Hfold Hv.
  - by injection Hfold as <-.
  - simpl in Hfold. apply bind_Ok_inv in Hfold as (st1 & Hstep & Hfold).
    apply not_elem_of_cons in Hv as [Hne Hv].
    rewrite (IH _ Hfold Hv). by eapply backward_step_grad_other.
Qed.

(** What a successful step at an operator node did. *)
Lemma backward_step_op_inv (G : list (Tensor R)) (st st1 : BackwardState R)
    (node : nat) (t : Tensor R) (o : Op R) :
  G !! node = Some t → operator t = Some o →
  backward_step G st node = Ok st1 →
  ∃ summed vals gs,
    sum_node_list (contribs (node_to_grads st) node) = Ok summed ∧
    mapM (realized G) (inputs t) = Ok vals ∧
    gradient o summed vals = Ok gs ∧
    st1 = mkState
            (foldl (λ m '(i, gi), append_grad m i gi)
                   (node_to_grads st) (zip (inputs t) gs))
            (<[node := summed]> (grad st)).
Proof.
  intros Ht Ho Hstep. unfold backward_step in Hstep.
  rewrite Ht in Hstep.
  apply bind_Ok_inv in Hstep as (summed & Hsum & Hstep).
  rewrite Ho in Hstep.
  apply bind_Ok_inv in Hstep as (vals & Hvals & Hstep).
  apply bind_Ok_inv in Hstep as (gs & Hgs & Hstep).
  injection Hstep as <-. by exists summed, vals, gs.
Qed.

Lemma sum_node_list_singleton (x : NDArray R) : sum_node_list [x] = Ok x.
Proof. reflexivity. Qed.

Lemma sum_node_list_pair (x y s : NDArray R) :
  sum_node_list [x; y] = Ok s ↔ add x y = Ok s.
Proof. simpl. by destruct (add x y). Qed.

Lemma contribs_singleton (u v : nat) (l : list (NDArray R)) :
  contribs {[u := l]} v = if decide (u = v) then l else [].
Proof.
  unfold contribs. destruct (decide (u = v)) as [->|Hne].
  - by rewrite lookup_singleton_eq.
  - by rewrite lookup_singleton_ne.
Qed.

(** *** What a step of the pass sends to the inputs of its node *)

(** The gradients that the step at node [u] appends to the list of [v]:
    what the [gradient] of the operator of [u], called with the [grad]
    of [u], returns for the input slots of [u] that hold [v]. *)
Definition sent (G : list (Tensor R)) (st : BackwardState R) (u v : nat)
  : list (NDArray R) :=
  match G !! u with
  | Some t =>
      match operator t, grad st !! u, mapM (realized G) (inputs t) with
      | Some o, Some s, Ok vals =>
          match gradient o s vals with
          | Ok gs => map snd (filter (λ p, p.1 = v) (zip (inputs t) gs))
          | Err _ => []
          end
      | _, _, _ => []
      end
  | None => []
  end.

Lemma sent_grad_ext (G : list (Tensor R)) (st st' : BackwardState R)
    (u v : nat) :
  grad st' !! u = grad st !! u → sent G st' u v = sent G st u v.
Proof. intros E. unfold sent. by rewrite E. Qed.

Lemma sent_not_input (G : list (Tensor R)) (st : BackwardState R)
    (u v : nat) :
  (∀ t, G !! u = Some t → v ∉ inputs t) → sent G st u v = [].
Proof.
  intros Hv. unfold sent. destruct (G !! u) as [t|]; [|done].
  destruct (operator t) as [o|]; [|done].
  destruct (grad st !! u) as [s|]; [|done].
  destruct (mapM (realized G) (inputs t)) as [vals|]; [|done].
  destruct (gradient o s vals) as [gs|]; [|done].
  by rewrite filter_zip_fst_nil by by apply Hv.
Qed.

(** A successful step at [u] appends to the list of every [v] what it sends
    to [v]. *)
Lemma backward_step_sent (G : list (Tensor R)) (st st1 : BackwardState R)
    (u v : nat) :
  backward_step G st u = Ok st1 →
  contribs (node_to_grads st1) v
  = contribs (node_to_grads st) v ++ sent G st1 u v.
Proof.
  unfold backward_step, sent. intros Hstep.
  destruct (G !! u) as [t|]; [|done].
  apply bind_Ok_inv in Hstep as (summed & Hsum & Hstep).
  destruct (operator t) as [o|].
  - apply bind_Ok_inv in Hstep as (vals & Hvals & Hstep).
    apply bind_Ok_inv in Hstep as (gs & Hgs & Hstep).
    injection Hstep as <-. cbn [node_to_grads grad].
    by rewrite lookup_insert_eq, Hvals, Hgs, contribs_foldl_append.
  - injection Hstep as <-. cbn [node_to_grads]. by rewrite app_nil_r.
Qed.

(** What a successful step at an operator node has computed. *)
Lemma backward_step_sent_op (G : list (Tensor R)) (st st1 : BackwardState R)
    (u : nat) (t : Tensor R) (o : Op R) :
  G !! u = Some t → operator t = Some o →
  backward_step G st u = Ok st1 →
  ∃ s vals gs,
    grad st1 !! u = Some s ∧ mapM (realized G) (inputs t) = Ok vals ∧
    gradient o s vals = Ok gs.
Proof.
  intros Ht Ho Hstep.
  destruct (backward_step_op_inv _ _ _ _ _ _ Ht Ho Hstep)
    as (s & vals & gs & _ & Hvals & Hgs & ->).
  exists s, vals, gs. split; [|done]. apply lookup_insert_eq.
Qed.

(** The invariant of the pass: the list of every node holds what it held
    at the start, followed by what the processed nodes have sent to it,
    in the order in which they were processed; and at every processed
    operator node the gradient call has returned. *)
Definition sent_inv (G : list (Tensor R)) (st0 : BackwardState R)
    (seen : list nat) (st : BackwardState R) : Prop :=
  (∀ v, contribs (node_to_grads st) v
        = contribs (node_to_grads st0) v
          ++ concat (map (λ u, sent G st u v) seen)) ∧
  (∀ u t o, u ∈ seen → G !! u = Some t → operator t = Some o →
     ∃ s vals gs,
       grad st !! u = Some s ∧ mapM (realized G) (inputs t) = Ok vals ∧
       gradient o s vals = Ok gs).

Lemma backward_fold_sent (G : list (Tensor R)) (st0 : BackwardState R)
    (todo seen : list nat) (st st' : BackwardState R) :
  NoDup (seen ++ todo) →
  foldlM (backward_step G) st todo = Ok st' →
  sent_inv G st0 seen st →
  sent_inv G st0 (seen ++ todo) st'.
Proof.
  revert seen st. induction todo as [|u todo IH]; intros seen st Hnd Hf Hinv.
  - injection Hf as <-. by rewrite app_nil_r.
  - rewrite foldlM_cons in Hf.
    apply bind_Ok_inv in Hf as (st1 & Hstep & Hf).
    replace (seen ++ u :: todo) with ((seen ++ [u]) ++ todo) in *
      by (by rewrite <- app_assoc).
    apply (IH (seen ++ [u]) st1); [done|done|].
    assert (u ∉ seen) as Hu.
    { apply NoDup_app in Hnd as (Hnd & _ & _).
      apply NoDup_app in Hnd as (_ & Hdisj & _).
      intros Hin. apply (Hdisj u Hin). by left. }
    assert (∀ w, w ∈ seen → grad st1 !! w = grad st !! w) as Hgrad.
    { intros w Hw. eapply backward_step_grad_other; [done|].
      by intros ->. }
    destruct Hinv as [Hc Hop]. split.
    + intros v. rewrite (backward_step_sent _ _ _ _ v Hstep), Hc.
      rewrite map_app, concat_app. cbn [map concat].
      rewrite app_nil_r, <- app_assoc. do 3 f_equal.
      apply map_ext_in. intros w Hw%list_elem_of_In.
      symmetry. by apply sent_grad_ext, Hgrad.
    + intros w t o [Hw|Hw%list_elem_of_singleton]%elem_of_app Ht Ho.
      * rewrite (Hgrad w Hw). by eapply Hop.
      * subst w. by eapply backward_step_sent_op.
Qed.

Lemma concat_map_single {A B} (F : A → list B) (l : list A) (x : A) :
  NoDup l → x ∈ l → (∀ u, u ∈ l → u ≠ x → F u = []) →
  concat (map F l) = F x.
Proof.
  intros Hnd Hx HF. apply list_elem_of_split in Hx as (l1 & l2 & ->).
  apply NoDup_app in Hnd as (_ & Hdisj & Hnd2).
  apply NoDup_cons in Hnd2 as [Hx2 _].
  rewrite map_app, concat_app. cbn [map concat].
  assert (∀ l', (∀ u, u ∈ l' → F u = []) → concat (map F l') = [])
    as Hnil.
  { intros l'. induction l' as [|u l' IH]; intros Hl'; [done|].
    cbn [map concat]. rewrite (Hl' u) by by left.
    apply IH. intros w Hw. apply Hl'. by right. }
  rewrite (Hnil l1), (Hnil l2), app_nil_r; [done| |].
  - intros u Hu. apply HF; [set_solver|]. by intros ->.
  - intros u Hu. apply HF; [set_solver|].
    intros ->. apply (Hdisj x Hu). by left.
Qed.

(** No node sends anything to a node that does not come before it. *)
Lemma sent_later (G : list (Tensor R)) (st : BackwardState R) (u v : nat) :
  wf_graph G → u ≤ v → sent G st u v = [].
Proof.
  intros Hwf Hle. apply sent_not_input. intros t Ht Hin.
  pose proof (Hwf u t Ht) as Hlt. rewrite Forall_forall in Hlt.
  apply Hlt in Hin. lia.
Qed.

Lemma reachable_le (G : list (Tensor R)) (r u : nat) :
  wf_graph G → reachable G r u → u ≤ r.
Proof.
  intros Hwf. induction 1 as [r|r t v u Ht Hv _ IH]; [done|].
  pose proof (Hwf r t Ht) as Hlt. rewrite Forall_forall in Hlt.
  apply Hlt in Hv. lia.
Qed.

(** The pass from [root] with the seed [out_grad]: the order, what the
    list of every node holds at the end, and the [grad] of the root. *)
Lemma backward_sent (G : list (Tensor R)) (root : nat)
    (out_grad : NDArray R) (st : BackwardState R) :
  wf_graph G → root < length G →
  compute_gradient_of_variables G root out_grad = Ok st →
  ∃ order,
    find_topo_sort G root = Ok order ∧ NoDup order ∧
    (∀ u, u ∈ order ↔ reachable G root u) ∧
    (∀ o1 u o2 t v, order = o1 ++ u :: o2 → G !! u = Some t →
                    v ∈ inputs t → v ∈ o2) ∧
    (∀ v, contribs (node_to_grads st) v
          = (if decide (v = root) then [out_grad] else [])
            ++ concat (map (λ u, sent G st u v) order)) ∧
    (∀ u t o, u ∈ order → G !! u = Some t → operator t = Some o →
       ∃ s vals gs,
         grad st !! u = Some s ∧ mapM (realized G) (inputs t) = Ok vals ∧
         gradient o s vals = Ok gs) ∧
    contribs (node_to_grads st) root = [out_grad].
Proof.
  intros Hwf Hroot Hrun.
  destruct (find_topo_sort_spec G root Hwf Hroot)
    as (order & Hord & Hnd & Hreach & Htopo).
  unfold compute_gradient_of_variables in Hrun.
  rewrite Hord, bind_Ok in Hrun.
  set (st0 := mkState {[ root := [out_grad] ]} ∅) in Hrun.
  assert (sent_inv G st0 [] st0) as Hinv0.
  { split; [intros v; by rewrite app_nil_r|].
    intros u t o Hu. by apply elem_of_nil in Hu. }
  destruct (backward_fold_sent G st0 order [] st0 st Hnd Hrun Hinv0)
    as [Hc Hop].
  clear Hinv0 Hrun. subst st0. cbn [app node_to_grads] in Hc, Hop.
  exists order. split_and!; [done..| | |].
  - intros v. rewrite Hc. f_equal. cbn [node_to_grads].
    unfold contribs. destruct (decide (v = root)) as [->|Hne].
    + by rewrite lookup_singleton_eq.
    + by rewrite lookup_singleton_ne.
  - done.
  - rewrite Hc. cbn [node_to_grads]. unfold contribs at 1.
    rewrite lookup_singleton_eq. cbn [default].
    assert (concat (map (λ u, sent G st u root) order) = []) as ->;
      [|done].
    clear -Hwf Hreach. assert (∀ u, u ∈ order → u ≤ root) as Hle.
    { intros u Hu%Hreach. by eapply reachable_le. }
    clear Hreach. induction order as [|u order IH]; [done|].
    cbn [map concat]. rewrite sent_later by (done || apply Hle; by left).
    apply IH. intros w Hw. apply Hle. by right.
Qed.

Lemma make_from_op_inv (G G' : list (Tensor R)) (o : Op R)
    (ins : list nat) (id : nat) :
  make_from_op G o ins = Ok (G', id) →
  ∃ vals val,
    mapM (realized G) ins = Ok vals ∧ compute o vals = Ok val ∧
    G' = G ++ [mkTensor (Some o) ins val true] ∧ id = length G.
Proof.
  unfold make_from_op. intros Hm.
  apply bind_Ok_inv in Hm as (vals & Hvals & Hm).
  apply bind_Ok_inv in Hm as (val & Hval & Hm).
  injection Hm as <- <-. by exists vals, val.
Qed.

Lemma mapM_realized_cons (G : list (Tensor R)) (i : nat) (ins : list nat)
    (vals : list (NDArray R)) :
  mapM (realized G) (i :: ins) = Ok vals →
  ∃ t vals', G !! i = Some t ∧ mapM (realized G) ins = Ok vals' ∧
             vals = cached_value t :: vals'.
Proof.
  intros Hm. simpl in Hm.
  apply bind_Ok_inv in Hm as (x & Hx & Hm).
  apply bind_Ok_inv in Hm as (vals' & Hvals' & Hm).
  injection Hm as <-. unfold realized in Hx.
  destruct (G !! i) as [t|]; [|done]. injection Hx as <-.
  by exists t, vals'.
Qed.

(** The order of the pass from a node of two inputs [x] and [y]: the
    node, then what the traversal found from [y] and not from [x], then
    what it found from [x]. *)
Lemma find_topo_sort_pair (G : list (Tensor R)) (r x y : nat)
    (t : Tensor R) (order : list nat) :
  wf_graph G → G !! r = Some t → inputs t = [x; y] →
  find_topo_sort G r = Ok order →
  ∃ px ey, order = r :: reverse ey ++ reverse px ∧
           x ∈ px ∧ Forall (λ u, reachable G x u) px ∧
           y ∈ px ++ ey ∧ Forall (λ u, reachable G y u) ey.
Proof.
  intros Hwf Ht Hin. unfold find_topo_sort. intros Ho.
  apply bind_Ok_inv in Ho as (post & Hpost & Ho). injection Ho as <-.
  destruct (length G) as [|fuel]; [done|].
  rewrite topo_sort_dfs_S in Hpost.
  rewrite bool_decide_false in Hpost by apply not_elem_of_nil.
  rewrite Ht, Hin in Hpost.
  apply bind_Ok_inv in Hpost as (p2 & Hp2 & Hpost). injection Hpost as <-.
  rewrite !foldlM_cons in Hp2.
  apply bind_Ok_inv in Hp2 as (px & Hpx & Hp2).
  apply bind_Ok_inv in Hp2 as (p2' & Hpy & Hp2). injection Hp2 as <-.
  apply topo_sort_dfs_extends in Hpx as (ex & -> & Hex & Hxin & _ & _);
    [|done].
  apply topo_sort_dfs_extends in Hpy as (ey & -> & Hey & Hyin & _ & _);
    [|done].
  exists ex, ey. cbn [app] in *. split_and!.
  - by rewrite !reverse_app.
  - done.
  - eapply Forall_impl; [exact Hex|]. by intros u [_ ?].
  - done.
  - eapply Forall_impl; [exact Hey|]. by intros u [_ ?].
Qed.

Lemma sent_eq (G : list (Tensor R)) (st : BackwardState R) (u v : nat)
    (t : Tensor R) (o : Op R) (s : NDArray R) (vals gs : list (NDArray R)) :
  G !! u = Some t → operator t = Some o → grad st !! u = Some s →
  mapM (realized G) (inputs t) = Ok vals → gradient o s vals = Ok gs →
  sent G st u v = map snd (filter (λ p, p.1 = v) (zip (inputs t) gs)).
Proof.
  intros Ht Ho Hs Hvals Hgs. unfold sent.
  by rewrite Ht, Ho, Hs, Hvals, Hgs.
Qed.

(** The [grad] of a node that the pass reached is the sum of its list. *)
Lemma backward_grad_sum (G : list (Tensor R)) (root : nat)
    (out_grad : NDArray R) (st : BackwardState R) (v : nat)
    (l : list (NDArray R)) :
  wf_graph G → arity_ok G → root < length G →
  compute_gradient_of_variables G root out_grad = Ok st →
  reachable G root v → contribs (node_to_grads st) v = l →
  ∃ s, grad st !! v = Some s ∧ sum_node_list l = Ok s.
Proof.
  intros Hwf Har Hroot Hrun Hv <-.
  destruct (backward_accumulates G root out_grad st Hwf Har Hroot Hrun)
    as (order & _ & _ & _ & Hall).
  by destruct (Hall v Hv) as (_ & _ & Hs).
Qed.

(** A pass from an operator node that takes [v] in one input slot, when
    no other node that the pass reaches takes [v]: the list of [v] holds
    the one gradient that the operator returns for that slot, and this
    is the [grad] of [v]. *)
Lemma pass_single_consumer (G : list (Tensor R)) (root v : nat) (o : Op R)
    (ins : list nat) (val og : NDArray R) (st : BackwardState R) :
  wf_graph G → arity_ok G →
  G !! root = Some (mkTensor (Some o) ins val true) →
  length (filter (λ i, i = v) ins) = 1 →
  (∀ u t, reachable G root u → u ≠ root → G !! u = Some t →
          v ∉ inputs t) →
  compute_gradient_of_variables G root og = Ok st →
  ∃ vals gs cv,
    mapM (realized G) ins = Ok vals ∧ gradient o og vals = Ok gs ∧
    map snd (filter (λ p, p.1 = v) (zip ins gs)) = [cv] ∧
    contribs (node_to_grads st) v = [cv] ∧ grad st !! v = Some cv.
Proof.
  intros Hwf Har Hroot Hv Hother Hrun.
  pose proof (lookup_lt_Some _ _ _ Hroot) as Hlt.
  destruct (backward_sent G root og st Hwf Hlt Hrun)
    as (order & Hord & Hnd & Hreach & _ & Hc & Hop & Hrc).
  destruct (backward_grad_sum G root og st root [og] Hwf Har Hlt Hrun)
    as (s & Hs & Hsum); [constructor|done|].
  injection Hsum as <-.
  destruct (Hop root _ o (proj2 (Hreach root) (reachable_refl _ _))
              Hroot eq_refl) as (s' & vals & gs & Hs' & Hvals & Hgs).
  rewrite Hs in Hs'. injection Hs' as <-. cbn [inputs] in Hvals.
  assert (v ∈ ins) as Hin.
  { destruct (filter (λ i, i = v) ins) as [|i l] eqn:E; [done|].
    assert (i ∈ filter (λ i, i = v) ins) as Hi by (rewrite E; by left).
    by apply list_elem_of_filter in Hi as [-> ?]. }
  assert (v ≠ root) as Hne.
  { pose proof (Hwf root _ Hroot) as Hins. cbn [inputs] in Hins.
    rewrite Forall_forall in Hins. apply Hins in Hin. lia. }
  assert (∃ cv, map snd (filter (λ p, p.1 = v) (zip ins gs)) = [cv])
    as [cv Hcv].
  { assert (length (map snd (filter (λ p, p.1 = v) (zip ins gs))) = 1)
      as Hlen.
    { rewrite length_map, filter_zip_fst; [done|].
      rewrite (gradient_length _ _ _ _ Hgs). symmetry.
      by apply (Har root _ o Hroot). }
    destruct (map snd _) as [|cv [|? ?]]; try done. by exists cv. }
  assert (contribs (node_to_grads st) v = [cv]) as Hcontribs.
  { rewrite Hc, decide_False by done. cbn [app].
    rewrite (concat_map_single _ order root); [|done| |].
    - by rewrite (sent_eq G st root v _ o og vals gs Hroot eq_refl Hs
                    Hvals Hgs).
    - apply Hreach. constructor.
    - intros u Hu%Hreach Hur. apply sent_not_input.
      intros t Ht. by apply (Hother u t). }
  exists vals, gs, cv. split_and!; try done.
  destruct (backward_grad_sum G root og st v [cv] Hwf Har Hlt Hrun)
    as (s & Hs' & Hsum); [|done|by injection Hsum as <-].
  by eapply reachable_step; [done|done|constructor].
Qed.

Section Diamond.
Variables (G0 : list (Tensor R)) (v : nat).
Variables (f g : Op R) (ins_f ins_g : list nat) (a b c : NDArray R).

(** The arena [G0] extended with the nodes [f(...)], [g(...)] and their
    sum [h], of values [a], [b] and [c]. *)
Definition diamond_graph : list (Tensor R) :=
  G0 ++ [mkTensor (Some f) ins_f a true;
         mkTensor (Some g) ins_g b true;
         mkTensor (Some EWiseAdd) [length G0; S (length G0)] c true].

Hypothesis Hwf : wf_graph diamond_graph.
Hypothesis Har : arity_ok diamond_graph.
Hypothesis Hing : Forall (λ i, i < length G0) ins_g.
Hypothesis Hvf : length (filter (λ i, i = v) ins_f) = 1.
Hypothesis Hvg : length (filter (λ i, i = v) ins_g) = 1.
Hypothesis Hother :
  ∀ u t, reachable diamond_graph (S (S (length G0))) u →
         G0 !! u = Some t → v ∉ inputs t.
Hypothesis Hsb : shape b = shape a.
Hypothesis Hsc : shape c = shape a.

Lemma diamond_graph_lookup :
  diamond_graph !! length G0 = Some (mkTensor (Some f) ins_f a true) ∧
  diamond_graph !! S (length G0) = Some (mkTensor (Some g) ins_g b true) ∧
  diamond_graph !! S (S (length G0))
    = Some (mkTensor (Some EWiseAdd) [length G0; S (length G0)] c true) ∧
  length diamond_graph = S (S (S (length G0))) ∧
  ∀ u, u < length G0 → diamond_graph !! u = G0 !! u.
Proof.
  clear. unfold diamond_graph. split_and!.
  - rewrite lookup_app_r by lia. by rewrite Nat.sub_diag.
  - rewrite lookup_app_r by lia.
    by replace (S (length G0) - length G0) with 1 by lia.
  - rewrite lookup_app_r by lia.
    by replace (S (S (length G0)) - length G0) with 2 by lia.
  - rewrite length_app. simpl. lia.
  - intros u Hu. by rewrite lookup_app_l.
Qed.

Lemma diamond_ins_f : Forall (λ i, i < length G0) ins_f.
Proof using Hwf.
  clear -Hwf. destruct diamond_graph_lookup as (Hf & _).
  exact (Hwf _ _ Hf).
Qed.

Lemma diamond_v_lt : v < length G0.
Proof using Hwf Hvf.
  clear -Hwf Hvf. pose proof diamond_ins_f as Hins.
  rewrite Forall_forall in Hins.
  apply Hins.
  destruct (filter (λ i, i = v) ins_f) as [|i l] eqn:E; [done|].
  assert (i ∈ filter (λ i, i = v) ins_f) as Hi by (rewrite E; by left).
  by apply list_elem_of_filter in Hi as [-> ?].
Qed.

(** From [f(...)] and from [g(...)] only nodes of [G0] are reached. *)
Lemma diamond_reach_f (u : nat) :
  reachable diamond_graph (length G0) u → u ≠ length G0 → u < length G0.
Proof using Hwf.
  clear -Hwf. intros Hu Hne. pose proof (reachable_le _ _ _ Hwf Hu). lia.
Qed.

Lemma diamond_reach_g (u : nat) :
  reachable diamond_graph (S (length G0)) u → u ≠ S (length G0) →
  u < length G0.
Proof using Hwf Hing.
  clear -Hwf Hing. destruct diamond_graph_lookup as (_ & Hg & _).
  intros Hu Hne. inversion Hu as [|? t w ? Ht Hw Hwu]; subst; [done|].
  rewrite Hg in Ht. injection Ht as <-. cbn [inputs] in Hw.
  rewrite Forall_forall in Hing. apply Hing in Hw.
  pose proof (reachable_le _ _ _ Hwf Hwu). lia.
Qed.

Lemma diamond_reach_h (r u : nat) :
  r = length G0 ∨ r = S (length G0) →
  reachable diamond_graph r u →
  reachable diamond_graph (S (S (length G0))) u.
Proof.
  clear. destruct diamond_graph_lookup as (_ & _ & Hh & _).
  intros Hr Hu. eapply reachable_step; [exact Hh| |exact Hu].
  cbn [inputs]. destruct Hr as [-> | ->]; set_solver.
Qed.

(** The passes from [f(...)] and from [g(...)]. *)
Lemma diamond_pass_side (root : nat) (o : Op R) (ins : list nat)
    (val og : NDArray R) (st : BackwardState R) :
  root = length G0 ∨ root = S (length G0) →
  diamond_graph !! root = Some (mkTensor (Some o) ins val true) →
  length (filter (λ i, i = v) ins) = 1 →
  compute_gradient_of_variables diamond_graph root og = Ok st →
  ∃ vals gs cv,
    mapM (realized diamond_graph) ins = Ok vals ∧
    gradient o og vals = Ok gs ∧
    map snd (filter (λ p, p.1 = v) (zip ins gs)) = [cv] ∧
    contribs (node_to_grads st) v = [cv] ∧ grad st !! v = Some cv.
Proof using Hwf Har Hing Hother.
  clear Hvf Hvg Hsb Hsc. intros Hr Hroot Hv Hrun.
  destruct diamond_graph_lookup as (_ & _ & _ & _ & Hold).
  apply (pass_single_consumer diamond_graph root v o ins val og st);
    try done.
  intros u t Hu Hne Ht.
  assert (u < length G0) as Hlt.
  { destruct Hr as [-> | ->];
      [by apply diamond_reach_f | by apply diamond_reach_g]. }
  rewrite Hold in Ht by done.
  apply (Hother u t); [|done]. by apply (diamond_reach_h root).
Qed.

(** The pass from [h], given what the gradient calls of [f] and [g]
    return for the seed of ones. *)
Lemma diamond_pass_h (st_h : BackwardState R)
    (vals_f vals_g gs_f gs_g : list (NDArray R)) (cf cg : NDArray R) :
  mapM (realized diamond_graph) ins_f = Ok vals_f →
  gradient f (np_ones (shape a)) vals_f = Ok gs_f →
  map snd (filter (λ p, p.1 = v) (zip ins_f gs_f)) = [cf] →
  mapM (realized diamond_graph) ins_g = Ok vals_g →
  gradient g (np_ones (shape b)) vals_g = Ok gs_g →
  map snd (filter (λ p, p.1 = v) (zip ins_g gs_g)) = [cg] →
  compute_gradient_of_variables diamond_graph (S (S (length G0)))
    (np_ones (shape c)) = Ok st_h →
  contribs (node_to_grads st_h) v = [cg; cf] ∧
  ∃ s, grad st_h !! v = Some s ∧ add cg cf = Ok s.
Proof using All.
  intros Hvals_f Hgs_f Hcf Hvals_g Hgs_g Hcg Hrun.
  destruct diamond_graph_lookup as (Hf & Hg & Hh & Hlen & Hold).
  pose proof diamond_v_lt as Hv.
  pose proof diamond_ins_f as Hinf.
  set (n := length G0) in *. set (G := diamond_graph) in *.
  set (o1 := np_ones (shape c)) in *.
  assert (S (S n) < length G) as Hlt by lia.
  destruct (backward_sent G (S (S n)) o1 st_h Hwf Hlt Hrun)
    as (order & Hord & Hnd & Hreach & _ & Hc & Hop & Hrc).
  destruct (find_topo_sort_pair G (S (S n)) n (S n) _ order Hwf Hh eq_refl
              Hord) as (px & ey & -> & Hnpx & Hpx & Hsn & Hey).
  assert (reachable G (S (S n)) n) as Hrn.
  { eapply reachable_step; [exact Hh|by left|constructor]. }
  assert (reachable G (S (S n)) (S n)) as Hrsn.
  { eapply reachable_step; [exact Hh|by right; left|constructor]. }
  assert (reachable G (S (S n)) v) as Hrv.
  { eapply reachable_trans; [exact Hrn|].
    eapply reachable_step; [exact Hf| |constructor]. cbn [inputs].
    destruct (filter (λ i, i = v) ins_f) as [|i l] eqn:E; [done|].
    assert (i ∈ filter (λ i, i = v) ins_f) as Hi by (rewrite E; by left).
    by apply list_elem_of_filter in Hi as [-> ?]. }
  (* the root *)
  destruct (backward_grad_sum G (S (S n)) o1 st_h (S (S n)) [o1]
              Hwf Har Hlt Hrun) as (s & Hgh & Hsum); [constructor|done|].
  injection Hsum as <-.
  destruct (Hop (S (S n)) _ EWiseAdd ltac:(by left) Hh eq_refl)
    as (s' & vals & gs & Hs' & Hvals & Hgs).
  rewrite Hgh in Hs'. injection Hs' as <-.
  cbn [inputs mapM] in Hvals. unfold realized in Hvals.
  rewrite Hf, Hg in Hvals. cbn in Hvals. injection Hvals as <-.
  cbn in Hgs. injection Hgs as <-.
  assert (∀ w, sent G st_h (S (S n)) w
               = map snd (filter (λ p, p.1 = w) [(n, o1); (S n, o1)]))
    as Hsent_h.
  { intros w.
    assert (mapM (realized G) [n; S n] = Ok [a; b]) as Hm.
    { cbn [mapM]. unfold realized. by rewrite Hf, Hg. }
    by rewrite (sent_eq G st_h (S (S n)) w _ EWiseAdd o1 [a; b] [o1; o1]
                  Hh eq_refl Hgh Hm eq_refl). }
  (* the two summands receive the seed *)
  assert (∀ w, w = n ∨ w = S n →
            (∀ u, u ∈ reverse ey ++ reverse px → sent G st_h u w = []) →
            grad st_h !! w = Some o1) as Hside.
  { intros w Hw Hnone.
    assert (contribs (node_to_grads st_h) w = [o1]) as Hcw.
    { rewrite Hc, decide_False by (destruct Hw; lia). cbn [app map concat].
      rewrite Hsent_h.
      assert (concat (map (λ u, sent G st_h u w)
                          (reverse ey ++ reverse px)) = []) as ->.
      { clear -Hnone. induction (reverse ey ++ reverse px) as [|u l IH];
          [done|]. cbn [map concat]. rewrite Hnone by by left.
        apply IH. intros u' Hu'. apply Hnone. by right. }
      rewrite app_nil_r, !filter_cons, filter_nil. cbn [fst].
      destruct Hw as [-> | ->].
      - rewrite decide_True by done. by rewrite decide_False by lia.
      - rewrite decide_False by lia. by rewrite decide_True by done. }
    destruct (backward_grad_sum G (S (S n)) o1 st_h w [o1]
                Hwf Har Hlt Hrun) as (s & Hs & Hsum);
      [by destruct Hw as [-> | ->]|done|].
    by injection Hsum as <-. }
  assert (∀ u, u ∈ reverse ey ++ reverse px → u ≤ S n) as Hle.
  { intros u Hu.
    assert (u ∈ S (S n) :: reverse ey ++ reverse px) as Hu' by by right.
    apply Hreach in Hu'. pose proof (reachable_le _ _ _ Hwf Hu').
    assert (u ≠ S (S n)); [|lia].
    intros ->. apply NoDup_cons in Hnd as [Hnot _]. done. }
  assert (grad st_h !! S n = Some o1) as Hgsn.
  { apply Hside; [by right|]. intros u Hu.
    apply sent_later; [done|]. by apply Hle. }
  assert (grad st_h !! n = Some o1) as Hgn.
  { apply Hside; [by left|]. intros u Hu.
    destruct (decide (u = S n)) as [->|Hne].
    - apply sent_not_input. intros t Ht. rewrite Hg in Ht.
      injection Ht as <-. cbn [inputs]. intros Hin.
      rewrite Forall_forall in Hing. apply Hing in Hin. lia.
    - apply sent_later; [done|]. apply Hle in Hu. lia. }
  (* what the two summands send to [v] *)
  assert (o1 = np_ones (shape a)) as Ho1a by (unfold o1; by rewrite Hsc).
  assert (sent G st_h n v = [cf]) as Hsf.
  { rewrite (sent_eq G st_h n v _ f o1 vals_f gs_f Hf eq_refl Hgn);
      [done|done|by rewrite Ho1a]. }
  assert (sent G st_h (S n) v = [cg]) as Hsg.
  { rewrite (sent_eq G st_h (S n) v _ g o1 vals_g gs_g Hg eq_refl Hgsn);
      [done|done|by rewrite Ho1a, <- Hsb]. }
  (* the list of [v] *)
  apply NoDup_cons in Hnd as [_ Hnd].
  apply NoDup_app in Hnd as (Hndy & Hdisj & Hndx).
  assert (∀ u, u ∈ px → u ≤ n) as Hpxle.
  { intros u Hu. rewrite Forall_forall in Hpx.
    eapply reachable_le; [done|]. by apply Hpx. }
  assert (S n ∈ ey) as Hsney.
  { apply elem_of_app in Hsn as [Hsn|Hsn]; [|done].
    apply Hpxle in Hsn. lia. }
  assert (contribs (node_to_grads st_h) v = [cg; cf]) as Hcv.
  { rewrite Hc, decide_False by lia. cbn [app map concat].
    rewrite Hsent_h, !filter_cons, filter_nil. cbn [fst].
    rewrite !decide_False by lia. cbn [map app].
    rewrite map_app, concat_app.
    rewrite (concat_map_single _ (reverse ey) (S n)); [|done| |].
    2:{ by apply elem_of_reverse. }
    2:{ intros u Hu Hne. rewrite elem_of_reverse in Hu.
        apply sent_not_input.
        intros t Ht.
        assert (reachable G (S n) u) as Hru
          by (rewrite Forall_forall in Hey; by apply Hey).
        assert (u < n) as Hun by by apply diamond_reach_g.
        rewrite Hold in Ht by done.
        apply (Hother u t); [|done].
        exact (reachable_trans _ _ _ _ Hrsn Hru). }
    rewrite (concat_map_single _ (reverse px) n); [|done| |].
    2:{ by apply elem_of_reverse. }
    2:{ intros u Hu Hne. rewrite elem_of_reverse in Hu.
        apply sent_not_input.
        intros t Ht.
        assert (reachable G n u) as Hru
          by (rewrite Forall_forall in Hpx; by apply Hpx).
        assert (u < n) as Hun by by apply diamond_reach_f.
        rewrite Hold in Ht by done.
        apply (Hother u t); [|done].
        exact (reachable_trans _ _ _ _ Hrn Hru). }
    by rewrite Hsf, Hsg. }
  split; [done|].
  destruct (backward_grad_sum G (S (S n)) o1 st_h v [cg; cf]
              Hwf Har Hlt Hrun) as (s & Hs & Hsum); [done|done|].
  exists s. split; [done|]. by apply sum_node_list_pair.
Qed.

End Diamond.

(** What [diamond_on] builds. *)
Lemma diamond_on_inv (G0 G : list (Tensor R)) (fv gv h : nat)
    (f g : Op R) (ins_f ins_g : list nat) :
  wf_graph G0 ∧ arity_ok G0 →
  diamond_on G0 f ins_f g ins_g = Ok (G, (fv, gv, h)) →
  ∃ a b c,
    np_add a b = Ok c ∧
    G = diamond_graph G0 f g ins_f ins_g a b c ∧
    fv = length G0 ∧ gv = S (length G0) ∧ h = S (S (length G0)) ∧
    wf_graph G ∧ arity_ok G.
Proof.
  unfold diamond_on. intros HG0 Hd.
  apply bind_Ok_inv in Hd as ([g2 fv'] & H1 & Hd).
  apply bind_Ok_inv in Hd as ([g3 gv'] & H2 & Hd).
  apply bind_Ok_inv in Hd as ([g4 h'] & H3 & Hd).
  injection Hd as <- <- <- <-.
  pose proof (make_from_op_wf _ _ _ _ _ HG0 H1) as HG2.
  pose proof (make_from_op_wf _ _ _ _ _ HG2 H2) as HG3.
  pose proof (make_from_op_wf _ _ _ _ _ HG3 H3) as [HG4 HA4].
  apply make_from_op_inv in H1 as (vals1 & a & Hv1 & Ha & -> & ->).
  apply make_from_op_inv in H2 as (vals2 & b & Hv2 & Hb & -> & ->).
  apply make_from_op_inv in H3 as (vals3 & c & Hv3 & Hc & -> & ->).
  apply mapM_realized_cons in Hv3 as (ta & ? & Hta & Hv3 & ->).
  apply mapM_realized_cons in Hv3 as (tb & ? & Htb & [= <-] & ->).
  rewrite lookup_app_l in Hta by (rewrite length_app; simpl; lia).
  rewrite lookup_app_r, Nat.sub_diag in Hta by lia.
  injection Hta as <-.
  rewrite lookup_app_r, Nat.sub_diag in Htb by lia.
  injection Htb as <-. simpl in Hc.
  assert ((G0 ++ [mkTensor (Some f) ins_f a true])
            ++ [mkTensor (Some g) ins_g b true]
          = G0 ++ [mkTensor (Some f) ins_f a true;
                   mkTensor (Some g) ins_g b true]) as E2
    by (by rewrite <- app_assoc).
  assert (length (G0 ++ [mkTensor (Some f) ins_f a true]) = S (length G0))
    as E1 by (rewrite length_app; simpl; lia).
  exists a, b, c. split_and!; try done.
  - unfold diamond_graph. rewrite <- !app_assoc. simpl. by rewrite E1.
  - rewrite E2, length_app. simpl. lia.
Qed.

Lemma broadcast_dim_comm (d1 d2 : nat) :
  broadcast_dim d1 d2 = broadcast_dim d2 d1.
Proof.
  unfold broadcast_dim.
  destruct (Nat.eqb_spec d1 d2) as [->|Hne].
  - by rewrite Nat.eqb_refl.
  - rewrite (proj2 (Nat.eqb_neq d2 d1)) by done.
    destruct (Nat.eqb_spec d1 1) as [->|H1]; [|done].
    by rewrite (proj2 (Nat.eqb_neq d2 1)) by done.
Qed.

Lemma broadcast_rev_comm (r1 r2 : list nat) :
  broadcast_rev r1 r2 = broadcast_rev r2 r1.
Proof.
  revert r2. induction r1 as [|d1 r1 IH]; intros [|d2 r2]; simpl; try done.
  by rewrite broadcast_dim_comm, IH.
Qed.

Lemma np_binop_comm (op : R → R → R) (a b : NDArray R) :
  (∀ p q, op p q = op q p) → np_binop op a b = np_binop op b a.
Proof.
  intros Hcomm. unfold np_binop, broadcast_shapes.
  rewrite (broadcast_rev_comm (reverse (shape a))).
  destruct (broadcast_rev _ _) as [r|e]; simpl; [|done].
  unfold np_broadcast_to.
  destruct (broadcastable_to (shape a) _), (broadcastable_to (shape b) _);
    simpl; try done.
  do 2 f_equal. rewrite <- zip_with_flip.
  apply zip_with_ext; [|done..]. intros p q. apply Hcomm.
Qed.


End Accumulation.

(** The graph of [h = (v * w) + (v + 3)] for [v = [1, 2]] and
    [w = [5, 7]] over the rationals: nodes [v], [w], [v * w], [v + 3]
    and [h], in this order. *)
Definition witness_x : NDArray Qc := mkArr [2] [Q2Qc 1; Q2Qc 2].

Definition witness_w : NDArray Qc := mkArr [2] [Q2Qc 5; Q2Qc 7].

Definition witness_arena : list (Tensor Qc) :=
  [mkTensor None [] witness_x true; mkTensor None [] witness_w true].

Definition witness_graph : list (Tensor Qc) :=
  witness_arena ++
  [mkTensor (Some EWiseMul) [0; 1]
            (mkArr [2] (zip_with s_mul (data witness_x) (data witness_w)))
            true;
   mkTensor (Some (AddScalar (Q2Qc 3))) [0]
            (np_map (λ v, s_add v (Q2Qc 3)) witness_x) true;
   mkTensor (Some EWiseAdd) [2; 3]
            (mkArr [2]
               (zip_with s_add
                  (zip_with s_mul (data witness_x) (data witness_w))
                  (data (np_map (λ v, s_add v (Q2Qc 3)) witness_x))))
            true].

Lemma witness_arena_wf : wf_graph witness_arena ∧ arity_ok witness_arena.
Proof.
  split.
  - intros i t Hi.
    destruct i as [|[|i]]; simpl in Hi; simplify_eq; simpl;
      repeat constructor.
  - intros i t o Hi Ho.
    destruct i as [|[|i]]; simpl in Hi; simplify_eq; simpl in *;
      by simplify_eq.
Qed.

Lemma witness_graph_wf : wf_graph witness_graph ∧ arity_ok witness_graph.
Proof.
  split.
  - intros i t Hi.
    destruct i as [|[|[|[|[|i]]]]]; simpl in Hi; simplify_eq; simpl;
      repeat constructor.
  - intros i t o Hi Ho.
    destruct i as [|[|[|[|[|i]]]]]; simpl in Hi; simplify_eq; simpl in *;
      by simplify_eq.
Qed.


(** ** Summation and MatMul at the inputs where the code departs from
       the claims *)

(** ** The shape [Summation.gradient] reshapes the incoming gradient to *)

(** [shape] with the entries at the positions [pos] set to 1. *)
Definition ones_at (pos : list nat) (s : list nat) : list nat :=
  foldl (λ acc p, <[p := 1]> acc) s pos.

Lemma length_ones_at (pos s : list nat) : length (ones_at pos s) = length s.
Proof.
  unfold ones_at. revert s. induction pos as [|p pos IH]; intros s; [done|].
  simpl. by rewrite IH, length_insert.
Qed.

Lemma lookup_ones_at (pos s : list nat) (k d : nat) :
  s !! k = Some d →
  ones_at pos s !! k = Some (if bool_decide (k ∈ pos) then 1 else d).
Proof.
  unfold ones_at. revert s d.
  induction pos as [|p pos IH]; intros s d Hk; cbn [foldl].
  - by rewrite bool_decide_false by apply not_elem_of_nil.
  - destruct (decide (k = p)) as [->|Hne].
    + rewrite (IH _ 1).
      * rewrite (bool_decide_true (p ∈ p :: pos))
          by (apply elem_of_cons; by left).
        by destruct (bool_decide (p ∈ pos)).
      * apply list_lookup_insert_eq. by apply lookup_lt_Some in Hk.
    + rewrite (IH _ d) by by rewrite list_lookup_insert_ne.
      f_equal. rewrite (bool_decide_ext (k ∈ p :: pos) (k ∈ pos)); [done|].
      rewrite elem_of_cons. split; [by intros [?|?] | by right].
Qed.

Lemma norm_axis_index (n : nat) (d : Z) (p : nat) :
  norm_axis n d = Ok p → norm_index n d = Ok p.
Proof.
  unfold norm_axis, norm_index.
  by repeat case_bool_decide.
Qed.

(** The loop [for dim in self.axes: sum_shape[dim] = 1], for axes that
    [numpy.sum] accepts. *)
Lemma Summation_sum_shape_loop (l : list Z) (pos s : list nat) :
  mapM (norm_axis (length s)) l = Ok pos →
  foldlM (λ sum_shape d, py_setitem sum_shape d 1) s l = Ok (ones_at pos s).
Proof.
  revert pos s. induction l as [|d l IH]; intros pos s Hpos.
  - simpl in Hpos. by injection Hpos as <-.
  - simpl in Hpos. apply bind_Ok_inv in Hpos as (p & Hp & Hpos).
    apply bind_Ok_inv in Hpos as (pos' & Hpos' & Hpos).
    injection Hpos as <-.
    assert (py_setitem s d 1 = Ok (<[p := 1]> s)) as Hset.
    { unfold py_setitem. by rewrite (norm_axis_index _ _ _ Hp). }
    rewrite foldlM_cons, Hset, bind_Ok.
    rewrite (IH pos'); [done|]. by rewrite length_insert.
Qed.

(** A shape that agrees with [s] except for axes of size 1 broadcasts
    to [s]. *)
Lemma broadcast_rev_ones (r' r : list nat) :
  Forall2 (λ d' d, d' = d ∨ d' = 1) r' r → broadcast_rev r' r = Ok r.
Proof.
  induction 1 as [|d' d r' r Hd _ IH]; [done|].
  simpl. rewrite IH.
  assert (broadcast_dim d' d = Ok d) as ->; [|done].
  unfold broadcast_dim. destruct (Nat.eqb_spec d' d) as [->|?]; [done|].
  destruct Hd as [?| ->]; done.
Qed.

Lemma broadcast_shapes_ones (s' s : list nat) :
  Forall2 (λ d' d, d' = d ∨ d' = 1) s' s → broadcast_shapes s' s = Ok s.
Proof.
  intros Hs. unfold broadcast_shapes.
  rewrite (broadcast_rev_ones _ _ (Forall2_reverse _ _ _ Hs)). simpl.
  by rewrite reverse_involutive.
Qed.

Lemma broadcastable_to_ones (s' s : list nat) :
  Forall2 (λ d' d, d' = d ∨ d' = 1) s' s → broadcastable_to s' s = true.
Proof.
  intros Hs. unfold broadcastable_to.
  rewrite (Forall2_length _ _ _ Hs), Nat.sub_diag, drop_0.
  rewrite bool_decide_true by done. simpl.
  induction Hs as [|d' d s' s Hd _ IH]; [done|].
  simpl. rewrite IH, andb_true_r.
  destruct Hd as [->| ->]; [by rewrite Nat.eqb_refl | apply orb_true_r].
Qed.

Section Departures.
Context {R : Type} `{Scalar R}.

(** For [axes=None] and for a non-empty tuple of axes that the forward
    pass accepts, [Summation.gradient] returns a gradient of the shape of
    the input. *)
Lemma Summation_gradient_shape_of_input (axes : option (list Z))
    (x y out_grad : NDArray R) :
  axes ≠ Some [] →
  summation x (match axes with Some l => AxesTuple l | None => AxesNone end)
    = Ok y →
  shape out_grad = shape y →
  ∃ g, gradient (Summation axes) out_grad [x] = Ok [g] ∧
       shape g = shape x.
Proof.
  intros Hne Hy Hog.
  assert (np_sum x axes = Ok y) as Hsum by by destruct axes.
  clear Hy. unfold np_sum in Hsum.
  apply bind_Ok_inv in Hsum as (pos & Hpos & Hy).
  injection Hy as <-. simpl in Hog.
  assert (∃ sum_shape,
    match axes with
    | Some (dim :: dims) =>
        foldlM (λ sum_shape d, py_setitem sum_shape d 1)
               (shape x) (dim :: dims)
    | Some [] | None => Ok (replicate (length (shape x)) 1)
    end = Ok sum_shape ∧
    length sum_shape = length (shape x) ∧
    ∀ k d e, sum_shape !! k = Some d → shape x !! k = Some e →
      (k ∈ pos → d = 1) ∧ (k ∉ pos → d = e))
    as (sum_shape & Hloop & Hlen & Hk).
  { destruct axes as [[|dim dims]|]; [done| |].
    - unfold normalize_axes in Hpos.
      apply bind_Ok_inv in Hpos as (pos' & Hpos' & Hpos).
      case_bool_decide; [|done]. injection Hpos as <-.
      exists (ones_at pos' (shape x)). split_and!.
      + by apply Summation_sum_shape_loop.
      + apply length_ones_at.
      + intros k d e Hd He.
        rewrite (lookup_ones_at _ _ _ _ He) in Hd. injection Hd as <-.
        split; intros Hin.
        * by rewrite bool_decide_true.
        * by rewrite bool_decide_false.
    - injection Hpos as <-.
      exists (replicate (length (shape x)) 1). split_and!.
      + done.
      + apply length_replicate.
      + intros k d e [-> _]%lookup_replicate He.
        split; [done|]. intros Hnot. exfalso. apply Hnot.
        apply elem_of_seq. apply lookup_lt_Some in He. unfold rank. lia. }
  assert (numel sum_shape = numel (shape out_grad)) as Hnum.
  { rewrite Hog. symmetry. unfold drop_axes.
    apply numel_drop_axes_from; [done|].
    intros k d e Hd He. rewrite Nat.add_0_l. by apply Hk. }
  assert (Forall2 (λ d' d, d' = d ∨ d' = 1) sum_shape (shape x)) as Hones.
  { apply Forall2_same_length_lookup. split; [done|].
    intros k d e Hd He. destruct (Hk k d e Hd He) as [Hin Hout].
    destruct (decide (k ∈ pos)); [right; auto | left; auto]. }
  cbn [gradient Summation_gradient]. rewrite Hloop, bind_Ok.
  unfold reshape. cbn [compute]. unfold Reshape_compute, np_reshape.
  rewrite bool_decide_true by done. rewrite bind_Ok.
  unfold Tensor_mul_array, np_mul, np_binop. cbn [shape np_ones].
  rewrite (broadcast_shapes_ones _ _ Hones), bind_Ok.
  unfold np_broadcast_to. cbn [shape].
  rewrite (broadcastable_to_ones _ _ Hones), broadcastable_to_same.
  rewrite !bind_Ok. eexists. split; [done|]. done.
Qed.

(** C5 (the code departs from the claim).  For [axes=None] and for every
    non-empty tuple of axes that the forward pass accepts, the gradient
    of [Summation] has the shape of the input, as claimed.  But
    [Summation(axes=())] is a legal operator too: its forward pass
    reduces nothing and returns the input, so its gradient should be
    [out_grad], of the shape of the input.  [if self.axes:] takes the
    empty tuple for [None], the gradient reshapes [out_grad] to all-ones
    dimensions and, on an input with more than one element, raises
    [ValueError]. *)
Theorem Summation_gradient_empty_tuple :
  (∀ (axes : option (list Z)) (x y out_grad : NDArray R),
     axes ≠ Some [] →
     summation x (match axes with Some l => AxesTuple l | None => AxesNone end)
       = Ok y →
     shape out_grad = shape y →
     ∃ g, gradient (Summation axes) out_grad [x] = Ok [g] ∧
          shape g = shape x) ∧
  (∀ a b g1 g2 : R,
     let x := mkArr [2] [a; b] in
     let out_grad := mkArr [2] [g1; g2] in
     summation x (AxesTuple []) = Ok x ∧
     gradient (Summation_init (AxesTuple [])) out_grad [x] = Err ValueError).
Proof.
  split.
  - apply Summation_gradient_shape_of_input.
  - intros a b g1 g2. split; reflexivity.
Qed.

(** C6 (the code departs from the claim).  For matrices [A] of shape
    (n,m) and [B] of shape (m,p), in particular (2,3) and (3,4), the
    product has shape (n,p) and the gradient is
    [out_grad @ transpose(B)], [transpose(A) @ out_grad], of the shapes
    of [A] and [B].  But when a batch axis of size 1 is broadcast, as
    for [A] of shape (1,1,1) and [B] of shape (2,1,1), the gradient for
    [A] has as many axes as [A]: [range(len(dx.shape) - len(x.shape))]
    is empty, nothing is summed, and the gradient returned for [A] has
    shape (2,1,1), not (1,1,1). *)
Theorem MatMul_gradient_shapes :
  (∀ (n m p : nat) (da db dg : list R),
     let A := mkArr [n; m] da in
     let B := mkArr [m; p] db in
     let out_grad := mkArr [n; p] dg in
     ∃ C dA dB,
       matmul A B = Ok C ∧ shape C = [n; p] ∧
       gradient MatMul out_grad [A; B] = Ok [dA; dB] ∧
       (transpose B None ≫= λ tB, matmul out_grad tB) = Ok dA ∧
       (transpose A None ≫= λ tA, matmul tA out_grad) = Ok dB ∧
       shape dA = shape A ∧ shape dB = shape B) ∧
  (∃ C : NDArray R,
     matmul (mkArr [2; 3] (replicate 6 s_one))
            (mkArr [3; 4] (replicate 12 s_one)) = Ok C ∧
     shape C = [2; 4]) ∧
  (∀ a b1 b2 : R,
     let A := mkArr [1; 1; 1] [a] in
     let B := mkArr [2; 1; 1] [b1; b2] in
     ∃ C dA dB,
       matmul A B = Ok C ∧ shape C = [2; 1; 1] ∧
       gradient MatMul (np_ones (shape C)) [A; B] = Ok [dA; dB] ∧
       shape A = [1; 1; 1] ∧ shape dA = [2; 1; 1] ∧
       shape dB = shape B).
Proof.
  split_and!.
  - intros n m p da db dg A B out_grad.
    unfold matmul, transpose, gradient, MatMul_gradient, Tensor_matmul,
      matmul, transpose, compute, MatMul_compute, Transpose_compute,
      np_matmul, np_transpose. simpl.
    rewrite !Nat.eqb_refl. simpl.
    rewrite !bool_decide_false by (by intros []).
    eexists _, _, _. split_and!; reflexivity.
  - eexists. split; reflexivity.
  - intros a b1 b2 A B.
    eexists _, _, _. split_and!; reflexivity.
Qed.

End Departures.

(** Witness of [Summation_gradient_empty_tuple]: a (2,3) array of
    rationals summed over its last axis, given as [-1]. *)
Lemma Summation_gradient_empty_tuple_witness :
  let x := mkArr [2; 3] (map (λ z, Q2Qc (inject_Z z)) [1; 2; 3; 4; 5; 6]%Z) in
  let y := mkArr [2] (map (λ z, Q2Qc (inject_Z z)) [6; 15]%Z) in
  let out_grad : NDArray Qc := np_ones [2] in
  summation x (AxesTuple [(-1)%Z]) = Ok y ∧
  ∃ g, gradient (Summation (Some [(-1)%Z])) out_grad [x] = Ok [g] ∧
       shape g = shape x.
Proof.
  intros x y out_grad.
  assert (summation x (AxesTuple [(-1)%Z]) = Ok y) as Hy by reflexivity.
  split; [exact Hy|].
  exact (proj1 (@Summation_gradient_empty_tuple Qc Qc_scalar)
           (Some [(-1)%Z]) x y out_grad ltac:(discriminate) Hy eq_refl).
Defined.

(** [y = v * v]: one operation that consumes [v] in both of its input
    slots. *)
Definition square_graph : list (Tensor Qc) :=
  [mkTensor None [] witness_x true;
   mkTensor (Some EWiseMul) [0; 0]
            (mkArr [2] (zip_with s_mul (data witness_x) (data witness_x)))
            true].


(** * Further properties of the operators of [ops.py] *)

(** ** Elementwise operators *)

Section ElementwiseGradients.
Context {R : Type} `{Scalar R}.

(** Gradients that fit their inputs: one per input, each a well-formed
    array of the shape of that input. *)
Definition grads_fit (gs vals : list (NDArray R)) : Prop :=
  Forall2 (λ g v, wf g ∧ shape g = shape v) gs vals.

(** The operators of one input that work element by element. *)
Definition is_unary_elementwise (o : Op R) : bool :=
  match o with
  | AddScalar _ | MulScalar _ | DivScalar _ | Negate | Log | Exp | ReLU =>
      true
  | _ => false
  end.

Lemma np_binop_fit (f : R → R → R) (a b : NDArray R) :
  wf a → wf b → shape b = shape a →
  ∃ c, np_binop f a b = Ok c ∧ wf c ∧ shape c = shape a.
Proof.
  intros Ha Hb Hs. rewrite np_binop_same_shape by done.
  eexists. split; [done|]. split; [|done].
  unfold wf in *. simpl. rewrite length_zip_with, Hb, Hs, Ha. lia.
Qed.

(** X1.  [EWiseMul] on arrays of one shape: the forward pass is the
    elementwise product, the gradient is [out_grad * rhs] for the left
    input and [out_grad * lhs] for the right one. *)
Theorem EWiseMul_forward_and_gradient (lhs rhs out_grad : NDArray R) :
  wf lhs → wf rhs → wf out_grad →
  shape rhs = shape lhs → shape out_grad = shape lhs →
  multiply lhs rhs
    = Ok (mkArr (shape lhs) (zip_with s_mul (data lhs) (data rhs))) ∧
  gradient EWiseMul out_grad [lhs; rhs]
    = Ok [mkArr (shape lhs) (zip_with s_mul (data out_grad) (data rhs));
          mkArr (shape lhs) (zip_with s_mul (data out_grad) (data lhs))].
Proof.
  intros Hl Hr Hg Hsr Hsg. split.
  - unfold multiply, compute, EWiseMul_compute, np_mul.
    by rewrite np_binop_same_shape.
  - unfold gradient, EWiseMul_gradient, Tensor_mul, multiply, compute,
      EWiseMul_compute, np_mul.
    rewrite np_binop_same_shape; [|done|done|congruence]. simpl.
    rewrite np_binop_same_shape; [|done|done|congruence]. simpl.
    by rewrite Hsg.
Qed.

(** X2.  [Log] and [Exp]: for an incoming gradient of the shape of the input,
    the gradient of [Log] is [out_grad / x] and the gradient of [Exp] is
    [out_grad * exp(x)], element by element. *)
Theorem Log_Exp_gradient (x out_grad : NDArray R) :
  wf x → wf out_grad → shape out_grad = shape x →
  log x = Ok (mkArr (shape x) (map s_log (data x))) ∧
  exp x = Ok (mkArr (shape x) (map s_exp (data x))) ∧
  gradient Log out_grad [x]
    = Ok [mkArr (shape x) (zip_with s_div (data out_grad) (data x))] ∧
  gradient Exp out_grad [x]
    = Ok [mkArr (shape x)
            (zip_with (λ g v, s_mul g (s_exp v)) (data out_grad) (data x))].
Proof.
  intros Hx Hg Hs. split; [done|]. split; [done|]. split.
  - unfold gradient, Log_gradient, Tensor_truediv, divide, compute,
      EWiseDiv_compute, np_div.
    rewrite np_binop_same_shape; [|done|done|congruence]. simpl.
    by rewrite Hs.
  - unfold gradient, Exp_gradient, exp, Tensor_mul, multiply, compute,
      Exp_compute, EWiseMul_compute, np_mul, np_exp. simpl.
    rewrite np_binop_same_shape;
      [|done|by apply wf_np_map|simpl; congruence].
    simpl. by rewrite Hs, zip_with_fmap_r.
Qed.

Lemma unary_elementwise_fit (o : Op R) (x out_grad : NDArray R) :
  is_unary_elementwise o = true →
  wf x → wf out_grad → shape out_grad = shape x →
  ∃ y g, compute o [x] = Ok y ∧ wf y ∧ shape y = shape x ∧
         gradient o out_grad [x] = Ok [g] ∧ wf g ∧ shape g = shape x.
Proof.
  intros Ho Hx Hg Hs.
  assert (∀ (f : R → R → R) (b : NDArray R), wf b → shape b = shape x →
            ∃ c, np_binop f out_grad b = Ok c ∧ wf c ∧ shape c = shape x)
    as Hbin.
  { intros f b Hb Hsb.
    destruct (np_binop_fit f out_grad b) as (c & Hc & Hwc & Hsc);
      [done|done|congruence|].
    exists c. split_and!; [done|done|congruence]. }
  destruct o; try discriminate Ho; cbn [compute gradient].
  - (* AddScalar *)
    eexists _, _. split_and!; [done|by apply wf_np_map|done|done|done|done].
  - (* MulScalar *)
    eexists _, _.
    split_and!; [done|by apply wf_np_map|done|done|by apply wf_np_map|done].
  - (* DivScalar *)
    eexists _, _.
    split_and!; [done|by apply wf_np_map|done|done|by apply wf_np_map|done].
  - (* Negate *)
    eexists _, _.
    split_and!; [done|by apply wf_np_map|done|done|by apply wf_np_map|done].
  - (* Log *)
    destruct (Hbin s_div x Hx eq_refl) as (c & Hc & Hwc & Hsc).
    eexists _, c. split_and!; [done|by apply wf_np_map|done| |done|done].
    unfold Log_gradient, Tensor_truediv, divide, compute, EWiseDiv_compute,
      np_div. by rewrite Hc.
  - (* Exp *)
    destruct (Hbin s_mul (np_exp x) (wf_np_map _ _ Hx) eq_refl)
      as (c & Hc & Hwc & Hsc).
    eexists _, c. split_and!; [done|by apply wf_np_map|done| |done|done].
    unfold Exp_gradient, exp, Tensor_mul, multiply, compute, Exp_compute,
      EWiseMul_compute, np_mul. by rewrite bind_Ok, Hc.
  - (* ReLU *)
    destruct (Hbin s_mul (np_gt0_mask x) (wf_np_map _ _ Hx) eq_refl)
      as (c & Hc & Hwc & Hsc).
    eexists _, c. split_and!; [done|by apply wf_np_map|done| |done|done].
    unfold ReLU_gradient, Tensor_mul, multiply, compute, EWiseMul_compute,
      np_mul. by rewrite Hc.
Qed.

(** X3.  Shape correctness of the unary elementwise operators ([AddScalar],
    [MulScalar], [DivScalar], [Negate], [Log], [Exp], [ReLU]): the
    forward pass never raises and keeps the shape, and for an incoming
    gradient of that shape the gradient never raises and is one array of
    the shape of the input. *)
Theorem unary_elementwise_gradient_fits (o : Op R) (x out_grad : NDArray R) :
  is_unary_elementwise o = true →
  wf x → wf out_grad → shape out_grad = shape x →
  ∃ y g, compute o [x] = Ok y ∧ wf y ∧ shape y = shape x ∧
         gradient o out_grad [x] = Ok [g] ∧ wf g ∧ shape g = shape x.
Proof. apply unary_elementwise_fit. Qed.

End ElementwiseGradients.

Section ScalarRoundTrips.
Context {R : Type} `{Scalar R}.

(** X4.  [MulScalar] and [DivScalar] with one scalar [c] that can be divided
    by ([(v * c) / c = v]): dividing the product gives the input back,
    and so does sending a gradient through the two gradient rules, which
    are [out_grad * c] and [out_grad / c] whatever the input is. *)
Theorem MulScalar_DivScalar_round_trip (c : R) (x out_grad : NDArray R) :
  (∀ v : R, s_div (s_mul v c) c = v) →
  (mul_scalar x c ≫= λ y, divide_scalar y c) = Ok x ∧
  gradient (MulScalar c) out_grad [x]
    = Ok [mkArr (shape out_grad) (map (λ g, s_mul g c) (data out_grad))] ∧
  gradient (DivScalar c) out_grad [x]
    = Ok [mkArr (shape out_grad) (map (λ g, s_div g c) (data out_grad))] ∧
  (gradient (DivScalar c) out_grad [x] ≫= λ gs,
     foldlM (λ _ g, gradient (MulScalar c) g [x]) gs gs)
    = Ok [mkArr (shape out_grad)
            (map (λ g, s_mul (s_div g c) c) (data out_grad))] ∧
  (gradient (MulScalar c) out_grad [x] ≫= λ gs,
     foldlM (λ _ g, gradient (DivScalar c) g [x]) gs gs) = Ok [out_grad].
Proof.
  intros Hc.
  assert (∀ l : list R, map (λ v, s_div (s_mul v c) c) l = l) as Hl.
  { induction l as [|v l IH]; simpl; [done|]. by rewrite Hc, IH. }
  assert (∀ g, gradient (MulScalar c) g [x]
               = Ok [np_map (λ v, s_mul v c) g]) as HM by done.
  assert (∀ g, gradient (DivScalar c) g [x]
               = Ok [np_map (λ v, s_div v c) g]) as HD by done.
  split_and!.
  - unfold mul_scalar, divide_scalar, compute, MulScalar_compute,
      DivScalar_compute. rewrite bind_Ok. unfold np_map. cbn [shape data].
    rewrite map_map, Hl. by destruct x.
  - apply HM.
  - apply HD.
  - rewrite HD, bind_Ok, foldlM_cons, HM, bind_Ok. cbn [foldlM].
    unfold np_map. cbn [shape data]. by rewrite map_map.
  - rewrite HM, bind_Ok, foldlM_cons, HD, bind_Ok. cbn [foldlM].
    unfold np_map. cbn [shape data]. rewrite map_map, Hl. by destruct out_grad.
Qed.

(** X5.  [Negate] when negating twice is the identity on scalars: the forward
    pass is an involution, the gradient is the negated [out_grad]
    whatever the input is, and through two [Negate] nodes a gradient
    arrives unchanged. *)
Theorem Negate_involution (x out_grad : NDArray R) :
  (∀ v : R, s_neg (s_neg v) = v) →
  (negate x ≫= negate) = Ok x ∧
  gradient Negate out_grad [x]
    = Ok [mkArr (shape out_grad) (map s_neg (data out_grad))] ∧
  (gradient Negate out_grad [x] ≫= λ gs,
     foldlM (λ _ g, gradient Negate g [x]) gs gs) = Ok [out_grad].
Proof.
  intros Hn.
  assert (∀ l : list R, map s_neg (map s_neg l) = l) as Hl.
  { induction l as [|v l IH]; simpl; [done|]. by rewrite Hn, IH. }
  assert (∀ g, gradient Negate g [x] = Ok [np_map s_neg g]) as HN by done.
  split_and!.
  - unfold negate, compute, Negate_compute. rewrite bind_Ok.
    unfold np_negative, np_map. cbn [shape data]. rewrite Hl. by destruct x.
  - apply HN.
  - rewrite HN, bind_Ok, foldlM_cons, HN, bind_Ok. cbn [foldlM].
    unfold np_map. cbn [shape data]. rewrite Hl. by destruct out_grad.
Qed.

(** X6.  [EWiseAdd]: when the addition of scalars commutes, [add(a, b)] is
    [add(b, a)] for all arrays, including the cases where the shapes are
    broadcast against each other and where they do not fit and the call
    raises; on arrays of one shape it is the elementwise sum.  The
    gradient hands [out_grad] to both inputs unchanged, whatever their
    shapes. *)
Theorem EWiseAdd_commutes (a b out_grad : NDArray R) :
  (∀ p q : R, s_add p q = s_add q p) →
  add a b = add b a ∧
  (wf a → wf b → shape b = shape a →
   add a b = Ok (mkArr (shape a) (zip_with s_add (data a) (data b)))) ∧
  gradient EWiseAdd out_grad [a; b] = Ok [out_grad; out_grad].
Proof.
  intros Hcomm. split_and!; [|intros Ha Hb Hs|done].
  - unfold add, compute, EWiseAdd_compute, np_add. by apply np_binop_comm.
  - unfold add, compute, EWiseAdd_compute, np_add.
    by apply np_binop_same_shape.
Qed.

End ScalarRoundTrips.

(** Witnesses on arrays of rationals. *)

Definition qarr (s : list nat) (l : list Z) : NDArray Qc :=
  mkArr s (map (λ z, Q2Qc (inject_Z z)) l).

Lemma EWiseMul_forward_and_gradient_witness :
  let lhs := qarr [2; 2] [1; 2; 3; 4]%Z in
  let rhs := qarr [2; 2] [5; 6; 7; 8]%Z in
  let og := qarr [2; 2] [1; 0; 2; 1]%Z in
  multiply lhs rhs = Ok (qarr [2; 2] [5; 12; 21; 32]%Z) ∧
  gradient EWiseMul og [lhs; rhs]
    = Ok [qarr [2; 2] [5; 0; 14; 8]%Z; qarr [2; 2] [1; 0; 6; 4]%Z].
Proof.
  intros lhs rhs og.
  destruct (@EWiseMul_forward_and_gradient Qc Qc_scalar lhs rhs og
              eq_refl eq_refl eq_refl eq_refl eq_refl) as [Hf Hg].
  split; [rewrite Hf | rewrite Hg]; reflexivity.
Defined.

Lemma Log_Exp_gradient_witness :
  let x := qarr [3] [1; 2; 4]%Z in
  let og := qarr [3] [2; 2; 2]%Z in
  gradient Log og [x] = Ok [mkArr [3] (zip_with Qcdiv (data og) (data x))] ∧
  gradient Exp og [x] = Ok [qarr [3] [4; 6; 10]%Z].
Proof.
  intros x og.
  destruct (@Log_Exp_gradient Qc Qc_scalar x og eq_refl eq_refl eq_refl)
    as (_ & _ & Hl & He).
  split; [exact Hl | rewrite He; reflexivity].
Defined.

Lemma unary_elementwise_gradient_fits_witness :
  let x := qarr [2; 2] [1; -2; 0; 4]%Z in
  let og := qarr [2; 2] [1; 1; 1; 1]%Z in
  ∃ y g, compute ReLU [x] = Ok y ∧ wf y ∧ shape y = [2; 2] ∧
         gradient ReLU og [x] = Ok [g] ∧ wf g ∧ shape g = [2; 2].
Proof.
  intros x og.
  exact (@unary_elementwise_gradient_fits Qc Qc_scalar ReLU x og
           eq_refl eq_refl eq_refl eq_refl).
Defined.

Lemma Qc_div_mul_cancel (c v : Qc) : c ≠ Q2Qc 0 → s_div (s_mul v c) c = v.
Proof.
  intros Hc. simpl. unfold Qcdiv.
  by rewrite <- Qcmult_assoc, Qcmult_inv_r, Qcmult_1_r.
Qed.

Lemma MulScalar_DivScalar_round_trip_witness :
  let c := Q2Qc (inject_Z 2) in
  let x := qarr [3] [1; 2; 3]%Z in
  let og := qarr [3] [4; 5; 6]%Z in
  (mul_scalar x c ≫= λ y, divide_scalar y c) = Ok x ∧
  (gradient (MulScalar c) og [x] ≫= λ gs,
     foldlM (λ _ g, gradient (DivScalar c) g [x]) gs gs) = Ok [og].
Proof.
  intros c x og.
  assert (c ≠ Q2Qc 0) as Hc by (apply Qc_nonzero; discriminate).
  destruct (@MulScalar_DivScalar_round_trip Qc Qc_scalar c x og
              (λ v, Qc_div_mul_cancel c v Hc)) as (Hf & _ & _ & _ & Hg).
  exact (conj Hf Hg).
Defined.

Lemma Negate_involution_witness :
  let x := qarr [3] [1; -2; 3]%Z in
  let og := qarr [3] [4; 5; 6]%Z in
  (negate x ≫= negate) = Ok x ∧
  (gradient Negate og [x] ≫= λ gs,
     foldlM (λ _ g, gradient Negate g [x]) gs gs) = Ok [og].
Proof.
  intros x og.
  destruct (@Negate_involution Qc Qc_scalar x og Qcopp_involutive)
    as (Hf & _ & Hg).
  exact (conj Hf Hg).
Defined.

Lemma EWiseAdd_commutes_witness :
  let a := qarr [2; 1] [1; 2]%Z in
  let b := qarr [3] [10; 20; 30]%Z in
  add a b = add b a ∧
  add a b = Ok (qarr [2; 3] [11; 21; 31; 12; 22; 32]%Z).
Proof.
  intros a b.
  destruct (@EWiseAdd_commutes Qc Qc_scalar a b a Qcplus_comm) as (Hc & _).
  split; [exact Hc | reflexivity].
Defined.

(** ** Transpose: the axes that [compute] accepts *)

Lemma norm_index_invalid (n : nat) (i : Z) :
  ¬ valid_index n i → norm_index n i = Err IndexError.
Proof.
  unfold valid_index, norm_index. intros Hi.
  by rewrite !bool_decide_false by lia.
Qed.

Lemma py_getitem_seq (n : nat) (i : Z) :
  valid_index n i → py_getitem (seq 0 n) i = Ok (py_pos n i).
Proof.
  intros Hi. destruct (norm_index_valid n i Hi) as [E Hlt].
  unfold py_getitem. rewrite length_seq, E. simpl.
  by rewrite lookup_seq_lt.
Qed.

Lemma py_swap_invalid (n : nat) (i j : Z) :
  ¬ (valid_index n i ∧ valid_index n j) →
  py_swap (seq 0 n) i j = Err IndexError.
Proof.
  intros Hij. unfold py_swap.
  destruct (decide (valid_index n j)) as [Hj|Hj].
  - rewrite (py_getitem_seq _ _ Hj). simpl.
    assert (¬ valid_index n i) as Hi by tauto.
    unfold py_getitem. by rewrite length_seq, (norm_index_invalid _ _ Hi).
  - unfold py_getitem.
    by rewrite length_seq, (norm_index_invalid _ _ Hj).
Qed.

Lemma Transpose_axes_invalid (n : nat) (axes : option (list Z)) :
  ¬ valid_axes n axes → Transpose_axes axes n = Err IndexError.
Proof.
  destruct axes as [[|a0 [|a1 rest]]|]; cbn [valid_axes]; intros Hv.
  - done.
  - done.
  - rewrite Transpose_axes_pair. by apply py_swap_invalid.
  - apply py_swap_invalid. unfold valid_index. lia.
Qed.

Lemma transp_comm (a b m : nat) : transp a b m = transp b a m.
Proof.
  unfold transp.
  destruct (Nat.eqb_spec m a), (Nat.eqb_spec m b); congruence.
Qed.

Lemma swap_axes_comm (n a b : nat) : swap_axes n a b = swap_axes n b a.
Proof.
  unfold swap_axes. apply map_ext. intros m. apply transp_comm.
Qed.

Lemma swap_axes_same (n a : nat) : swap_axes n a a = seq 0 n.
Proof.
  unfold swap_axes. transitivity (map id (seq 0 n)); [|apply map_id].
  apply map_ext. intros m. unfold transp.
  by destruct (Nat.eqb_spec m a).
Qed.

Lemma gather_seq (l : list nat) : gather l (seq 0 (length l)) = l.
Proof.
  unfold gather. apply list_eq. intros i.
  rewrite list_lookup_fmap.
  destruct (decide (i < length l)) as [Hi|Hi].
  - rewrite lookup_seq_lt by done. simpl.
    destruct (lookup_lt_is_Some_2 l i Hi) as [x Hx].
    by rewrite (nth_lookup_Some _ _ _ _ Hx).
  - rewrite lookup_seq_ge by lia. simpl.
    symmetry. apply lookup_ge_None. lia.
Qed.

Section TransposeAxes.
Context {R : Type} `{Scalar R}.

(** X7.  [Transpose] raises [IndexError] on every axes argument that is not a
    valid pair: with [axes] omitted on an array of fewer than two
    dimensions (where [numpy.transpose] itself would return the array), on
    a tuple of fewer than two entries, and on an entry outside
    [-rank .. rank-1].  The gradient, which transposes [out_grad] with
    the same argument, raises too. *)
Theorem Transpose_raises_IndexError (x out_grad : NDArray R)
    (axes : option (list Z)) :
  ¬ valid_axes (rank x) axes →
  transpose x axes = Err IndexError ∧
  (rank out_grad = rank x →
   gradient (Transpose axes) out_grad [x] = Err IndexError).
Proof.
  intros Hv. split.
  - unfold transpose, compute, Transpose_compute.
    by rewrite (Transpose_axes_invalid _ _ Hv).
  - intros Hr. unfold gradient, Transpose_gradient, transpose, compute,
      Transpose_compute.
    rewrite Hr. by rewrite (Transpose_axes_invalid _ _ Hv).
Qed.

(** X8.  [Transpose] exchanges two axes and nothing else: of a longer tuple
    only the first two entries count (it is not [numpy.transpose]'s
    permutation), the order of the two does not matter, also not for the
    exception raised, and a pair of equal valid axes leaves the array as
    it is. *)
Theorem Transpose_uses_first_two_axes (x : NDArray R) (a0 a1 : Z)
    (rest : list Z) :
  transpose x (Some (a0 :: a1 :: rest)) = transpose x (Some [a0; a1]) ∧
  transpose x (Some [a0; a1]) = transpose x (Some [a1; a0]) ∧
  (wf x → valid_index (rank x) a0 → transpose x (Some [a0; a0]) = Ok x).
Proof.
  unfold transpose, compute, Transpose_compute.
  rewrite !Transpose_axes_pair. split; [done|]. split.
  - destruct (decide (valid_index (rank x) a0 ∧ valid_index (rank x) a1))
      as [[H0 H1]|Hn].
    + rewrite !py_swap_seq by done. by rewrite swap_axes_comm.
    + rewrite !py_swap_invalid; [done|tauto|done].
  - intros Hwf H0. rewrite py_swap_seq by done. simpl.
    rewrite swap_axes_same. unfold np_transpose.
    assert (is_perm (seq 0 (rank x)) (rank x) = true) as ->.
    { rewrite <- (swap_axes_same (rank x) 0).
      destruct (norm_index_valid _ _ H0) as [_ Hlt].
      apply is_perm_swap_axes; lia. }
    f_equal. unfold rank. rewrite gather_seq.
    etransitivity; [|by apply tabulate_elem].
    apply tabulate_ext. intros idx Hidx. f_equal.
    assert (inv_perm (seq 0 (length (shape x))) = seq 0 (length (shape x)))
      as ->.
    { destruct (norm_index_valid _ _ H0) as [_ Hlt].
      rewrite <- (swap_axes_same _ 0) at 1.
      rewrite inv_perm_swap_axes by (unfold rank in Hlt; lia).
      apply swap_axes_same. }
    rewrite <- (Forall2_length _ _ _ Hidx). apply gather_seq.
Qed.

(** X9.  For a valid axes argument, [Transpose] returns the array with the
    two axes exchanged: the shape is the input's with the two entries
    swapped, each element is the input's at the swapped index, and for
    an incoming gradient of the shape of the output the gradient has
    the shape of the input. *)
Theorem Transpose_shape_and_gradient_fit (x out_grad : NDArray R)
    (axes : option (list Z)) :
  valid_axes (rank x) axes →
  let n := rank x in
  let a := (axis_pair n axes).1 in
  let b := (axis_pair n axes).2 in
  ∃ y, transpose x axes = Ok y ∧ wf y ∧
       a < n ∧ b < n ∧
       length (shape y) = n ∧
       (∀ m, m < n → shape y !! m = shape x !! transp a b m) ∧
       (∀ idx, Forall2 lt idx (shape y) →
          elem y idx = elem x (gather idx (swap_axes n a b))) ∧
       (wf out_grad → shape out_grad = shape y →
        ∃ g, gradient (Transpose axes) out_grad [x] = Ok [g] ∧
             wf g ∧ shape g = shape x).
Proof.
  intros Hv n a b.
  destruct (Transpose_axes_spec _ _ Hv) as (E & Ha & Hb).
  fold n a b in E, Ha, Hb.
  exists (transposed x n a b).
  assert (transpose x axes = Ok (transposed x n a b)) as Hy.
  { unfold transpose, compute. by apply Transpose_compute_swap. }
  split_and!; try done.
  - apply tabulate_wf.
  - apply rank_transposed.
  - intros m Hm. simpl. by apply lookup_gather_swap.
  - intros idx Hidx. unfold transposed. by rewrite elem_tabulate.
  - intros Hwg Hsg.
    assert (rank out_grad = n) as Hrg.
    { unfold rank. rewrite Hsg. apply rank_transposed. }
    exists (transposed out_grad n a b). split_and!.
    + unfold gradient, Transpose_gradient, transpose, compute.
      by rewrite (Transpose_compute_swap out_grad axes n a b).
    + apply tabulate_wf.
    + simpl. rewrite Hsg. simpl. by apply gather_swap_involutive.
Qed.

End TransposeAxes.

Lemma Transpose_raises_IndexError_witness :
  let x := qarr [3] [1; 2; 3]%Z in
  transpose x None = Err IndexError ∧
  gradient (Transpose None) x [x] = Err IndexError.
Proof.
  intros x.
  destruct (@Transpose_raises_IndexError Qc Qc_scalar x x None) as [Hf Hg].
  - unfold x. cbn. lia.
  - split; [exact Hf | by apply Hg].
Defined.

Lemma Transpose_uses_first_two_axes_witness :
  let x := qarr [2; 3] [1; 2; 3; 4; 5; 6]%Z in
  transpose x (Some [1; 1]%Z) = Ok x.
Proof.
  intros x.
  apply (@Transpose_uses_first_two_axes Qc Qc_scalar x 1%Z 1%Z []);
    [reflexivity|]. unfold valid_index, x. cbn. lia.
Defined.

Lemma Transpose_shape_and_gradient_fit_witness :
  let x := qarr [2; 3] [1; 2; 3; 4; 5; 6]%Z in
  let og := qarr [3; 2] [1; 1; 1; 1; 1; 1]%Z in
  ∃ y, transpose x (Some [-1; 0]%Z) = Ok y ∧ shape y = [3; 2] ∧
       ∃ g, gradient (Transpose (Some [-1; 0]%Z)) og [x] = Ok [g] ∧
            shape g = [2; 3].
Proof.
  intros x og.
  destruct (@Transpose_shape_and_gradient_fit Qc Qc_scalar x og
              (Some [-1; 0]%Z))
    as (y & Hy & _ & _ & _ & _ & _ & _ & Hg).
  { unfold x. cbn. unfold valid_index. cbn. lia. }
  assert (y = qarr [3; 2] [1; 4; 2; 5; 3; 6]%Z) as ->.
  { assert (transpose x (Some [-1; 0]%Z)
            = Ok (qarr [3; 2] [1; 4; 2; 5; 3; 6]%Z)) as E by reflexivity.
    rewrite E in Hy. by injection Hy. }
  exists (qarr [3; 2] [1; 4; 2; 5; 3; 6]%Z).
  split; [exact Hy|]. split; [reflexivity|].
  destruct (Hg eq_refl eq_refl) as (g & Hgg & _ & Hsg).
  exists g. split; [exact Hgg | exact Hsg].
Defined.

(** ** Summation and BroadcastTo: special cases *)

Lemma filter_all {A} (P : A → Prop) `{∀ x, Decision (P x)} (l : list A) :
  Forall P l → filter P l = l.
Proof.
  induction 1 as [|x l Hx _ IH]; [done|].
  by rewrite filter_cons_True, IH.
Qed.

Lemma filter_none {A} (P : A → Prop) `{∀ x, Decision (P x)} (l : list A) :
  Forall (λ x, ¬ P x) l → filter P l = [].
Proof.
  induction 1 as [|x l Hx _ IH]; [done|].
  by rewrite filter_cons_False.
Qed.

Lemma filter_eq_seq (k a n : nat) :
  a ≤ k < a + n → filter (λ p, p = k) (seq a n) = [k].
Proof.
  revert a. induction n as [|n IH]; intros a Hk; [lia|].
  simpl seq. destruct (decide (a = k)) as [->|Hne].
  - rewrite filter_cons_True by done. f_equal.
    apply filter_none, Forall_forall. intros p Hp%elem_of_seq. lia.
  - rewrite filter_cons_False by done. apply IH. lia.
Qed.

Lemma drop_axes_from_nil {A} (m : nat) (l : list A) :
  drop_axes_from m [] l = l.
Proof.
  revert m. induction l as [|x l IH]; intros m; simpl; [done|].
  by rewrite IH.
Qed.

Lemma ravel_zeros (s idx : list nat) :
  Forall (λ i, i = 0) idx → ravel s idx = 0.
Proof.
  intros Hz. revert s.
  induction Hz as [|i idx Hi _ IH]; intros [|d s]; [done..|].
  simpl. by rewrite Hi, IH.
Qed.

Lemma bcast_index_ones (n : nat) (idx : list nat) :
  Forall (λ i, i = 0) (bcast_index (replicate n 1) idx).
Proof.
  unfold bcast_index.
  generalize (drop (length idx - length (replicate n 1)) idx).
  induction n as [|n IH]; intros [|i l]; simpl; try constructor; [done|].
  apply IH.
Qed.

Section SummationCases.
Context {R : Type} `{Scalar R}.

(** [numpy.sum(a, ())]: nothing is reduced. *)
Lemma np_sum_empty_axes (a : NDArray R) :
  wf a → np_sum a (Some []) = Ok a.
Proof.
  intros Hwf. unfold np_sum. simpl. unfold drop_axes.
  rewrite drop_axes_from_nil. destruct a as [s l]. simpl in *. f_equal.
  f_equal. unfold wf in Hwf. simpl in Hwf. rewrite <- Hwf.
  etransitivity; [|apply (list_tabulate_nth l s_zero)].
  apply map_ext_in. intros k Hk%in_seq.
  rewrite (filter_ext_in _ (λ p, p = k)).
  - rewrite filter_eq_seq by lia. done.
  - intros p Hp%elem_of_seq. rewrite drop_axes_from_nil.
    rewrite ravel_unravel by lia. done.
Qed.

(** [numpy.sum(a)]: all elements are added into an array of shape [()]. *)
Lemma np_sum_all_axes (a : NDArray R) :
  wf a → np_sum a None = Ok (mkArr [] [add_reduce (data a)]).
Proof.
  intros Hwf. unfold np_sum. simpl. unfold drop_axes.
  rewrite drop_axes_from_all
    by (intros i Hi; apply elem_of_seq; unfold rank; lia).
  f_equal. f_equal. change (seq 0 (numel [])) with [0]. simpl. do 2 f_equal.
  rewrite filter_all by (by apply Forall_forall).
  unfold wf in Hwf. rewrite <- Hwf. apply list_tabulate_nth.
Qed.

(** X10.  [Summation] over all axes ([axes=None]): the forward pass adds all
    elements into an array of shape [()]; the gradient gives every
    position of the input the incoming scalar gradient (times the [1]
    of [ones(input_shape)]). *)
Theorem Summation_all_axes (x : NDArray R) (g : R) :
  wf x →
  summation x AxesNone = Ok (mkArr [] [add_reduce (data x)]) ∧
  gradient (Summation_init AxesNone) (mkArr [] [g]) [x]
    = Ok [mkArr (shape x) (replicate (numel (shape x)) (s_mul g s_one))].
Proof.
  intros Hwf. split.
  - unfold summation, compute, Summation_init, Summation_compute.
    by apply np_sum_all_axes.
  - cbn [Summation_init gradient Summation_gradient]. rewrite bind_Ok.
    unfold reshape. cbn [compute]. unfold Reshape_compute, np_reshape.
    cbn [shape data].
    assert (numel (replicate (length (shape x)) 1) = numel []) as Hn.
    { generalize (length (shape x)). intros n.
      induction n as [|n IH]; [done|]. simpl replicate.
      rewrite numel_cons, IH. unfold numel. simpl. lia. }
    rewrite bool_decide_true by done. rewrite bind_Ok.
    unfold Tensor_mul_array, np_mul, np_binop. cbn [shape np_ones].
    assert (Forall2 (λ d' d, d' = d ∨ d' = 1)
              (replicate (length (shape x)) 1) (shape x)) as Hones.
    { apply Forall2_same_length_lookup. split; [apply length_replicate|].
      intros k d e [-> _]%lookup_replicate _. by right. }
    rewrite (broadcast_shapes_ones _ _ Hones), bind_Ok.
    fold (np_ones (shape x)).
    assert (wf (np_ones (shape x))) as Hw1.
    { unfold wf, np_ones. simpl. apply length_replicate. }
    pose proof (np_broadcast_to_same _ Hw1) as E1. simpl shape in E1.
    rewrite E1. unfold np_broadcast_to. cbn [shape].
    rewrite (broadcastable_to_ones _ _ Hones). rewrite !bind_Ok.
    do 3 f_equal. unfold tabulate, elem. cbn [shape data np_ones].
    apply list_eq. intros i.
    rewrite lookup_zip_with, list_lookup_fmap.
    destruct (decide (i < numel (shape x))) as [Hi|Hi].
    + rewrite lookup_seq_lt by done. simpl.
      rewrite !lookup_replicate_2 by done. simpl.
      rewrite ravel_zeros by apply bcast_index_ones. done.
    + rewrite lookup_seq_ge by lia. simpl.
      symmetry. apply lookup_replicate_None. lia.
Qed.

(** X11.  [BroadcastTo] with the shape the array already has: the forward
    pass returns the array, no axis is reduced in the gradient, and the
    gradient is [out_grad] itself. *)
Theorem BroadcastTo_same_shape (x out_grad : NDArray R) :
  wf x → wf out_grad → shape out_grad = shape x →
  broadcast_to x (shape x) = Ok x ∧
  BroadcastTo_reduce_dim (shape out_grad) (shape x) = [] ∧
  gradient (BroadcastTo (shape x)) out_grad [x] = Ok [out_grad].
Proof.
  intros Hx Hg Hs.
  assert (BroadcastTo_reduce_dim (shape out_grad) (shape x) = []) as Hrd.
  { rewrite Hs, BroadcastTo_reduce_dim_spec by apply broadcastable_to_same.
    apply filter_none, Forall_forall. intros i _.
    unfold is_broadcast_axis. rewrite Nat.sub_diag, Nat.sub_0_r. simpl. lia. }
  split_and!; [|done|].
  - unfold broadcast_to, compute, BroadcastTo_compute.
    by apply np_broadcast_to_same.
  - cbn [gradient BroadcastTo_gradient]. rewrite Hrd.
    unfold summation, compute, Summation_init, Summation_compute.
    cbn [map]. rewrite (np_sum_empty_axes _ Hg), bind_Ok.
    unfold reshape, compute, Reshape_compute, np_reshape.
    rewrite bool_decide_true by by rewrite Hs. rewrite bind_Ok.
    rewrite <- Hs. by destruct out_grad.
Qed.

End SummationCases.

Lemma Summation_all_axes_witness :
  let x := qarr [2; 2] [1; 2; 3; 4]%Z in
  summation x AxesNone = Ok (qarr [] [10]%Z) ∧
  gradient (Summation_init AxesNone) (qarr [] [5]%Z) [x]
    = Ok [qarr [2; 2] [5; 5; 5; 5]%Z].
Proof.
  intros x.
  destruct (@Summation_all_axes Qc Qc_scalar x (Q2Qc (inject_Z 5)) eq_refl)
    as [Hf Hg].
  split; (etransitivity; [eassumption | reflexivity]).
Defined.

Lemma BroadcastTo_same_shape_witness :
  let x := qarr [2; 2] [1; 2; 3; 4]%Z in
  let og := qarr [2; 2] [5; 6; 7; 8]%Z in
  broadcast_to x [2; 2] = Ok x ∧
  gradient (BroadcastTo [2; 2]) og [x] = Ok [og].
Proof.
  intros x og.
  destruct (@BroadcastTo_same_shape Qc Qc_scalar x og eq_refl eq_refl eq_refl)
    as (Hf & _ & Hg).
  exact (conj Hf Hg).
Defined.

(** ** Summation along the last axis of a matrix, and negative axes *)

Lemma filter_div_seq (c k b : nat) :
  k < b → filter (λ p, p / c = k) (seq 0 (b * c)) = seq (k * c) c.
Proof.
  intros Hk. destruct (decide (c = 0)) as [->|Hc].
  { by rewrite Nat.mul_0_r. }
  assert (b * c = k * c + (c + (b * c - k * c - c))) as -> by nia.
  rewrite !seq_app, !filter_app. simpl.
  rewrite (filter_none _ (seq 0 (k * c))).
  2:{ apply Forall_forall. intros p Hp%elem_of_seq Hq.
      assert (p / c < k); [|lia].
      apply Nat.Div0.div_lt_upper_bound. lia. }
  rewrite (filter_none _ (seq (k * c + c) _)).
  2:{ apply Forall_forall. intros p Hp%elem_of_seq Hq.
      assert (k + 1 ≤ p / c); [|lia].
      apply Nat.div_le_lower_bound; [done|]. lia. }
  rewrite app_nil_r. simpl. apply filter_all.
  apply Forall_forall. intros p Hp%elem_of_seq.
  symmetry. apply Nat.div_unique with (p - k * c); lia.
Qed.

Lemma map_seq_shift {A} (f : nat → A) (a n : nat) :
  map f (seq a n) = map (λ j, f (a + j)) (seq 0 n).
Proof.
  revert f a. induction n as [|n IH]; intros f a; simpl; [done|].
  rewrite Nat.add_0_r. f_equal.
  rewrite (IH f (S a)), (IH (λ j, f (a + j)) 1).
  apply map_ext. intros j. f_equal. lia.
Qed.

Lemma norm_axis_lt (n : nat) (d : Z) (p : nat) :
  norm_axis n d = Ok p → p < n.
Proof.
  unfold norm_axis. repeat case_bool_decide; intros E; simplify_eq; lia.
Qed.

Lemma mapM_norm_axis_lt (n : nat) (l : list Z) (pos : list nat) :
  mapM (norm_axis n) l = Ok pos → Forall (λ p, p < n) pos.
Proof.
  revert pos. induction l as [|d l IH]; intros pos Hpos; simpl in Hpos.
  - injection Hpos as <-. constructor.
  - apply bind_Ok_inv in Hpos as (p & Hp & Hpos).
    apply bind_Ok_inv in Hpos as (pos' & Hpos' & Hpos).
    injection Hpos as <-. constructor; [by eapply norm_axis_lt | by apply IH].
Qed.

Section SummationAxes.
Context {R : Type} `{Scalar R}.

Lemma summation_last_axis_2d (b c : nat) (l : list R) (ax : Z) :
  ax = 1%Z ∨ ax = (-1)%Z →
  length l = b * c →
  summation (mkArr [b; c] l) (AxesInt ax)
    = Ok (mkArr [b]
            (map (λ i, add_reduce
                         (map (λ j, nth (i * c + j) l s_zero) (seq 0 c)))
                 (seq 0 b))).
Proof.
  intros Hax Hl.
  unfold summation, compute, Summation_init, Summation_compute, np_sum.
  assert (normalize_axes (rank (mkArr [b; c] l)) (Some [ax]) = Ok [1])
    as -> by (destruct Hax as [-> | ->]; reflexivity).
  rewrite bind_Ok. cbn [shape data].
  assert (drop_axes [1] [b; c] = [b]) as -> by reflexivity.
  assert (numel [b] = b) as -> by (unfold numel; simpl; lia).
  assert (numel [b; c] = b * c) as -> by (unfold numel; simpl; lia).
  do 2 f_equal. apply map_ext_in. intros k Hk%in_seq. f_equal.
  rewrite (filter_ext_in _ (λ p, p / c = k)).
  - rewrite filter_div_seq by lia. by rewrite map_seq_shift.
  - intros p Hp%elem_of_seq.
    assert (ravel [b] (drop_axes [1] (unravel [b; c] p)) = p / c) as ->;
      [|done].
    unfold drop_axes. simpl. unfold numel. simpl.
    rewrite !Nat.mul_1_r. lia.
Qed.

(** X12.  [Summation] along the last axis of a matrix, given as [1] or as
    [-1]: entry [i] of the result is the sum of row [i]. *)
Theorem Summation_last_axis_of_matrix (b c : nat) (l : list R) (ax : Z) :
  ax = 1%Z ∨ ax = (-1)%Z →
  length l = b * c →
  summation (mkArr [b; c] l) (AxesInt ax)
    = Ok (mkArr [b]
            (map (λ i, add_reduce
                         (map (λ j, nth (i * c + j) l s_zero) (seq 0 c)))
                 (seq 0 b))).
Proof. apply summation_last_axis_2d. Qed.

(** X13.  Negative axes: [Summation] with axes counted from the end behaves,
    forward and backward, as with the same axes counted from the front;
    the assignment [sum_shape[dim] = 1] of the gradient and
    [numpy.sum] read a negative axis the same way. *)
Theorem Summation_negative_axes (x out_grad : NDArray R) (l : list Z)
    (pos : list nat) :
  mapM (norm_axis (rank x)) l = Ok pos →
  summation x (AxesTuple l) = summation x (AxesTuple (map Z.of_nat pos)) ∧
  gradient (Summation_init (AxesTuple l)) out_grad [x]
    = gradient (Summation_init (AxesTuple (map Z.of_nat pos))) out_grad [x].
Proof.
  intros Hpos.
  pose proof (mapM_norm_axis_lt _ _ _ Hpos) as Hlt.
  pose proof (mapM_norm_axis _ _ Hlt) as Hpos'.
  split.
  - unfold summation, compute, Summation_init, Summation_compute, np_sum,
      normalize_axes. by rewrite Hpos, Hpos'.
  - cbn [Summation_init gradient Summation_gradient].
    destruct l as [|d l].
    { simpl in Hpos. by injection Hpos as <-. }
    destruct pos as [|p pos].
    { simpl in Hpos. apply bind_Ok_inv in Hpos as (? & _ & Hpos).
      by apply bind_Ok_inv in Hpos as (? & _ & Hpos). }
    cbn [map].
    rewrite (Summation_sum_shape_loop (d :: l) (p :: pos)) by done.
    by rewrite (Summation_sum_shape_loop (Z.of_nat p :: map Z.of_nat pos)
                  (p :: pos)).
Qed.

End SummationAxes.

Lemma Summation_last_axis_of_matrix_witness :
  summation (qarr [2; 3] [1; 2; 3; 4; 5; 6]%Z) (AxesInt (-1))
    = Ok (qarr [2] [6; 15]%Z).
Proof.
  etransitivity.
  - apply (@Summation_last_axis_of_matrix Qc Qc_scalar 2 3
             (map (λ z, Q2Qc (inject_Z z)) [1; 2; 3; 4; 5; 6]%Z) (-1)%Z);
      [by right | reflexivity].
  - reflexivity.
Defined.

Lemma Summation_negative_axes_witness :
  let x := qarr [2; 3] [1; 2; 3; 4; 5; 6]%Z in
  let og := qarr [3] [1; 1; 1]%Z in
  summation x (AxesTuple [(-2)%Z]) = summation x (AxesTuple [0%Z]) ∧
  gradient (Summation_init (AxesTuple [(-2)%Z])) og [x]
    = gradient (Summation_init (AxesTuple [0%Z])) og [x].
Proof.
  intros x og.
  exact (@Summation_negative_axes Qc Qc_scalar x og [(-2)%Z] [0] eq_refl).
Defined.

(** ** Summation along one axis *)

Lemma unravel_app (s1 s2 : list nat) (q : nat) :
  q < numel (s1 ++ s2) →
  unravel (s1 ++ s2) q
  = unravel s1 (q / numel s2) ++ unravel s2 (q `mod` numel s2).
Proof.
  revert q. induction s1 as [|d s1 IH]; intros q Hq.
  - simpl in *. by rewrite Nat.mod_small.
  - cbn [app unravel]. cbn [app] in Hq. rewrite numel_cons, numel_app in Hq.
    rewrite numel_app.
    assert (0 < numel s1 * numel s2) as Hpos by nia.
    assert (numel s2 ≠ 0) as Hn2 by nia.
    rewrite IH by (rewrite numel_app; by apply Nat.mod_upper_bound; lia).
    rewrite (Nat.mul_comm (numel s1) (numel s2)).
    rewrite <- Nat.Div0.div_div. cbn [app]. f_equal.
    rewrite Nat.Div0.mod_mul_r. f_equal.
    + f_equal. rewrite (Nat.mul_comm (numel s2)), Nat.add_comm.
      rewrite Nat.div_add_l by done.
      rewrite (Nat.div_small (q `mod` numel s2))
        by (by apply Nat.mod_upper_bound).
      lia.
    + f_equal. rewrite (Nat.mul_comm (numel s2)), Nat.Div0.mod_add.
      apply Nat.Div0.mod_mod.
Qed.

Lemma ravel_app (s1 s2 i1 i2 : list nat) :
  length i1 = length s1 →
  ravel (s1 ++ s2) (i1 ++ i2) = ravel s1 i1 * numel s2 + ravel s2 i2.
Proof.
  revert i1. induction s1 as [|d s1 IH]; intros [|i i1] Hlen; try done.
  cbn [app ravel]. rewrite IH by (simpl in Hlen; lia).
  rewrite numel_app. lia.
Qed.

Lemma drop_axes_from_ge {A} (m : nat) (axes : list nat) (l : list A) :
  (∀ i, i ∈ axes → i < m) → drop_axes_from m axes l = l.
Proof.
  revert m. induction l as [|x l IH]; intros m Hlt; simpl; [done|].
  rewrite bool_decide_false by (intros Hin; apply Hlt in Hin; lia).
  rewrite IH; [done|]. intros i Hi. apply Hlt in Hi. lia.
Qed.

Lemma drop_axes_from_lt {A} (m : nat) (axes : list nat) (l : list A) :
  (∀ i, i ∈ axes → m + length l ≤ i) → drop_axes_from m axes l = l.
Proof.
  revert m. induction l as [|x l IH]; intros m Hge; simpl; [done|].
  rewrite bool_decide_false
    by (intros Hin; apply Hge in Hin; simpl in Hin; lia).
  f_equal. apply IH. intros i Hi. apply Hge in Hi. simpl in Hi. lia.
Qed.

(** Dropping the entry at one position. *)
Lemma drop_axes_singleton {A} (l1 l2 : list A) (x : A) :
  drop_axes [length l1] (l1 ++ x :: l2) = l1 ++ l2.
Proof.
  unfold drop_axes. rewrite drop_axes_from_app. simpl.
  rewrite bool_decide_true by (apply list_elem_of_singleton; done).
  rewrite drop_axes_from_lt
    by (intros i ->%list_elem_of_singleton; simpl; lia).
  f_equal. apply drop_axes_from_ge.
  intros i ->%list_elem_of_singleton. lia.
Qed.

(** The flat position in the reduced array that the element at the flat
    position [q] of an array of shape [s1 ++ d :: s2] is added to. *)
Lemma ravel_drop_axis (s1 s2 : list nat) (d q : nat) :
  q < numel (s1 ++ d :: s2) →
  ravel (s1 ++ s2) (drop_axes [length s1] (unravel (s1 ++ d :: s2) q))
  = q / (d * numel s2) * numel s2 + q `mod` numel s2.
Proof.
  intros Hq. rewrite unravel_app by done.
  rewrite numel_app, !numel_cons in Hq. rewrite numel_cons.
  assert (numel s2 ≠ 0) as Hn2 by nia.
  assert (d * numel s2 ≠ 0) as Hdn by nia.
  cbn [unravel].
  rewrite <- (length_unravel s1 (q / (d * numel s2))).
  rewrite drop_axes_singleton.
  rewrite ravel_app by apply length_unravel.
  rewrite ravel_unravel by (apply Nat.Div0.div_lt_upper_bound; lia).
  rewrite ravel_unravel by (by apply Nat.mod_upper_bound).
  f_equal. rewrite (Nat.mul_comm d), Nat.Div0.mod_mul_r.
  rewrite (Nat.mul_comm (numel s2)), Nat.Div0.mod_add.
  apply Nat.Div0.mod_mod.
Qed.

Lemma filter_mod_seq (a d c j : nat) :
  j < c →
  filter (λ q, q `mod` c = j) (seq (a * c) (d * c))
  = map (λ t, (a + t) * c + j) (seq 0 d).
Proof.
  intros Hj. induction d as [|d IH]; [done|].
  replace (S d * c) with (d * c + c) by lia.
  rewrite seq_app, filter_app, IH, seq_S, map_app. f_equal.
  cbn [map Nat.add].
  rewrite (filter_ext_in _ (λ q, q = (a + d) * c + j)).
  - apply filter_eq_seq. lia.
  - intros q Hq%elem_of_seq.
    replace q with (q - (a + d) * c + (a + d) * c) at 1 by lia.
    rewrite Nat.Div0.mod_add, Nat.mod_small by lia. lia.
Qed.

(** The flat positions that are added into the flat position [k] of the
    reduced array, in increasing order. *)
Lemma filter_axis_seq (n1 d n2 k : nat) :
  k < n1 * n2 →
  filter (λ q, q / (d * n2) * n2 + q `mod` n2 = k) (seq 0 (n1 * (d * n2)))
  = map (λ t, (k / n2 * d + t) * n2 + k `mod` n2) (seq 0 d).
Proof.
  intros Hk.
  assert (n2 ≠ 0) as Hn2 by nia.
  assert (k / n2 < n1) as Hi0
    by (apply Nat.Div0.div_lt_upper_bound; lia).
  pose proof (Nat.mod_upper_bound k n2 Hn2) as Hj0.
  rewrite (list_filter_iff _
             (λ q, q `mod` n2 = k `mod` n2 ∧ q / (d * n2) = k / n2)).
  2:{ intros q. pose proof (Nat.mod_upper_bound q n2 Hn2) as Hq.
      split.
      - intros E. split.
        + apply (Nat.mod_unique k n2 (q / (d * n2))); lia.
        + apply (Nat.div_unique k n2 _ (q `mod` n2)); lia.
      - intros [-> ->]. pose proof (Nat.div_mod_eq k n2). lia. }
  rewrite <- list_filter_filter, filter_div_seq by done.
  rewrite Nat.mul_assoc.
  rewrite (filter_mod_seq (k / n2 * d) d n2 (k `mod` n2)) by done.
  done.
Qed.

Lemma zip_with_bcast_id (s idx : list nat) :
  Forall2 lt idx s →
  zip_with (λ d i, if d =? 1 then 0 else i) s idx = idx.
Proof.
  induction 1 as [|i d idx s Hi _ IH]; [done|]. simpl. rewrite IH.
  destruct (Nat.eqb_spec d 1); [f_equal; lia | done].
Qed.

(** The flat position in the gradient reshaped to [s1 ++ 1 :: s2] that
    broadcasting reads at the flat position [q] of the input. *)
Lemma ravel_bcast_axis (s1 s2 : list nat) (d q : nat) :
  q < numel (s1 ++ d :: s2) →
  ravel (s1 ++ 1 :: s2)
        (bcast_index (s1 ++ 1 :: s2) (unravel (s1 ++ d :: s2) q))
  = q / (d * numel s2) * numel s2 + q `mod` numel s2.
Proof.
  intros Hq. unfold bcast_index.
  rewrite length_unravel, !length_app. cbn [length].
  rewrite Nat.sub_diag, drop_0.
  rewrite unravel_app by done.
  rewrite numel_app, !numel_cons in Hq. rewrite numel_cons.
  assert (numel s2 ≠ 0) as Hn2 by nia.
  cbn [unravel].
  rewrite zip_with_app by (by rewrite length_unravel).
  cbn [zip_with]. change (1 =? 1) with true. cbv iota.
  rewrite !zip_with_bcast_id.
  2:{ apply unravel_lt. by apply Nat.mod_upper_bound. }
  2:{ apply unravel_lt. apply Nat.Div0.div_lt_upper_bound. lia. }
  rewrite ravel_app by apply length_unravel.
  cbn [ravel]. rewrite numel_cons.
  rewrite ravel_unravel by (apply Nat.Div0.div_lt_upper_bound; lia).
  rewrite ravel_unravel by (by apply Nat.mod_upper_bound).
  rewrite (Nat.mul_comm d), Nat.Div0.mod_mul_r.
  rewrite (Nat.mul_comm (numel s2) (_ `mod` d)), Nat.Div0.mod_add.
  rewrite Nat.Div0.mod_mod. lia.
Qed.

Section SummationOneAxis.
Context {R : Type} `{Scalar R}.

(** [numpy.sum(a, (ax,))] for an axis [ax] that denotes the position
    after the axes [s1]: the element at the flat position [k] of the
    result, which is the position of an index [(i1, i2)], is the sum of
    the elements of [a] at the positions of [(i1, t, i2)] for
    [t = 0 .. d-1]. *)
Lemma np_sum_one_axis (a : NDArray R) (s1 s2 : list nat) (d : nat)
    (ax : Z) :
  shape a = s1 ++ d :: s2 →
  norm_axis (rank a) ax = Ok (length s1) →
  np_sum a (Some [ax])
  = Ok (mkArr (s1 ++ s2)
          (map (λ k, add_reduce
                       (map (λ t, nth ((k / numel s2 * d + t) * numel s2
                                       + k `mod` numel s2) (data a) s_zero)
                            (seq 0 d)))
               (seq 0 (numel s1 * numel s2)))).
Proof.
  intros Hs Hax. unfold np_sum, normalize_axes. cbn [mapM].
  rewrite Hax. rewrite !bind_Ok.
  rewrite bool_decide_true by apply NoDup_singleton.
  rewrite bind_Ok, Hs, drop_axes_singleton, !numel_app, numel_cons.
  do 2 f_equal. apply map_ext_in. intros k Hk%in_seq. f_equal.
  rewrite (filter_ext_in _
             (λ q, q / (d * numel s2) * numel s2 + q `mod` numel s2 = k)).
  - rewrite filter_axis_seq by lia. by rewrite map_map.
  - intros q Hq%elem_of_seq.
    rewrite ravel_drop_axis; [done|].
    rewrite numel_app, numel_cons. lia.
Qed.

(** The gradient of [Summation] along that axis: the element of the
    gradient at the position of [(i1, t, i2)] is the element of
    [out_grad] at the position of [(i1, i2)] (times the [1] of
    [ones(input_shape)]). *)
Lemma Summation_gradient_one_axis (a out_grad : NDArray R)
    (s1 s2 : list nat) (d : nat) (ax : Z) :
  shape a = s1 ++ d :: s2 →
  norm_axis (rank a) ax = Ok (length s1) →
  shape out_grad = s1 ++ s2 →
  gradient (Summation (Some [ax])) out_grad [a]
  = Ok [mkArr (shape a)
          (map (λ q, s_mul (nth (q / (d * numel s2) * numel s2
                                 + q `mod` numel s2) (data out_grad) s_zero)
                           s_one)
               (seq 0 (numel (shape a))))].
Proof.
  intros Hs Hax Hg. cbn [gradient Summation_gradient foldlM].
  unfold rank in Hax.
  unfold py_setitem. rewrite (norm_axis_index _ _ _ Hax), !bind_Ok.
  rewrite Hs, insert_app_r_alt, Nat.sub_diag by done. cbn [insert list_insert].
  unfold reshape. cbn [compute]. unfold Reshape_compute, np_reshape.
  rewrite bool_decide_true
    by (rewrite Hg, !numel_app, !numel_cons; lia).
  rewrite bind_Ok.
  unfold Tensor_mul_array, np_mul, np_binop. cbn [shape np_ones].
  assert (Forall2 (λ d' d0, d' = d0 ∨ d' = 1)
            (s1 ++ 1 :: s2) (s1 ++ d :: s2)) as Hones.
  { apply Forall2_app; [by apply Forall_Forall2_diag, Forall_true; left|].
    constructor; [by right|].
    by apply Forall_Forall2_diag, Forall_true; left. }
  rewrite (broadcast_shapes_ones _ _ Hones), bind_Ok.
  fold (np_ones (s1 ++ d :: s2)).
  assert (wf (np_ones (s1 ++ d :: s2))) as Hw1.
  { unfold wf, np_ones. simpl. apply length_replicate. }
  pose proof (np_broadcast_to_same _ Hw1) as E1. simpl shape in E1.
  rewrite E1. unfold np_broadcast_to. cbn [shape].
  rewrite (broadcastable_to_ones _ _ Hones). rewrite !bind_Ok.
  do 3 f_equal. unfold tabulate, elem. cbn [shape data np_ones].
  apply list_eq. intros q.
  rewrite lookup_zip_with, !list_lookup_fmap.
  destruct (decide (q < numel (s1 ++ d :: s2))) as [Hq|Hq].
  - rewrite lookup_seq_lt by done. simpl.
    rewrite lookup_replicate_2 by done. simpl.
    by rewrite ravel_bcast_axis.
  - by rewrite lookup_seq_ge by lia.
Qed.

(** C10.  [Summation.__init__] turns a bare integer [k] into the tuple
    [(k,)], so [summation(a, k)] and [summation(a, (k,))] are the same
    operator, with the same forward pass and the same gradient.  Both
    reduce the axis [k] and no other.  For [a] of shape [s1 ++ d :: s2],
    where [k] (counted from the end when negative) denotes the axis of
    size [d]: the result has shape [s1 ++ s2] and holds at the position
    of [(i1, i2)] the sum over [t] of the elements of [a] at
    [(i1, t, i2)], and the gradient has the shape of [a] and holds at
    [(i1, t, i2)] the element of [out_grad] at [(i1, i2)] (times the
    [1] of [ones(input_shape)]).  An integer outside [-rank .. rank-1]
    raises numpy's [AxisError]. *)
Theorem summation_int_is_singleton_tuple (a out_grad : NDArray R) (k : Z) :
  (Summation_init (AxesInt k) : Op R) = Summation (Some [k]) ∧
  (Summation_init (AxesInt k) : Op R) = Summation_init (AxesTuple [k]) ∧
  summation a (AxesInt k) = summation a (AxesTuple [k]) ∧
  gradient (Summation_init (AxesInt k)) out_grad [a]
    = gradient (Summation_init (AxesTuple [k])) out_grad [a] ∧
  (¬ valid_index (rank a) k → summation a (AxesInt k) = Err AxisError) ∧
  (∀ s1 d s2,
     shape a = s1 ++ d :: s2 →
     valid_index (rank a) k → py_pos (rank a) k = length s1 →
     summation a (AxesInt k)
     = Ok (mkArr (s1 ++ s2)
             (map (λ q, add_reduce
                          (map (λ t, nth ((q / numel s2 * d + t) * numel s2
                                          + q `mod` numel s2)
                                         (data a) s_zero)
                               (seq 0 d)))
                  (seq 0 (numel s1 * numel s2)))) ∧
     (shape out_grad = s1 ++ s2 →
      gradient (Summation_init (AxesInt k)) out_grad [a]
      = Ok [mkArr (shape a)
              (map (λ q, s_mul (nth (q / (d * numel s2) * numel s2
                                     + q `mod` numel s2)
                                    (data out_grad) s_zero)
                               s_one)
                   (seq 0 (numel (shape a))))])).
Proof.
  split_and!; [reflexivity..| |].
  - intros Hk. unfold summation, compute, Summation_init,
      Summation_compute, np_sum, normalize_axes. cbn [mapM].
    unfold valid_index in Hk. unfold norm_axis.
    by rewrite !bool_decide_false by lia.
  - intros s1 d s2 Hs Hk Hp.
    assert (norm_axis (rank a) k = Ok (length s1)) as Hax.
    { rewrite <- Hp. unfold valid_index in Hk. unfold norm_axis, py_pos.
      destruct (decide (0 ≤ k)%Z).
      - by rewrite !bool_decide_true by lia.
      - rewrite bool_decide_false by lia.
        rewrite bool_decide_true by lia. by rewrite bool_decide_false by lia. }
    split.
    + unfold summation, compute, Summation_init, Summation_compute.
      by apply (np_sum_one_axis a s1 s2 d k).
    + intros Hg. cbn [Summation_init].
      by apply (Summation_gradient_one_axis a out_grad s1 s2 d k).
Qed.

End SummationOneAxis.

(** [summation] of [[1, 2, 3], [4, 5, 6]] along the axis [0], and the
    gradient for the incoming gradient [[10, 20, 30]]. *)
Lemma summation_int_is_singleton_tuple_witness :
  let x := qarr [2; 3] [1; 2; 3; 4; 5; 6]%Z in
  let og := qarr [3] [10; 20; 30]%Z in
  summation x (AxesInt 0) = Ok (qarr [3] [5; 7; 9]%Z) ∧
  gradient (Summation_init (AxesInt 0)) og [x]
    = Ok [qarr [2; 3] [10; 20; 30; 10; 20; 30]%Z].
Proof.
  intros x og.
  destruct (@summation_int_is_singleton_tuple Qc Qc_scalar x og 0%Z)
    as (_ & _ & _ & _ & _ & Hax).
  destruct (Hax [] 2 [3]) as [Hf Hg]; [reflexivity| |reflexivity|].
  { unfold valid_index, x. cbn. lia. }
  split.
  - by rewrite Hf.
  - by rewrite (Hg eq_refl).
Defined.

(** ** MatMul *)

Section MatMulCases.
Context {R : Type} `{Scalar R}.

(** X14.  The forward pass of [MatMul].  On matrices of shapes (n,m) and
    (m,p) it is the matrix product: entry (i,j) is the sum over [t] of
    [A[i,t] * B[t,j]].  Inner dimensions that differ raise [ValueError].
    Two vectors of one length give their dot product, an array of
    shape [()]. *)
Theorem MatMul_forward (n m m' p : nat) (da db : list R) :
  (∃ C, matmul (mkArr [n; m] da) (mkArr [m; p] db) = Ok C ∧
        shape C = [n; p] ∧ wf C ∧
        ∀ i j, i < n → j < p →
          elem C [i; j]
          = add_reduce (map (λ t, s_mul (elem (mkArr [n; m] da) [i; t])
                                        (elem (mkArr [m; p] db) [t; j]))
                            (seq 0 m))) ∧
  (m ≠ m' →
   matmul (mkArr [n; m] da) (mkArr [m'; p] db) = Err ValueError) ∧
  matmul (mkArr [m] da) (mkArr [m] db)
    = Ok (mkArr [] [add_reduce
                      (map (λ t, s_mul (nth t da s_zero) (nth t db s_zero))
                           (seq 0 m))]).
Proof.
  split_and!.
  - unfold matmul, compute, MatMul_compute, np_matmul.
    cbn -[tabulate numel ravel bcast_index broadcast_shapes].
    rewrite Nat.eqb_refl.
    cbn -[tabulate numel ravel bcast_index].
    match goal with
    | |- context [data (tabulate ?s ?f)] =>
        change (mkArr s (data (tabulate s f))) with (tabulate s f)
    end.
    eexists. split; [done|]. split; [done|]. split; [apply tabulate_wf|].
    intros i j Hi Hj.
    rewrite elem_tabulate by (repeat constructor; done). done.
  - intros Hne. unfold matmul, compute, MatMul_compute, np_matmul.
    cbn -[tabulate numel ravel bcast_index broadcast_shapes].
    by destruct (Nat.eqb_spec m m').
  - unfold matmul, compute, MatMul_compute, np_matmul.
    cbn -[tabulate numel ravel bcast_index broadcast_shapes].
    rewrite Nat.eqb_refl.
    cbn -[tabulate numel ravel bcast_index].
    do 2 f_equal. unfold tabulate, numel. simpl. f_equal. f_equal.
    apply map_ext. intros t. unfold numel. simpl.
    f_equal; f_equal; lia.
Qed.

(** The only exception that [numpy.matmul] raises is [ValueError]. *)
Lemma broadcast_rev_Err (r1 r2 : list nat) (e : error) :
  broadcast_rev r1 r2 = Err e → e = ValueError.
Proof.
  revert r2. induction r1 as [|d1 r1 IH]; intros [|d2 r2]; simpl; try done.
  unfold broadcast_dim.
  destruct (d1 =? d2); simpl.
  { destruct (broadcast_rev r1 r2) eqn:E; simpl; [done|].
    intros [= <-]. by eapply IH. }
  destruct (d1 =? 1); simpl.
  { destruct (broadcast_rev r1 r2) eqn:E; simpl; [done|].
    intros [= <-]. by eapply IH. }
  destruct (d2 =? 1); simpl.
  { destruct (broadcast_rev r1 r2) eqn:E; simpl; [done|].
    intros [= <-]. by eapply IH. }
  by intros [= <-].
Qed.

Lemma np_matmul_Err (a b : NDArray R) (e : error) :
  np_matmul a b = Err e → e = ValueError.
Proof.
  unfold np_matmul. intros Hab.
  repeat match type of Hab with
         | (match ?t with _ => _ end) = _ =>
             destruct t eqn:?; try (by simplify_eq)
         end.
  all: destruct (broadcast_shapes _ _) as [bc|e'] eqn:Hbc;
    simpl in Hab; [done|]; injection Hab as <-;
    unfold broadcast_shapes in Hbc;
    destruct (broadcast_rev _ _) as [r|e''] eqn:Hr; simpl in Hbc; [done|];
    injection Hbc as <-; by eapply broadcast_rev_Err.
Qed.

(** [Transpose] with [axes] omitted on an array of fewer than two
    dimensions. *)
Lemma transpose_rank_lt_2 (x : NDArray R) :
  rank x < 2 → transpose x None = Err IndexError.
Proof.
  intros Hr. unfold transpose, compute, Transpose_compute.
  rewrite (Transpose_axes_invalid (rank x) None); [done|]. simpl. lia.
Qed.

(** X15.  The gradient of [MatMul] transposes both inputs with [axes]
    omitted, so it needs two dimensions in each: with an input of fewer
    than two dimensions it raises, [IndexError] when that input is the
    right one, although the forward pass accepts vectors. *)
Theorem MatMul_gradient_vector_operand (x y out_grad : NDArray R) :
  rank x < 2 ∨ rank y < 2 →
  ∃ e, gradient MatMul out_grad [x; y] = Err e ∧
       (e = IndexError ∨ e = ValueError) ∧
       (rank y < 2 → e = IndexError).
Proof.
  intros Hr. cbn [gradient MatMul_gradient].
  destruct (decide (rank y < 2)) as [Hy|Hy].
  - rewrite (transpose_rank_lt_2 y Hy). simpl. eauto.
  - assert (rank x < 2) as Hx by lia.
    destruct (Transpose_axes_spec (rank y) None) as (E & Ha & Hb);
      [simpl; lia|].
    assert (transpose y None = Ok (transposed y (rank y)
              (axis_pair (rank y) None).1 (axis_pair (rank y) None).2))
      as Hty.
    { unfold transpose, compute. by apply Transpose_compute_swap. }
    rewrite Hty, bind_Ok.
    destruct (Tensor_matmul _ _) as [dx|e] eqn:Hdx.
    + rewrite bind_Ok.
      rewrite (transpose_rank_lt_2 x Hx). simpl. exists IndexError.
      split; [done|]. split; [by left|]. intros; lia.
    + simpl. exists e. split; [done|]. split; [|intros; lia].
      right. by apply np_matmul_Err in Hdx.
Qed.

(** Shapes of [numpy.matmul] on matrices and batches of matrices. *)
Ltac matmul_shape Ha Hb :=
  unfold np_matmul, rank; rewrite Ha, Hb;
  cbn -[tabulate numel ravel bcast_index broadcast_shapes];
  rewrite Nat.eqb_refl;
  cbn -[tabulate numel ravel bcast_index broadcast_shapes].

Lemma np_matmul_2_2 (a b : NDArray R) (n m p : nat) :
  shape a = [n; m] → shape b = [m; p] →
  ∃ c, np_matmul a b = Ok c ∧ shape c = [n; p] ∧ wf c.
Proof.
  intros Ha Hb. matmul_shape Ha Hb.
  eexists. split; [done|]. split; [done|]. apply tabulate_wf.
Qed.

Lemma np_matmul_3_2 (a b : NDArray R) (k n m p : nat) :
  shape a = [k; n; m] → shape b = [m; p] →
  ∃ c, np_matmul a b = Ok c ∧ shape c = [k; n; p] ∧ wf c.
Proof.
  intros Ha Hb. matmul_shape Ha Hb.
  change (broadcast_shapes [k] []) with (Ok [k] : result (list nat)).
  rewrite bind_Ok.
  eexists. split; [done|]. split; [done|]. apply tabulate_wf.
Qed.

Lemma np_matmul_2_3 (a b : NDArray R) (k n m p : nat) :
  shape a = [n; m] → shape b = [k; m; p] →
  ∃ c, np_matmul a b = Ok c ∧ shape c = [k; n; p] ∧ wf c.
Proof.
  intros Ha Hb. matmul_shape Ha Hb.
  change (broadcast_shapes [] [k]) with (Ok [k] : result (list nat)).
  rewrite bind_Ok.
  eexists. split; [done|]. split; [done|]. apply tabulate_wf.
Qed.

Lemma np_matmul_3_3 (a b : NDArray R) (k n m p : nat) :
  shape a = [k; n; m] → shape b = [k; m; p] →
  ∃ c, np_matmul a b = Ok c ∧ shape c = [k; n; p] ∧ wf c.
Proof.
  intros Ha Hb. matmul_shape Ha Hb.
  rewrite broadcast_shapes_same, bind_Ok.
  eexists. split; [done|]. split; [done|]. apply tabulate_wf.
Qed.

Lemma transpose_None_shape (x : NDArray R) (s0 : list nat) (d1 d2 : nat) :
  shape x = s0 ++ [d1; d2] →
  ∃ y, transpose x None = Ok y ∧ shape y = s0 ++ [d2; d1] ∧ wf y.
Proof.
  intros Hs.
  assert (rank x = length s0 + 2) as Hr.
  { unfold rank. rewrite Hs, length_app. simpl. lia. }
  exists (transposed x (length s0 + 2) (length s0 + 1) (length s0)).
  split_and!.
  - unfold transpose, compute. apply Transpose_compute_swap; [done|lia|lia|].
    rewrite Transpose_axes_None by lia. do 2 f_equal; lia.
  - simpl. rewrite Hs. by apply gather_swap_last_two.
  - apply tabulate_wf.
Qed.

Lemma np_sum_wf (a r : NDArray R) (axes : option (list Z)) :
  np_sum a axes = Ok r → wf r.
Proof.
  unfold np_sum. intros Hr. apply bind_Ok_inv in Hr as (ax & _ & Hr).
  injection Hr as <-. unfold wf. simpl. by rewrite length_map, length_seq.
Qed.

Lemma np_sum_axis_0 (d : NDArray R) (e : nat) (s : list nat) :
  shape d = e :: s →
  ∃ r, np_sum d (Some [0%Z]) = Ok r ∧ shape r = s ∧ wf r.
Proof.
  intros Hs.
  assert (normalize_axes (rank d) (Some [0%Z]) = Ok [0]) as Hn.
  { unfold normalize_axes, rank. by rewrite Hs. }
  destruct (np_sum d (Some [0%Z])) as [r|err] eqn:Hr.
  - exists r. split; [done|]. split; [|by eapply np_sum_wf].
    unfold np_sum in Hr. rewrite Hn, bind_Ok in Hr. injection Hr as <-.
    simpl. rewrite Hs. unfold drop_axes. simpl.
    rewrite (drop_axes_from_ge 1 [0]); [done|].
    intros i Hi%list_elem_of_singleton. lia.
  - unfold np_sum in Hr. by rewrite Hn in Hr.
Qed.

(** X16.  The gradient of [MatMul] with a batch of matrices on one side:
    for [A] of shape (k,n,m) and [B] of shape (m,p) the gradient for
    [B] is [transpose(A) @ out_grad] summed over the batch axis and has
    the shape of [B]; likewise for [A] of shape (n,m) and [B] of shape
    (k,m,p). *)
Theorem MatMul_gradient_batched (k n m p : nat) (A B out_grad : NDArray R) :
  shape out_grad = [k; n; p] →
  (shape A = [k; n; m] → shape B = [m; p] →
   ∃ C dA dB,
     matmul A B = Ok C ∧ shape C = [k; n; p] ∧
     gradient MatMul out_grad [A; B] = Ok [dA; dB] ∧
     (transpose B None ≫= λ tB, matmul out_grad tB) = Ok dA ∧
     (transpose A None ≫= λ tA, matmul tA out_grad ≫= λ d,
        summation d (AxesTuple [0%Z])) = Ok dB ∧
     shape dA = shape A ∧ shape dB = shape B ∧ wf dA ∧ wf dB) ∧
  (shape A = [n; m] → shape B = [k; m; p] →
   ∃ C dA dB,
     matmul A B = Ok C ∧ shape C = [k; n; p] ∧
     gradient MatMul out_grad [A; B] = Ok [dA; dB] ∧
     (transpose B None ≫= λ tB, matmul out_grad tB ≫= λ d,
        summation d (AxesTuple [0%Z])) = Ok dA ∧
     (transpose A None ≫= λ tA, matmul tA out_grad) = Ok dB ∧
     shape dA = shape A ∧ shape dB = shape B ∧ wf dA ∧ wf dB).
Proof.
  intros Hg. split; intros HA HB.
  - destruct (np_matmul_3_2 A B k n m p HA HB) as (C & HC & HsC & _).
    destruct (transpose_None_shape B [] m p HB) as (tB & HtB & HstB & _).
    destruct (np_matmul_3_2 out_grad tB k n p m Hg HstB)
      as (dx & Hdx & Hsdx & Hwdx).
    destruct (transpose_None_shape A [k] n m HA) as (tA & HtA & HstA & _).
    destruct (np_matmul_3_3 tA out_grad k m n p HstA Hg)
      as (dy & Hdy & Hsdy & _).
    destruct (np_sum_axis_0 dy k [m; p] Hsdy) as (dB & HdB & HsdB & HwdB).
    exists C, dx, dB.
    assert (summation dy (AxesTuple [0%Z]) = Ok dB) as Hsum by done.
    split_and!; try done; try congruence.
    + cbn [gradient MatMul_gradient]. rewrite HtB, bind_Ok.
      unfold Tensor_matmul, matmul, compute, MatMul_compute.
      rewrite Hdx, bind_Ok, HtA, bind_Ok, Hdy, bind_Ok.
      rewrite (bool_decide_false (shape dx ≠ shape A))
        by (intros Hne; apply Hne; congruence).
      rewrite bind_Ok.
      rewrite (bool_decide_true (shape dy ≠ shape B))
        by (rewrite Hsdy, HB; by intros [=]).
      unfold rank. rewrite Hsdy, HB. cbn [length Nat.sub seq map].
      change (Z.of_nat 0) with 0%Z. by rewrite Hsum.
    + rewrite HtB, bind_Ok. done.
    + rewrite HtA, bind_Ok. unfold matmul, compute, MatMul_compute.
      by rewrite Hdy, bind_Ok.
  - destruct (np_matmul_2_3 A B k n m p HA HB) as (C & HC & HsC & _).
    destruct (transpose_None_shape B [k] m p HB) as (tB & HtB & HstB & _).
    destruct (np_matmul_3_3 out_grad tB k n p m Hg HstB)
      as (dx & Hdx & Hsdx & _).
    destruct (np_sum_axis_0 dx k [n; m] Hsdx) as (dA & HdA & HsdA & HwdA).
    destruct (transpose_None_shape A [] n m HA) as (tA & HtA & HstA & _).
    destruct (np_matmul_2_3 tA out_grad k m n p HstA Hg)
      as (dy & Hdy & Hsdy & Hwdy).
    exists C, dA, dy.
    assert (summation dx (AxesTuple [0%Z]) = Ok dA) as Hsum by done.
    split_and!; try done; try congruence.
    + cbn [gradient MatMul_gradient]. rewrite HtB, bind_Ok.
      unfold Tensor_matmul, matmul, compute, MatMul_compute.
      rewrite Hdx, bind_Ok, HtA, bind_Ok, Hdy, bind_Ok.
      rewrite (bool_decide_true (shape dx ≠ shape A))
        by (rewrite Hsdx, HA; by intros [=]).
      unfold rank. rewrite Hsdx, HA. cbn [length Nat.sub seq map].
      change (Z.of_nat 0) with 0%Z. rewrite Hsum, bind_Ok.
      rewrite (bool_decide_false (shape dy ≠ shape B))
        by (intros Hne; apply Hne; congruence).
      done.
    + rewrite HtB, bind_Ok. unfold matmul, compute, MatMul_compute.
      by rewrite Hdx, bind_Ok.
    + rewrite HtA, bind_Ok. done.
Qed.

End MatMulCases.

Lemma MatMul_gradient_vector_operand_witness :
  let x := qarr [3] [1; 2; 3]%Z in
  let y := qarr [3] [1; 2; 3]%Z in
  matmul x y = Ok (qarr [] [14]%Z) ∧
  gradient MatMul (qarr [] [1]%Z) [x; y] = Err IndexError.
Proof.
  intros x y. split; [reflexivity|].
  destruct (@MatMul_gradient_vector_operand Qc Qc_scalar x y (qarr [] [1]%Z))
    as (e & He & _ & Hy).
  - right. unfold y. cbn. lia.
  - rewrite He. f_equal. apply Hy. unfold y. cbn. lia.
Defined.

Lemma MatMul_gradient_batched_witness :
  let A := qarr [2; 1; 2] [1; 2; 3; 4]%Z in
  let B := qarr [2; 1] [5; 6]%Z in
  let og := qarr [2; 1; 1] [1; 1]%Z in
  ∃ dA dB, gradient MatMul og [A; B] = Ok [dA; dB] ∧
           shape dA = [2; 1; 2] ∧ shape dB = [2; 1].
Proof.
  intros A B og.
  destruct (proj1 (@MatMul_gradient_batched Qc Qc_scalar 2 1 2 1 A B og
                     eq_refl) eq_refl eq_refl)
    as (C & dA & dB & _ & _ & Hg & _ & _ & HsA & HsB & _).
  exists dA, dB. split; [exact Hg|]. split; [exact HsA | exact HsB].
Defined.

(** * The application [apps/simple_ml.py] *)

(** ** [parse_mnist]: reading the MNIST files

    The two files are opened with [gzip.open] and read whole; the model
    starts from the decompressed contents, as byte strings. *)

Definition byte_val (b : Byte.byte) : Z := Z.of_N (Byte.to_N b).

(** [struct.unpack_from(">i", buf, offset)]: a big-endian signed 32-bit
    integer; [None] is [struct.error], raised when fewer than four bytes
    follow the offset. *)
Definition unpack_from_i32_be (buf : list Byte.byte) (offset : nat)
  : option Z :=
  match drop offset buf with
  | b0 :: b1 :: b2 :: b3 :: _ =>
      let u := (((byte_val b0 * 256 + byte_val b1) * 256 + byte_val b2) * 256
                + byte_val b3)%Z in
      Some (if bool_decide (u < 2 ^ 31)%Z then u else (u - 2 ^ 32)%Z)
  | _ => None
  end.

(** [numpy.frombuffer(buf, dtype=numpy.uint8, offset=offset)]: the bytes
    from [offset] on; [None] is the [ValueError] raised when the offset
    is greater than the length of the buffer. *)
Definition frombuffer_uint8 (buf : list Byte.byte) (offset : nat)
  : option (list Byte.byte) :=
  if bool_decide (offset ≤ length buf) then Some (drop offset buf) else None.

(** [x.reshape(num_images, -1)] of a one-dimensional array of [size]
    elements: numpy infers the second dimension when the first is
    positive and divides the size, and raises [ValueError] ([None])
    otherwise, also when the first dimension is zero or negative. *)
Definition reshape_rows (size : nat) (num_images : Z) : option (list nat) :=
  if bool_decide (0 < num_images)%Z
     && bool_decide (size `mod` Z.to_nat num_images = 0)
  then Some [Z.to_nat num_images; size / Z.to_nat num_images]
  else None.

(** The exceptions that leave [parse_mnist] (those of [gzip] apart). *)
Inductive mnist_error : Type :=
  | struct_error         (* [struct.error] of [unpack_from] *)
  | mnist_ValueError.    (* [ValueError] of [frombuffer] or [reshape] *)

Inductive mnist_result (R : Type) `{Scalar R} : Type :=
  | Parsed (x_norm : NDArray R) (y : list Byte.byte)
  | Raised (e : mnist_error).
Arguments Parsed {R _} x_norm y.
Arguments Raised {R _} e.

Section ParseMnist.
Context {R : Type} `{Scalar R}.
(** The conversion of an integer to an array element ([astype(float32)]
    of a byte, and the constant [255] that divides). *)
Variable of_int : Z → R.

Definition parse_mnist (image_file_content label_file_content
    : list Byte.byte) : mnist_result R :=
  match unpack_from_i32_be image_file_content 4 with
  | None => Raised struct_error
  | Some num_images =>
      match frombuffer_uint8 image_file_content 16 with
      | None => Raised mnist_ValueError
      | Some x =>
          match reshape_rows (length x) num_images with
          | None => Raised mnist_ValueError
          | Some s =>
              let x_norm :=
                mkArr s (map (λ b, s_div (of_int (byte_val b)) (of_int 255))
                             x) in
              match frombuffer_uint8 label_file_content 8 with
              | None => Raised mnist_ValueError
              | Some y => Parsed x_norm y
              end
          end
      end
  end.

End ParseMnist.

(** The byte of value [z], and the four bytes of a big-endian 32-bit
    integer in two's complement (what [struct.pack(">i", n)] writes). *)
Definition byte_of (z : Z) : Byte.byte :=
  default Byte.x00 (Byte.of_N (Z.to_N z)).

Definition pack_i32_be (n : Z) : list Byte.byte :=
  [byte_of ((n / 2 ^ 24) `mod` 256); byte_of ((n / 2 ^ 16) `mod` 256);
   byte_of ((n / 2 ^ 8) `mod` 256); byte_of (n `mod` 256)]%Z.

Lemma byte_val_byte_of (z : Z) :
  (0 ≤ z < 256)%Z → byte_val (byte_of z) = z.
Proof.
  intros Hz. unfold byte_val, byte_of.
  destruct (Byte.of_N (Z.to_N z)) as [b|] eqn:E; simpl.
  - apply Byte.to_of_N in E. rewrite E. lia.
  - apply Byte.of_N_None_iff in E. lia.
Qed.

Lemma byte_val_bounded (b : Byte.byte) : (0 ≤ byte_val b < 256)%Z.
Proof.
  unfold byte_val. pose proof (Byte.to_N_bounded b). lia.
Qed.

Lemma unpack_pack_i32_be (n : Z) (h rest : list Byte.byte) :
  (- 2 ^ 31 ≤ n < 2 ^ 31)%Z →
  unpack_from_i32_be (h ++ pack_i32_be n ++ rest) (length h) = Some n.
Proof.
  intros Hn. unfold unpack_from_i32_be.
  rewrite drop_app_length. unfold pack_i32_be. cbn [app].
  rewrite !byte_val_byte_of by (apply Z.mod_pos_bound; lia).
  f_equal.
  assert (((((n / 2 ^ 24) `mod` 256 * 256 + (n / 2 ^ 16) `mod` 256) * 256
            + (n / 2 ^ 8) `mod` 256) * 256 + n `mod` 256)%Z
          = (n `mod` 2 ^ 32)%Z) as ->.
  { change (2 ^ 24)%Z with 16777216%Z. change (2 ^ 16)%Z with 65536%Z.
    change (2 ^ 8)%Z with 256%Z. change (2 ^ 32)%Z with 4294967296%Z.
    Z.div_mod_to_equations. lia. }
  change (2 ^ 31)%Z with 2147483648%Z in *.
  change (2 ^ 32)%Z with 4294967296%Z.
  case_bool_decide; Z.div_mod_to_equations; lia.
Qed.

Section ParseMnistProperties.
Context {R : Type} `{Scalar R}.
Variable of_int : Z → R.

(** X17.  [parse_mnist] on files in the MNIST layout: an image file made of
    four bytes, the number [n] of images as a big-endian integer, eight
    more bytes and [n * d] pixel bytes, and a label file made of eight
    bytes and the labels.  The result is the [n] x [d] array of the
    pixels divided by 255 and the labels.  The bytes before and after
    the count (magic number, rows and columns), the header of the label
    file and the number of labels are not looked at. *)
Theorem parse_mnist_layout (magic dims lhead pixels labels : list Byte.byte)
    (n d : nat) :
  length magic = 4 → length dims = 8 → length lhead = 8 →
  0 < n → (Z.of_nat n < 2 ^ 31)%Z →
  length pixels = n * d →
  parse_mnist of_int (magic ++ pack_i32_be (Z.of_nat n) ++ dims ++ pixels)
                     (lhead ++ labels)
  = Parsed (mkArr [n; d]
              (map (λ b, s_div (of_int (byte_val b)) (of_int 255)) pixels))
           labels.
Proof.
  intros Hm Hd Hl Hn Hn31 Hp. unfold parse_mnist.
  rewrite <- Hm at 1. rewrite unpack_pack_i32_be by lia.
  unfold frombuffer_uint8.
  rewrite bool_decide_true
    by (rewrite !length_app, Hm; simpl; lia).
  assert (drop 16 (magic ++ pack_i32_be (Z.of_nat n) ++ dims ++ pixels)
          = pixels) as ->.
  { rewrite !app_assoc.
    apply drop_app_length'. rewrite !length_app, Hm, Hd. done. }
  unfold reshape_rows. rewrite Nat2Z.id, Hp, (Nat.mul_comm n d).
  rewrite bool_decide_true by lia.
  rewrite bool_decide_true by (apply Nat.Div0.mod_mul).
  cbn [andb]. rewrite Nat.div_mul by lia.
  rewrite bool_decide_true by (rewrite length_app; lia).
  rewrite <- Hl at 1. by rewrite drop_app_length.
Qed.

(** X18.  What [parse_mnist] raises: [struct.error] on an image file shorter
    than 8 bytes, [ValueError] on one shorter than 16 bytes, [ValueError]
    when the count of images is not positive or does not divide the
    number of pixel bytes, and, once the image file is accepted,
    [ValueError] on a label file shorter than 8 bytes. *)
Theorem parse_mnist_errors (img lbl : list Byte.byte) (n : Z) :
  (length img < 8 → parse_mnist of_int img lbl = Raised struct_error) ∧
  (8 ≤ length img < 16 →
   parse_mnist of_int img lbl = Raised mnist_ValueError) ∧
  (16 ≤ length img → unpack_from_i32_be img 4 = Some n →
   (n ≤ 0)%Z ∨ (length img - 16) `mod` Z.to_nat n ≠ 0 →
   parse_mnist of_int img lbl = Raised mnist_ValueError) ∧
  (16 ≤ length img → unpack_from_i32_be img 4 = Some n →
   (0 < n)%Z → (length img - 16) `mod` Z.to_nat n = 0 →
   length lbl < 8 →
   parse_mnist of_int img lbl = Raised mnist_ValueError).
Proof.
  assert (8 ≤ length img →
          ∃ m, unpack_from_i32_be img 4 = Some m) as Hsome.
  { intros Hk. unfold unpack_from_i32_be.
    destruct (drop 4 img) as [|b0 [|b1 [|b2 [|b3 rest]]]] eqn:E; eauto;
      apply (f_equal length) in E; rewrite length_drop in E;
      simpl in E; lia. }
  split_and!.
  - intros Hlen. unfold parse_mnist, unpack_from_i32_be.
    destruct (drop 4 img) as [|b0 [|b1 [|b2 [|b3 rest]]]] eqn:E; try done.
    apply (f_equal length) in E. rewrite length_drop in E. simpl in E. lia.
  - intros Hlen. unfold parse_mnist.
    destruct (Hsome ltac:(lia)) as [m ->].
    unfold frombuffer_uint8. by rewrite bool_decide_false by lia.
  - intros Hlen Hn Hbad. unfold parse_mnist. rewrite Hn.
    unfold frombuffer_uint8. rewrite bool_decide_true by lia.
    unfold reshape_rows. rewrite length_drop.
    destruct Hbad as [Hneg|Hmod].
    + by rewrite bool_decide_false by lia.
    + rewrite (bool_decide_false (_ = 0)) by done.
      by rewrite andb_false_r.
  - intros Hlen Hn Hpos Hmod Hl. unfold parse_mnist. rewrite Hn.
    unfold frombuffer_uint8. rewrite bool_decide_true by lia.
    unfold reshape_rows. rewrite length_drop.
    rewrite !bool_decide_true by done. cbn [andb].
    by rewrite bool_decide_false by lia.
Qed.

End ParseMnistProperties.

Definition q_of_int (z : Z) : Qc := Q2Qc (inject_Z z).

Lemma parse_mnist_layout_witness :
  let magic := [Byte.x00; Byte.x00; Byte.x08; Byte.x03] in
  let count := [Byte.x00; Byte.x00; Byte.x00; Byte.x02] in
  let dims := [Byte.x00; Byte.x00; Byte.x00; Byte.x01;
               Byte.x00; Byte.x00; Byte.x00; Byte.x02] in
  let pixels := [Byte.x00; Byte.xff; Byte.x33; Byte.x66] in
  let lhead := [Byte.x00; Byte.x00; Byte.x08; Byte.x01;
                Byte.x00; Byte.x00; Byte.x00; Byte.x02] in
  let labels := [Byte.x07; Byte.x02] in
  parse_mnist q_of_int (magic ++ count ++ dims ++ pixels) (lhead ++ labels)
  = Parsed (mkArr [2; 2]
              (map (λ z, Qcdiv (q_of_int z) (q_of_int 255))
                   [0; 255; 51; 102]%Z))
           labels.
Proof.
  intros magic count dims pixels lhead labels.
  exact (@parse_mnist_layout Qc Qc_scalar q_of_int magic dims lhead pixels
           labels 2 2 eq_refl eq_refl eq_refl ltac:(lia) ltac:(lia) eq_refl).
Defined.

Lemma parse_mnist_errors_witness :
  parse_mnist q_of_int [Byte.x00; Byte.x00; Byte.x08] [] = Raised struct_error ∧
  parse_mnist q_of_int (replicate 8 Byte.x00) [] = Raised mnist_ValueError.
Proof.
  destruct (@parse_mnist_errors Qc Qc_scalar q_of_int
              [Byte.x00; Byte.x00; Byte.x08] [] 0) as (H1 & _).
  destruct (@parse_mnist_errors Qc Qc_scalar q_of_int
              (replicate 8 Byte.x00) [] 0) as (_ & H2 & _).
  split; [apply H1 | apply H2]; simpl; lia.
Defined.

(** ** The backward pass on graphs whose gradients fit

    When every operator node of a graph returns, for an incoming
    gradient of the shape of its value, gradients of the shapes of its
    inputs, the backward pass of section 4.3 raises no exception and
    gives every node it reaches a gradient of the shape of its value. *)

Section BackwardFits.
Context {R : Type} `{Scalar R}.

Definition fits (g v : NDArray R) : Prop := wf g ∧ shape g = shape v.

(** Leaves have no inputs. *)
Definition leaves_ok (G : list (Tensor R)) : Prop :=
  ∀ i t, G !! i = Some t → operator t = None → inputs t = [].

(** The value of node [u] is well formed and, if [u] is an operator
    node, its gradient rule fits. *)
Definition node_fits (G : list (Tensor R)) (u : nat) : Prop :=
  ∀ t, G !! u = Some t →
    wf (cached_value t) ∧
    ∀ o, operator t = Some o →
      ∃ vals, mapM (realized G) (inputs t) = Ok vals ∧
        ∀ og, fits og (cached_value t) →
          ∃ gs, gradient o og vals = Ok gs ∧ grads_fit gs vals.

Definition contribs_fit (G : list (Tensor R))
    (m : gmap nat (list (NDArray R))) : Prop :=
  ∀ v t, G !! v = Some t →
         Forall (λ g, fits g (cached_value t)) (contribs m v).

Lemma add_fits (a b v : NDArray R) :
  fits a v → fits b v → ∃ c, add a b = Ok c ∧ fits c v.
Proof.
  intros [Ha Hsa] [Hb Hsb].
  destruct (np_binop_fit s_add a b) as (c & Hc & Hwc & Hsc);
    [done|done|congruence|].
  exists c. split; [done|]. split; [done|congruence].
Qed.

Lemma sum_node_list_fits (l : list (NDArray R)) (v : NDArray R) :
  l ≠ [] → Forall (λ g, fits g v) l →
  ∃ s, sum_node_list l = Ok s ∧ fits s v.
Proof.
  destruct l as [|x l]; [done|]. intros _ Hl.
  apply Forall_cons in Hl as [Hx Hl]. cbn [sum_node_list].
  revert x Hx. induction Hl as [|y l Hy _ IH]; intros x Hx.
  - by exists x.
  - rewrite foldlM_cons.
    destruct (add_fits x y v Hx Hy) as (c & Hc & Hfc).
    rewrite Hc, bind_Ok. by apply IH.
Qed.

Lemma mapM_realized_values (G : list (Tensor R)) (ins : list nat)
    (vals : list (NDArray R)) :
  mapM (realized G) ins = Ok vals →
  Forall2 (λ i val, ∃ t, G !! i = Some t ∧ val = cached_value t) ins vals.
Proof.
  revert vals. induction ins as [|i ins IH]; intros vals Hv.
  - simpl in Hv. injection Hv as <-. constructor.
  - apply mapM_realized_cons in Hv as (t & vals' & Ht & Hvals' & ->).
    constructor; eauto.
Qed.

Lemma Forall_zip_filter_snd {A B} (P : A → B → Prop) (Q : A * B → Prop)
    `{∀ p, Decision (Q p)} (l : list A) (k : list B) :
  Forall2 P l k →
  Forall (λ p, P p.1 p.2 ∧ Q p) (filter Q (zip l k)).
Proof.
  induction 1 as [|x y l k Hxy _ IH]; simpl; [constructor|].
  rewrite filter_cons. destruct (decide (Q (x, y))); [|done].
  by constructor.
Qed.

(** One step of the backward pass at a node where it fits. *)
Lemma backward_step_fits (G : list (Tensor R)) (st : BackwardState R)
    (u : nat) (t : Tensor R) :
  G !! u = Some t → node_fits G u →
  contribs (node_to_grads st) u ≠ [] →
  contribs_fit G (node_to_grads st) →
  ∃ st1 g, backward_step G st u = Ok st1 ∧
           contribs_fit G (node_to_grads st1) ∧
           grad st1 !! u = Some g ∧ fits g (cached_value t).
Proof.
  intros Ht Hfit Hne Hcf.
  destruct (Hfit t Ht) as [Hwv Hop].
  destruct (sum_node_list_fits _ (cached_value t) Hne (Hcf u t Ht))
    as (summed & Hsum & Hfs).
  unfold backward_step. rewrite Ht.
  fold (contribs (node_to_grads st) u). rewrite Hsum, bind_Ok.
  destruct (operator t) as [o|] eqn:Ho.
  - destruct (Hop o eq_refl) as (vals & Hvals & Hgrad).
    destruct (Hgrad summed Hfs) as (gs & Hgs & Hgf).
    rewrite Hvals, bind_Ok, Hgs, bind_Ok.
    eexists _, summed. split; [done|]. cbn [node_to_grads grad].
    split; [|by rewrite lookup_insert_eq].
    intros v tv Hv. rewrite contribs_foldl_append.
    apply Forall_app. split; [by apply Hcf|].
    apply Forall_fmap.
    pose proof (mapM_realized_values _ _ _ Hvals) as Hiv.
    assert (Forall2 (λ i g, ∀ tv, G !! i = Some tv →
                            fits g (cached_value tv)) (inputs t) gs) as Hig.
    { clear -Hiv Hgf. unfold grads_fit in Hgf.
      revert gs Hgf. induction Hiv as [|i val ins vals (ti & Hti & ->) _ IH];
        intros gs Hgf.
      - apply Forall2_nil_inv_r in Hgf as ->. constructor.
      - apply Forall2_cons_inv_r in Hgf as (g & gs' & Hg & Hgs' & ->).
        constructor; [|by apply IH].
        intros tv Htv. by simplify_eq. }
    eapply Forall_impl;
      [apply (Forall_zip_filter_snd _ (λ p, p.1 = v) _ _ Hig)|].
    intros [i g] [Hp Hi]. simpl in *. subst i. by apply Hp.
  - eexists _, summed. split; [done|]. cbn [node_to_grads grad].
    split; [done|]. by rewrite lookup_insert_eq.
Qed.

(** The pass over the rest of the order. *)
Lemma backward_fold_fits (G : list (Tensor R)) (root : nat)
    (todo seen : list nat) (st : BackwardState R) :
  arity_ok G → leaves_ok G →
  NoDup (seen ++ todo) →
  (∀ o1 u o2 t v, seen ++ todo = o1 ++ u :: o2 → G !! u = Some t →
                  v ∈ inputs t → v ∈ o2) →
  (∀ u, u ∈ seen ++ todo →
        u = root ∨
        ∃ w t, w ∈ seen ++ todo ∧ G !! w = Some t ∧ u ∈ inputs t) →
  (∀ u, u ∈ todo → u < length G ∧ node_fits G u) →
  backward_inv G root seen st →
  contribs_fit G (node_to_grads st) →
  (∀ v t, v ∈ seen → G !! v = Some t →
          ∃ g, grad st !! v = Some g ∧ fits g (cached_value t)) →
  ∃ st', foldlM (backward_step G) st todo = Ok st' ∧
         ∀ v t, v ∈ seen ++ todo → G !! v = Some t →
                ∃ g, grad st' !! v = Some g ∧ fits g (cached_value t).
Proof.
  intros Har Hleaf. revert seen st.
  induction todo as [|u todo IH];
    intros seen st Hnd Htopo Hcons Hfit Hinv Hcf Hseen.
  - exists st. split; [done|]. rewrite app_nil_r. apply Hseen.
  - destruct (Hfit u ltac:(by left)) as [Hlt Hnf].
    destruct (lookup_lt_is_Some_2 G u Hlt) as [t Ht].
    apply NoDup_app in Hnd as Hnd'. destruct Hnd' as (Hnds & Hdisj & Hnd2).
    apply NoDup_cons in Hnd2 as [Hu2 Hndt].
    assert (u ∉ seen) as Hus.
    { intros Hu. apply (Hdisj u Hu). by left. }
    (* the node has received a contribution *)
    assert (contribs (node_to_grads st) u ≠ []) as Hne.
    { destruct Hinv as [Hlen _]. intros Hnil.
      pose proof (Hlen u) as Hl. rewrite Hnil in Hl. simpl in Hl.
      destruct (Hcons u) as [->|(w & tw & Hw & Htw & Hin)].
      - apply elem_of_app. right. by left.
      - unfold seed in Hl. by rewrite decide_True in Hl.
      - assert (w ∈ seen) as Hws.
        { apply elem_of_app in Hw as [Hw|Hw]; [done|].
          exfalso. apply elem_of_cons in Hw as [->|Hw].
          - assert (u ∈ todo); [|done].
            by eapply (Htopo seen u todo).
          - apply list_elem_of_split in Hw as (t1 & t2 & ->).
            assert (u ∈ t2) as Hu'.
            { eapply (Htopo (seen ++ u :: t1) w t2); [|done|done].
              by rewrite <- app_assoc. }
            apply Hu2. apply elem_of_app. right. by right. }
        assert (1 ≤ uses G w u) as Huse.
        { unfold uses. rewrite Htw.
          destruct (operator tw) as [o|] eqn:Ho.
          - apply list_elem_of_split in Hin as (i1 & i2 & ->).
            rewrite filter_app, filter_cons_True, length_app by done.
            simpl. lia.
          - rewrite (Hleaf w tw Htw Ho) in Hin. by apply elem_of_nil in Hin. }
        pose proof (sum_list_with_in w (λ w, uses G w u) seen Hws). lia. }
    destruct (backward_step_fits G st u t Ht Hnf Hne Hcf)
      as (st1 & g & Hstep & Hcf1 & Hg & Hfg).
    assert (backward_inv G root (seen ++ [u]) st1) as Hinv1.
    { eapply backward_step_inv; [done|done|done| |done].
      intros t' v Ht' Hv.
      assert (v ∈ todo) as Hvt by by eapply (Htopo seen u todo).
      split.
      - intros Hvd. apply (Hdisj v Hvd). by right.
      - intros ->. done. }
    destruct (IH (seen ++ [u]) st1) as (st' & Hfold & Hall).
    + by rewrite <- app_assoc.
    + intros o1 w o2 tw v Heq. apply (Htopo o1).
      by rewrite <- Heq, <- app_assoc.
    + intros w Hw. rewrite <- app_assoc in Hw. simpl in Hw.
      destruct (Hcons w Hw) as [?|(w' & tw & Hw' & ?)]; [by left|].
      right. exists w', tw. by rewrite <- app_assoc.
    + intros w Hw. apply Hfit. by right.
    + done.
    + done.
    + intros v tv [Hv|Hv%list_elem_of_singleton]%elem_of_app Htv.
      * destruct (Hseen v tv Hv Htv) as (gv & Hgv & Hfv).
        exists gv. split; [|done].
        rewrite (backward_step_grad_other G st st1 u v Hstep); [done|].
        by intros ->.
      * subst v. simplify_eq. by exists g.
    + exists st'. rewrite foldlM_cons, Hstep, bind_Ok. split; [done|].
      intros v tv Hv. apply Hall. by rewrite <- app_assoc.
Qed.

Lemma reachable_last (G : list (Tensor R)) (r u : nat) :
  reachable G r u →
  u = r ∨ ∃ w t, reachable G r w ∧ G !! w = Some t ∧ u ∈ inputs t.
Proof.
  induction 1 as [r|r t v u Ht Hv Hvu IH]; [by left|].
  right. destruct IH as [->|(w & tw & Hvw & Htw & Hin)].
  - exists r, t. split; [constructor|done].
  - exists w, tw. split; [|done]. by econstructor.
Qed.

(** The backward pass from [root] with the seed [out_grad]. *)
Lemma backward_pass_fits (G : list (Tensor R)) (root : nat)
    (out_grad : NDArray R) (troot : Tensor R) :
  wf_graph G → arity_ok G → leaves_ok G →
  G !! root = Some troot →
  (∀ u, reachable G root u → node_fits G u) →
  fits out_grad (cached_value troot) →
  ∃ st, compute_gradient_of_variables G root out_grad = Ok st ∧
        ∀ v t, reachable G root v → G !! v = Some t →
               ∃ g, grad st !! v = Some g ∧ fits g (cached_value t).
Proof.
  intros Hwf Har Hleaf Hroot Hfit Hog.
  assert (root < length G) as Hlt by by eapply lookup_lt_Some.
  destruct (find_topo_sort_spec G root Hwf Hlt)
    as (order & Hord & Hnd & Hreach & Htopo).
  unfold compute_gradient_of_variables. rewrite Hord, bind_Ok.
  destruct (backward_fold_fits G root order []
              (mkState {[ root := [out_grad] ]} ∅))
    as (st & Hfold & Hall); try done.
  - intros u Hu%Hreach.
    destruct (reachable_last _ _ _ Hu) as [?|(w & t & Hw & Ht & Hin)];
      [by left|].
    right. exists w, t. split; [|done]. by apply Hreach.
  - intros u Hu%Hreach. split; [|by apply Hfit].
    clear -Hu Hlt Hwf. induction Hu as [|u t v w Ht Hv _ IH]; [done|].
    apply IH. pose proof (Hwf u t Ht) as Hins.
    rewrite Forall_forall in Hins. apply Hins in Hv.
    apply lookup_lt_Some in Ht. lia.
  - split; simpl.
    + intros v. unfold contribs, seed.
      destruct (decide (v = root)) as [->|Hne].
      * by rewrite lookup_singleton_eq.
      * by rewrite lookup_singleton_ne.
    + intros v Hv. by apply elem_of_nil in Hv.
  - intros v t Hv. unfold contribs. cbn [node_to_grads].
    destruct (decide (v = root)) as [->|Hne].
    + rewrite lookup_singleton_eq. simpl. simplify_eq. by constructor.
    + rewrite lookup_singleton_ne by done. constructor.
  - intros v t Hv. by apply elem_of_nil in Hv.
  - exists st. split; [done|]. intros v t Hv. apply Hall. by apply Hreach.
Qed.

End BackwardFits.

(** ** [softmax_loss] and [nn_epoch] *)

Section SimpleML.
Context {R : Type} `{Scalar R}.
(** The conversion of a Python [int] to an array element (the division
    by [batch_size]). *)
Variable of_int : Z → R.

(** Modelled from the spec: the methods of [Tensor] that [simple_ml.py]
    calls ([autograd.py] is not among the sources at hand).  Section 4.1:
    each of them "construct[s] a new node via the matching Operator";
    so [a.sum(axes)] is [Summation(axes)(a)], [a * b] is
    [EWiseMul()(a, b)], [a @ b] is [MatMul()(a, b)] and [a / c] for a
    Python number [c] is [DivScalar(c)(a)].  [ops.py] has no operator for
    the difference: [a - b] is [EWiseAdd()(a, Negate()(b))].  [a.shape]
    is the shape of the realized value.

    [softmax_loss(z, y_one_hot)] on two nodes of the arena [G]; the
    result is the extended arena and the node of the loss. *)
Definition softmax_loss (G : list (Tensor R)) (z y_one_hot : nat)
  : result (list (Tensor R) * nat) :=
  zv ← realized G z;
  batch_size ← py_getitem (shape zv) 0;
  '(G, e) ← make_from_op G Exp [z];
  '(G, z0) ← make_from_op G (Summation_init (AxesInt 1)) [e];
  '(G, l) ← make_from_op G Log [z0];
  '(G, z1) ← make_from_op G (Summation_init AxesNone) [l];
  '(G, zy) ← make_from_op G EWiseMul [z; y_one_hot];
  '(G, z_y) ← make_from_op G (Summation_init AxesNone) [zy];
  '(G, nz) ← make_from_op G Negate [z_y];
  '(G, d) ← make_from_op G EWiseAdd [z1; nz];
  make_from_op G (DivScalar (of_int (Z.of_nat batch_size))) [d].

(** [range(0, stop, step)]: [ValueError] when the step is zero. *)
Definition py_range (stop : nat) (step : Z) : result (list nat) :=
  if bool_decide (step = 0)%Z then Err ValueError
  else if bool_decide (step < 0)%Z then Ok []
  else Ok (map (λ k, k * Z.to_nat step)
               (seq 0 ((stop + Z.to_nat step - 1) / Z.to_nat step))).

(** [x[i:j]] for [0 <= i <= j] on a numpy array: the rows from [i] up
    to [j], as many as there are; an array without dimensions cannot be
    sliced. *)
Definition np_rows (x : NDArray R) (i j : nat) : result (NDArray R) :=
  match shape x with
  | [] => Err IndexError
  | n :: s =>
      let lo := i `min` n in
      let hi := j `min` n in
      Ok (mkArr ((hi - lo) :: s)
                (take ((hi - lo) * numel s) (drop (lo * numel s) (data x))))
  end.

(** [numpy.eye(num_classes)[y_batch]] for an array of [uint8] labels:
    row [r] is the row [y_batch[r]] of the identity matrix;
    [IndexError] when a label is not below [num_classes]. *)
Definition one_hot (num_classes : nat) (y_batch : list nat)
  : result (NDArray R) :=
  if forallb (λ l, l <? num_classes) y_batch
  then Ok (mkArr [length y_batch; num_classes]
             (concat (map (λ l, map (λ c, if c =? l then s_one else s_zero)
                                    (seq 0 num_classes))
                          y_batch)))
  else Err IndexError.

(** [w.numpy() - lr * w.grad.numpy()] on numpy arrays; the difference
    of two floating-point numbers is the sum with the negated one. *)
Definition sgd_update (w g : NDArray R) (lr : R) : result (NDArray R) :=
  np_binop (λ p q, s_add p (s_neg q)) w (np_map (λ v, s_mul lr v) g).

(** Modelled from the spec: [w.grad] after [loss.backward()] ("read
    access to [.grad]", section 6); a node that the pass did not reach
    has none. *)
Definition grad_of (st : BackwardState R) (node : nat)
  : result (NDArray R) :=
  match grad st !! node with
  | Some g => Ok g
  | None => Err TypeError
  end.

(** The body of the loop of [nn_epoch] for the batch that starts at
    [i].  The state of the loop is the arena with the identities of the
    tensors that [w1] and [w2] are bound to: in the first iteration the
    tensors of the caller, with the history they have, afterwards the
    leaves that [Tensor(...)] builds from the updated arrays.
    [x_batch] and the one-hot labels enter as leaves. *)
Definition nn_step (x : NDArray R) (y : list nat) (num_classes batch : nat)
    (lr : R) (s : list (Tensor R) * nat * nat) (i : nat)
  : result (list (Tensor R) * nat * nat) :=
  let '(G, w1, w2) := s in
  x_batch ← np_rows x i (i + batch);
  let y_batch := take batch (drop i y) in
  let '(G, x_tensor) := make_leaf G x_batch true in
  '(G, h) ← make_from_op G MatMul [x_tensor; w1];
  '(G, r) ← make_from_op G ReLU [h];
  '(G, z) ← make_from_op G MatMul [r; w2];
  oh ← one_hot num_classes y_batch;
  let '(G, y_one_hot) := make_leaf G oh true in
  '(G, loss) ← softmax_loss G z y_one_hot;
  st ← backward G loss;
  w1v ← realized G w1;
  g1 ← grad_of st w1;
  w1a ← sgd_update w1v g1 lr;
  let '(G, w1') := make_leaf G w1a true in
  w2v ← realized G w2;
  g2 ← grad_of st w2;
  w2a ← sgd_update w2v g2 lr;
  let '(G, w2') := make_leaf G w2a true in
  Ok (G, w1', w2').

(** [nn_epoch(x, y, w1, w2, lr, batch)] for tensors [w1] and [w2] of
    the arena [G]; the result is the arena with the tensors returned. *)
Definition nn_epoch (G : list (Tensor R)) (x : NDArray R) (y : list nat)
    (w1 w2 : nat) (lr : R) (batch : Z)
  : result (list (Tensor R) * nat * nat) :=
  num_examples ← py_getitem (shape x) 0;
  w2v ← realized G w2;
  num_classes ← py_getitem (shape w2v) 1;
  starts ← py_range num_examples batch;
  foldlM (nn_step x y num_classes (Z.to_nat batch) lr) (G, w1, w2) starts.

End SimpleML.

Section SimpleMLProperties.
Context {R : Type} `{Scalar R}.
Variable of_int : Z → R.

Lemma realized_app_l (G G' : list (Tensor R)) (i : nat) :
  i < length G → realized (G ++ G') i = realized G i.
Proof. intros Hi. unfold realized. by rewrite lookup_app_l. Qed.

Lemma realized_snoc (G : list (Tensor R)) (t : Tensor R) :
  realized (G ++ [t]) (length G) = Ok (cached_value t).
Proof.
  unfold realized. by rewrite lookup_app_r, Nat.sub_diag by lia.
Qed.

Lemma realized_lt (G : list (Tensor R)) (i : nat) (v : NDArray R) :
  realized G i = Ok v → i < length G.
Proof.
  unfold realized. destruct (G !! i) eqn:E; [|done].
  intros _. by eapply lookup_lt_Some.
Qed.

Lemma make_from_op_1 (G : list (Tensor R)) (o : Op R) (a : nat)
    (va v : NDArray R) :
  realized G a = Ok va → compute o [va] = Ok v →
  make_from_op G o [a] = Ok (G ++ [mkTensor (Some o) [a] v true], length G).
Proof.
  intros Ha Hv. unfold make_from_op. simpl. rewrite Ha. simpl.
  by rewrite Hv.
Qed.

Lemma make_from_op_2 (G : list (Tensor R)) (o : Op R) (a b : nat)
    (va vb v : NDArray R) :
  realized G a = Ok va → realized G b = Ok vb →
  compute o [va; vb] = Ok v →
  make_from_op G o [a; b]
    = Ok (G ++ [mkTensor (Some o) [a; b] v true], length G).
Proof.
  intros Ha Hb Hv. unfold make_from_op. simpl. rewrite Ha. simpl.
  rewrite Hb. simpl. by rewrite Hv.
Qed.

(** The values that [softmax_loss] computes from logits [zv] and
    one-hot labels [yv] of shape (b,c). *)
Definition softmax_exp (zv : NDArray R) : NDArray R := np_exp zv.
Definition softmax_z0 (zv : NDArray R) (b c : nat) : NDArray R :=
  mkArr [b]
    (map (λ i, add_reduce
                 (map (λ j, nth (i * c + j) (data (softmax_exp zv)) s_zero)
                      (seq 0 c)))
         (seq 0 b)).
Definition softmax_log (zv : NDArray R) (b c : nat) : NDArray R :=
  np_log (softmax_z0 zv b c).
Definition softmax_z1 (zv : NDArray R) (b c : nat) : NDArray R :=
  mkArr [] [add_reduce (data (softmax_log zv b c))].
Definition softmax_zy (zv yv : NDArray R) (b c : nat) : NDArray R :=
  mkArr [b; c] (zip_with s_mul (data zv) (data yv)).
Definition softmax_z_y (zv yv : NDArray R) (b c : nat) : NDArray R :=
  mkArr [] [add_reduce (data (softmax_zy zv yv b c))].
Definition softmax_neg (zv yv : NDArray R) (b c : nat) : NDArray R :=
  np_negative (softmax_z_y zv yv b c).
Definition softmax_diff (zv yv : NDArray R) (b c : nat) : NDArray R :=
  mkArr [] (zip_with s_add (data (softmax_z1 zv b c))
                           (data (softmax_neg zv yv b c))).
Definition softmax_value (zv yv : NDArray R) (b c : nat) : NDArray R :=
  np_map (λ v, s_div v (of_int (Z.of_nat b))) (softmax_diff zv yv b c).

(** The nodes that [softmax_loss] appends to an arena of [n] nodes. *)
Definition softmax_loss_nodes (n z y : nat) (zv yv : NDArray R)
    (b c : nat) : list (Tensor R) :=
  [mkTensor (Some Exp) [z] (softmax_exp zv) true;
   mkTensor (Some (Summation (Some [1%Z]))) [n] (softmax_z0 zv b c) true;
   mkTensor (Some Log) [n + 1] (softmax_log zv b c) true;
   mkTensor (Some (Summation None)) [n + 2] (softmax_z1 zv b c) true;
   mkTensor (Some EWiseMul) [z; y] (softmax_zy zv yv b c) true;
   mkTensor (Some (Summation None)) [n + 4] (softmax_z_y zv yv b c) true;
   mkTensor (Some Negate) [n + 5] (softmax_neg zv yv b c) true;
   mkTensor (Some EWiseAdd) [n + 3; n + 6] (softmax_diff zv yv b c) true;
   mkTensor (Some (DivScalar (of_int (Z.of_nat b)))) [n + 7]
            (softmax_value zv yv b c) true].

Lemma softmax_loss_graph (G : list (Tensor R)) (z y : nat)
    (zv yv : NDArray R) (b c : nat) :
  realized G z = Ok zv → realized G y = Ok yv →
  wf zv → wf yv → shape zv = [b; c] → shape yv = [b; c] →
  softmax_loss of_int G z y
  = Ok (G ++ softmax_loss_nodes (length G) z y zv yv b c, length G + 8).
Proof.
  intros Hz Hy Hwz Hwy Hsz Hsy.
  pose proof (realized_lt _ _ _ Hz) as Hzlt.
  pose proof (realized_lt _ _ _ Hy) as Hylt.
  assert (length (data zv) = b * c) as Hlz.
  { unfold wf in Hwz. rewrite Hwz, Hsz. unfold numel. simpl. lia. }
  assert (length (data yv) = b * c) as Hly.
  { unfold wf in Hwy. rewrite Hwy, Hsy. unfold numel. simpl. lia. }
  unfold softmax_loss. rewrite Hz, bind_Ok, Hsz.
  change (py_getitem [b; c] 0) with (Ok b : result nat). rewrite bind_Ok.
  (* exp *)
  rewrite (make_from_op_1 G Exp z zv (softmax_exp zv)) by done.
  rewrite bind_Ok. cbv beta iota.
  (* sum(1) *)
  rewrite (make_from_op_1 _ (Summation_init (AxesInt 1)) _
             (softmax_exp zv) (softmax_z0 zv b c)).
  2:{ apply realized_snoc. }
  2:{ unfold softmax_exp, np_exp, np_map. rewrite Hsz.
      apply (summation_last_axis_2d b c _ 1); [by left|].
      by rewrite length_map. }
  rewrite bind_Ok. cbv beta iota.
  (* log *)
  rewrite (make_from_op_1 _ Log _ (softmax_z0 zv b c) (softmax_log zv b c));
    [|apply realized_snoc|done].
  rewrite bind_Ok. cbv beta iota.
  (* sum() *)
  rewrite (make_from_op_1 _ (Summation_init AxesNone) _
             (softmax_log zv b c) (softmax_z1 zv b c)).
  2:{ apply realized_snoc. }
  2:{ apply np_sum_all_axes. unfold wf, softmax_log, np_log, np_map. simpl.
      rewrite !length_map, length_seq. unfold numel. simpl. lia. }
  rewrite bind_Ok. cbv beta iota.
  (* z * y_one_hot *)
  rewrite (make_from_op_2 _ EWiseMul z y zv yv (softmax_zy zv yv b c)).
  2:{ rewrite !realized_app_l by (rewrite ?length_app; simpl; lia). done. }
  2:{ rewrite !realized_app_l by (rewrite ?length_app; simpl; lia). done. }
  2:{ cbn [compute]. unfold EWiseMul_compute, np_mul.
      rewrite np_binop_same_shape by (done || congruence).
      unfold softmax_zy. by rewrite Hsz. }
  rewrite bind_Ok. cbv beta iota.
  (* summation *)
  rewrite (make_from_op_1 _ (Summation_init AxesNone) _
             (softmax_zy zv yv b c) (softmax_z_y zv yv b c)).
  2:{ apply realized_snoc. }
  2:{ apply np_sum_all_axes. unfold wf, softmax_zy. simpl.
      rewrite length_zip_with, Hlz, Hly. unfold numel. simpl. lia. }
  rewrite bind_Ok. cbv beta iota.
  (* z1 - z_y *)
  rewrite (make_from_op_1 _ Negate _
             (softmax_z_y zv yv b c) (softmax_neg zv yv b c));
    [|apply realized_snoc|done].
  rewrite bind_Ok. cbv beta iota.
  rewrite (make_from_op_2 _ EWiseAdd _ _ (softmax_z1 zv b c)
             (softmax_neg zv yv b c) (softmax_diff zv yv b c)).
  2:{ rewrite !realized_app_l by (rewrite ?length_app; simpl; lia).
      apply realized_snoc. }
  2:{ apply realized_snoc. }
  2:{ cbn [compute]. unfold EWiseAdd_compute, np_add.
      by rewrite np_binop_same_shape. }
  rewrite bind_Ok. cbv beta iota.
  (* / batch_size *)
  rewrite (make_from_op_1 _ (DivScalar (of_int (Z.of_nat b))) _
             (softmax_diff zv yv b c) (softmax_value zv yv b c));
    [|apply realized_snoc|done].
  unfold softmax_loss_nodes. rewrite <- !app_assoc. simpl.
  rewrite !length_app. simpl.
  repeat (f_equal; try lia).
Qed.

End SimpleMLProperties.

Lemma nth_map_lt {A B} (f : A → B) (l : list A) (k : nat) (d : B) (d' : A) :
  k < length l → nth k (map f l) d = f (nth k l d').
Proof.
  intros Hk. rewrite (nth_indep _ d (f d')) by (by rewrite length_map).
  apply map_nth.
Qed.

Section SoftmaxLoss.
Context {R : Type} `{Scalar R}.
Variable of_int : Z → R.

Lemma make_from_op_1_Err (G : list (Tensor R)) (o : Op R) (a : nat)
    (va : NDArray R) (e : error) :
  realized G a = Ok va → compute o [va] = Err e →
  make_from_op G o [a] = Err e.
Proof.
  intros Ha Hv. unfold make_from_op. simpl. rewrite Ha. simpl.
  by rewrite Hv.
Qed.

(** X19.  [softmax_loss] on logits [z] and one-hot labels [y_one_hot] of shape
    (b,c): nine nodes are appended to the graph, and the loss is the
    array of shape [()] that holds
    [(sum_i log(sum_j exp(z[i,j])) - sum_ij z[i,j] * y[i,j]) / b],
    the difference being the sum with the negated second term. *)
Theorem softmax_loss_value (G : list (Tensor R)) (z y : nat)
    (zv yv : NDArray R) (b c : nat) :
  realized G z = Ok zv → realized G y = Ok yv →
  wf zv → wf yv → shape zv = [b; c] → shape yv = [b; c] →
  ∃ nodes,
    softmax_loss of_int G z y = Ok (G ++ nodes, length G + 8) ∧
    length nodes = 9 ∧
    realized (G ++ nodes) (length G + 8)
    = Ok (mkArr []
            [s_div
               (s_add
                  (add_reduce
                     (map (λ i, s_log
                                  (add_reduce
                                     (map (λ j, s_exp (nth (i * c + j)
                                                           (data zv) s_zero))
                                          (seq 0 c))))
                          (seq 0 b)))
                  (s_neg (add_reduce (zip_with s_mul (data zv) (data yv)))))
               (of_int (Z.of_nat b))]).
Proof.
  intros Hz Hy Hwz Hwy Hsz Hsy.
  exists (softmax_loss_nodes of_int (length G) z y zv yv b c).
  split; [by apply softmax_loss_graph|]. split; [done|].
  unfold realized. rewrite lookup_app_r by lia.
  replace (length G + 8 - length G) with 8 by lia.
  cbn [softmax_loss_nodes lookup list_lookup cached_value].
  unfold softmax_value, softmax_diff, softmax_neg, softmax_z_y, softmax_zy,
    softmax_z1, softmax_log, softmax_z0, softmax_exp, np_negative, np_log,
    np_exp, np_map.
  cbn [shape data map zip_with]. do 6 f_equal.
  rewrite map_map. apply map_ext_in. intros i Hi%in_seq. do 2 f_equal.
  apply map_ext_in. intros j Hj%in_seq.
  apply nth_map_lt.
  unfold wf in Hwz. rewrite Hwz, Hsz. unfold numel. simpl. nia.
Qed.

(** X20.  [softmax_loss] needs a matrix of logits: on a tensor without
    dimensions [z.shape[0]] raises [IndexError], on a vector
    [exp(z).sum(1)] raises numpy's [AxisError]. *)
Theorem softmax_loss_rank_errors (G : list (Tensor R)) (z y : nat)
    (zv : NDArray R) :
  realized G z = Ok zv →
  (shape zv = [] → softmax_loss of_int G z y = Err IndexError) ∧
  (∀ n, shape zv = [n] → softmax_loss of_int G z y = Err AxisError).
Proof.
  intros Hz. split.
  - intros Hs. unfold softmax_loss. by rewrite Hz, bind_Ok, Hs.
  - intros n Hs. unfold softmax_loss. rewrite Hz, bind_Ok, Hs.
    change (py_getitem [n] 0) with (Ok n : result nat). rewrite bind_Ok.
    rewrite (make_from_op_1 G Exp z zv (np_exp zv)) by done.
    rewrite bind_Ok. cbv beta iota.
    assert (compute (Summation_init (AxesInt 1)) [np_exp zv]
            = Err AxisError) as Hc.
    { cbn [compute Summation_init]. unfold Summation_compute, np_sum, rank.
      cbn [np_exp np_map shape]. by rewrite Hs. }
    rewrite (make_from_op_1_Err _ (Summation_init (AxesInt 1)) _
               (np_exp zv) AxisError); [done|apply realized_snoc|done].
Qed.

End SoftmaxLoss.

(** ** Operators whose gradients fit, as [nn_epoch] uses them *)

Section OperatorFits.
Context {R : Type} `{Scalar R}.

Lemma unary_fits (o : Op R) (x y out_grad : NDArray R) :
  is_unary_elementwise o = true → wf x →
  compute o [x] = Ok y → fits out_grad y →
  ∃ gs, gradient o out_grad [x] = Ok gs ∧ grads_fit gs [x].
Proof.
  intros Ho Hx Hy [Hwg Hsg].
  destruct (unary_elementwise_fit o x (mkArr (shape x) (data x)))
    as (y' & _ & Hy' & _ & Hsy' & _); [done|by destruct x|done|done|].
  rewrite Hy in Hy'. injection Hy' as <-.
  destruct (unary_elementwise_fit o x out_grad)
    as (_ & g & _ & _ & _ & Hg & Hwf & Hs); [done|done|done|congruence|].
  exists [g]. split; [done|]. by repeat constructor.
Qed.

Lemma MatMul_fits_2d (x y out_grad : NDArray R) (n m p : nat) :
  shape x = [n; m] → shape y = [m; p] →
  wf out_grad → shape out_grad = [n; p] →
  ∃ gs, gradient MatMul out_grad [x; y] = Ok gs ∧ grads_fit gs [x; y].
Proof.
  intros Hx Hy Hwg Hg.
  destruct (transpose_None_shape y [] m p Hy) as (ty & Hty & Hsty & _).
  destruct (np_matmul_2_2 out_grad ty n p m Hg Hsty)
    as (dx & Hdx & Hsdx & Hwdx).
  destruct (transpose_None_shape x [] n m Hx) as (tx & Htx & Hstx & _).
  destruct (np_matmul_2_2 tx out_grad m n p Hstx Hg)
    as (dy & Hdy & Hsdy & Hwdy).
  exists [dx; dy]. split.
  - cbn [gradient MatMul_gradient]. rewrite Hty, bind_Ok.
    unfold Tensor_matmul, matmul, compute, MatMul_compute.
    rewrite Hdx, bind_Ok, Htx, bind_Ok, Hdy, bind_Ok.
    rewrite (bool_decide_false (shape dx ≠ shape x))
      by (intros Hne; apply Hne; congruence).
    rewrite bind_Ok.
    rewrite (bool_decide_false (shape dy ≠ shape y))
      by (intros Hne; apply Hne; congruence).
    done.
  - repeat constructor; (done || congruence).
Qed.

Lemma Summation_fits (axes : option (list Z)) (x y out_grad : NDArray R) :
  axes ≠ Some [] →
  np_sum x axes = Ok y → fits out_grad y →
  ∃ gs, gradient (Summation axes) out_grad [x] = Ok gs ∧ grads_fit gs [x].
Proof.
  intros Hne Hy [Hwg Hsg].
  destruct (Summation_gradient_shape_of_input axes x y out_grad)
    as (g & Hg & Hs); [done|by destruct axes|done|].
  exists [g]. split; [done|]. repeat constructor; [|done].
  cbn [gradient Summation_gradient] in Hg.
  apply bind_Ok_inv in Hg as (ss & _ & Hg).
  apply bind_Ok_inv in Hg as (og' & _ & Hg).
  apply bind_Ok_inv in Hg as (g' & Hg' & Hg).
  injection Hg as <-. by eapply np_binop_wf.
Qed.

Lemma EWiseMul_fits (lhs rhs out_grad : NDArray R) :
  wf lhs → wf rhs → shape rhs = shape lhs →
  wf out_grad → shape out_grad = shape lhs →
  ∃ gs, gradient EWiseMul out_grad [lhs; rhs] = Ok gs ∧
        grads_fit gs [lhs; rhs].
Proof.
  intros Hl Hr Hsr Hg Hsg.
  destruct (np_binop_fit s_mul out_grad rhs) as (g1 & Hg1 & Hw1 & Hs1);
    [done|done|congruence|].
  destruct (np_binop_fit s_mul out_grad lhs) as (g2 & Hg2 & Hw2 & Hs2);
    [done|done|congruence|].
  exists [g1; g2]. split.
  - cbn [gradient EWiseMul_gradient].
    unfold Tensor_mul, multiply, compute, EWiseMul_compute, np_mul.
    by rewrite Hg1, bind_Ok, Hg2, bind_Ok.
  - repeat constructor; (done || congruence).
Qed.

Lemma EWiseAdd_fits (a b out_grad : NDArray R) :
  shape b = shape a → wf out_grad → shape out_grad = shape a →
  ∃ gs, gradient EWiseAdd out_grad [a; b] = Ok gs ∧ grads_fit gs [a; b].
Proof.
  intros Hb Hg Hsg. exists [out_grad; out_grad]. split; [done|].
  repeat constructor; (done || congruence).
Qed.

End OperatorFits.

(** ** One step of [nn_epoch] *)

Section NnStep.
Context {R : Type} `{Scalar R}.
Variable of_int : Z → R.

(** An arena as [make_leaf] and [make_from_op] build it: nodes come
    after their inputs, operator nodes have as many inputs as their
    operator takes, and leaves have none. *)
Definition arena_ok (G : list (Tensor R)) : Prop :=
  wf_graph G ∧ arity_ok G ∧ leaves_ok G.

(** Node [w] is a leaf that holds a well-formed array of shape [s]. *)
Definition leaf_of_shape (G : list (Tensor R)) (w : nat) (s : list nat)
  : Prop :=
  ∃ t, G !! w = Some t ∧ operator t = None ∧
       wf (cached_value t) ∧ shape (cached_value t) = s.

Lemma arena_ok_leaf (G : list (Tensor R)) (x : NDArray R) (rg : bool) :
  arena_ok G → arena_ok (G ++ [mkTensor None [] x rg]).
Proof.
  intros (Hwf & Har & Hleaf). split_and!.
  - intros i t [Hi|[_ Hi]]%lookup_app_Some; [by eapply Hwf|].
    apply list_lookup_singleton_Some in Hi as [_ <-]. constructor.
  - intros i t o [Hi|[_ Hi]]%lookup_app_Some; [by eapply Har|].
    by apply list_lookup_singleton_Some in Hi as [_ <-].
  - intros i t [Hi|[_ Hi]]%lookup_app_Some; [by eapply Hleaf|].
    by apply list_lookup_singleton_Some in Hi as [_ <-].
Qed.

Lemma leaf_of_shape_app (G G' : list (Tensor R)) (w : nat) (s : list nat) :
  leaf_of_shape G w s → leaf_of_shape (G ++ G') w s.
Proof.
  intros (t & Ht & Hrest). exists t. split; [|done].
  by apply lookup_app_l_Some.
Qed.

Lemma softmax_values_wf (zv yv : NDArray R) (b c : nat) :
  wf zv → wf yv → shape zv = [b; c] → shape yv = [b; c] →
  wf (softmax_exp zv) ∧ wf (softmax_z0 zv b c) ∧ wf (softmax_log zv b c) ∧
  wf (softmax_z1 zv b c) ∧ wf (softmax_zy zv yv b c) ∧
  wf (softmax_z_y zv yv b c) ∧ wf (softmax_neg zv yv b c) ∧
  wf (softmax_diff zv yv b c) ∧ wf (softmax_value of_int zv yv b c).
Proof.
  intros Hz Hy Hsz Hsy.
  assert (wf (softmax_z0 zv b c)) as H0.
  { unfold wf, softmax_z0. simpl. rewrite length_map, length_seq.
    unfold numel. simpl. lia. }
  assert (wf (softmax_zy zv yv b c)) as Hzy.
  { unfold wf in *. unfold softmax_zy. simpl.
    rewrite length_zip_with, Hz, Hy, Hsz, Hsy. lia. }
  assert (wf (softmax_z_y zv yv b c)) as Hz_y by done.
  assert (wf (softmax_diff zv yv b c)) as Hd by done.
  split_and!; try done.
  - by apply wf_np_map.
  - by apply wf_np_map.
Qed.

Lemma softmax_z0_sum (zv : NDArray R) (b c : nat) :
  wf zv → shape zv = [b; c] →
  np_sum (softmax_exp zv) (Some [1%Z]) = Ok (softmax_z0 zv b c).
Proof.
  intros Hz Hsz. unfold softmax_exp, np_exp, np_map. rewrite Hsz.
  apply (summation_last_axis_2d b c _ 1); [by left|].
  rewrite length_map. unfold wf in Hz. rewrite Hz, Hsz.
  unfold numel. simpl. lia.
Qed.

(** The nodes that one iteration of [nn_epoch] appends to an arena of
    [n] nodes that holds the weights [w1] and [w2]: the batch, [x @ w1],
    its [relu], the logits [z], the one-hot labels and the nodes of
    [softmax_loss]. *)
Definition nn_nodes (n w1 w2 : nat) (xb hv zv oh : NDArray R) (b c : nat)
  : list (Tensor R) :=
  [mkTensor None [] xb true;
   mkTensor (Some MatMul) [n; w1] hv true;
   mkTensor (Some ReLU) [n + 1] (np_maximum0 hv) true;
   mkTensor (Some MatMul) [n + 2; w2] zv true;
   mkTensor None [] oh true]
  ++ softmax_loss_nodes of_int (n + 5) (n + 3) (n + 4) zv oh b c.

Section Graph.
Variables (G : list (Tensor R)) (w1 w2 : nat) (t1 t2 : Tensor R).
Variables (xb hv zv oh : NDArray R) (b d h k : nat).
Hypothesis HG : arena_ok G.
Hypothesis Ht1 : G !! w1 = Some t1.
Hypothesis Ho1 : operator t1 = None.
Hypothesis Hw1 : wf (cached_value t1).
Hypothesis Hs1 : shape (cached_value t1) = [d; h].
Hypothesis Ht2 : G !! w2 = Some t2.
Hypothesis Ho2 : operator t2 = None.
Hypothesis Hw2 : wf (cached_value t2).
Hypothesis Hs2 : shape (cached_value t2) = [h; k].
Hypothesis Hxb : wf xb.
Hypothesis Hsx : shape xb = [b; d].
Hypothesis Hhv : wf hv.
Hypothesis Hsh : shape hv = [b; h].
Hypothesis Hzv : wf zv.
Hypothesis Hsz : shape zv = [b; k].
Hypothesis Hoh : wf oh.
Hypothesis Hso : shape oh = [b; k].

(** The arena after the forward pass of the iteration. *)
Definition nn_graph : list (Tensor R) :=
  G ++ nn_nodes (length G) w1 w2 xb hv zv oh b k.

Lemma nn_graph_old (w : nat) (t : Tensor R) :
  G !! w = Some t → nn_graph !! w = Some t.
Proof. apply lookup_app_l_Some. Qed.

Lemma nn_graph_new (u j : nat) (t : Tensor R) :
  u = length G + j →
  nn_nodes (length G) w1 w2 xb hv zv oh b k !! j = Some t →
  nn_graph !! u = Some t.
Proof.
  intros -> Hj. unfold nn_graph. rewrite lookup_app_r by lia.
  by replace (length G + j - length G) with j by lia.
Qed.

Lemma nn_graph_inv (u : nat) (t : Tensor R) :
  nn_graph !! u = Some t →
  G !! u = Some t ∨
  ∃ j, u = length G + j ∧
       nn_nodes (length G) w1 w2 xb hv zv oh b k !! j = Some t.
Proof.
  intros [Hu|[Hge Hu]]%lookup_app_Some; [by left|].
  right. exists (u - length G). split; [lia|done].
Qed.

Lemma realized_old (w : nat) (t : Tensor R) :
  G !! w = Some t → realized nn_graph w = Ok (cached_value t).
Proof. intros Hw. unfold realized. by rewrite (nn_graph_old w t). Qed.

Lemma realized_new (u j : nat) (t : Tensor R) :
  u = length G + j →
  nn_nodes (length G) w1 w2 xb hv zv oh b k !! j = Some t →
  realized nn_graph u = Ok (cached_value t).
Proof.
  intros Hu Hj. unfold realized. by rewrite (nn_graph_new u j t).
Qed.

Lemma nn_graph_ok : arena_ok nn_graph.
Proof using HG Ht1 Ht2.
  destruct HG as (Hwf & Har & Hleaf).
  pose proof (lookup_lt_Some _ _ _ Ht1) as Hlt1.
  pose proof (lookup_lt_Some _ _ _ Ht2) as Hlt2.
  split_and!.
  - intros i t [Hi|(j & -> & Hj)]%nn_graph_inv; [by eapply Hwf|].
    destruct j as [|[|[|[|[|[|[|[|[|[|[|[|[|[|j]]]]]]]]]]]]]]; [..|done];
      injection Hj as <-; cbn [inputs]; repeat constructor; lia.
  - intros i t o [Hi|(j & -> & Hj)]%nn_graph_inv; [by eapply Har|].
    destruct j as [|[|[|[|[|[|[|[|[|[|[|[|[|[|j]]]]]]]]]]]]]]; [..|done];
      injection Hj as <-; cbn [operator inputs] in *; intros Ho;
      by simplify_eq.
  - intros i t [Hi|(j & -> & Hj)]%nn_graph_inv; [by eapply Hleaf|].
    destruct j as [|[|[|[|[|[|[|[|[|[|[|[|[|[|j]]]]]]]]]]]]]]; [..|done];
      injection Hj as <-; cbn [operator inputs] in *; intros Ho;
      by simplify_eq.
Qed.

(** The nodes that the backward pass from the loss reaches. *)
Definition nn_reached (u : nat) : Prop :=
  u = w1 ∨ u = w2 ∨ ∃ j, u = length G + j ∧ j < 14.

Lemma nn_graph_reachable (r u : nat) :
  reachable nn_graph r u → nn_reached r → nn_reached u.
Proof using HG Ht1 Ho1 Ht2 Ho2.
  destruct HG as (Hwf & Har & Hleaf).
  induction 1 as [r|r t v u Ht Hv _ IH]; [done|].
  intros Hr. apply IH. clear IH.
  destruct Hr as [->|[->|(j & -> & Hj)]].
  - rewrite (nn_graph_old w1 t1 Ht1) in Ht. injection Ht as <-.
    rewrite (Hleaf w1 t1 Ht1 Ho1) in Hv. by apply elem_of_nil in Hv.
  - rewrite (nn_graph_old w2 t2 Ht2) in Ht. injection Ht as <-.
    rewrite (Hleaf w2 t2 Ht2 Ho2) in Hv. by apply elem_of_nil in Hv.
  - apply nn_graph_inv in Ht as [Ht|(j' & Hj' & Ht)].
    { apply lookup_lt_Some in Ht. lia. }
    assert (j' = j) as -> by lia. clear Hj'.
    destruct j as [|[|[|[|[|[|[|[|[|[|[|[|[|[|j]]]]]]]]]]]]]]; [..|lia];
      injection Ht as <-; cbn [inputs] in Hv;
      repeat (apply elem_of_cons in Hv as [->|Hv]);
      try (by apply elem_of_nil in Hv);
      unfold nn_reached;
      first [ by left | by right; left
            | right; right;
              match goal with
              | |- ∃ j, ?u = _ ∧ _ => exists (u - length G); lia
              end ].
Qed.

Lemma nn_graph_reaches_weights :
  reachable nn_graph (length G + 13) w1 ∧
  reachable nn_graph (length G + 13) w2.
Proof.
  assert (∀ u j t v w,
            u = length G + j →
            nn_nodes (length G) w1 w2 xb hv zv oh b k !! j = Some t →
            v ∈ inputs t → reachable nn_graph v w →
            reachable nn_graph u w) as Hstep.
  { intros u j t v w Hu Hj Hv Hvw.
    eapply reachable_step; [by eapply nn_graph_new|done|done]. }
  assert (reachable nn_graph (length G + 3) w2) as H3.
  { eapply (Hstep _ 3); [done|reflexivity|by right; left|constructor]. }
  assert (reachable nn_graph (length G + 3) w1) as H3'.
  { eapply (Hstep _ 3); [done|reflexivity|by left|].
    eapply (Hstep _ 2); [done|reflexivity|by left|].
    eapply (Hstep _ 1); [done|reflexivity|by right; left|constructor]. }
  assert (∀ w, reachable nn_graph (length G + 3) w →
               reachable nn_graph (length G + 13) w) as Hloss.
  { intros w Hw.
    eapply (Hstep _ 13); [done|reflexivity|by left|].
    eapply (Hstep _ 12); [lia|reflexivity|by left|].
    eapply (Hstep _ 8); [lia|reflexivity|by left|].
    eapply (Hstep _ 7); [lia|reflexivity|by left|].
    eapply (Hstep _ 6); [lia|reflexivity|by left|].
    eapply (Hstep _ 5); [lia|reflexivity|by left|done]. }
  split; by apply Hloss.
Qed.

(** Every node that the pass reaches fits. *)
Lemma nn_graph_fits (u : nat) : nn_reached u → node_fits nn_graph u.
Proof using All.
  destruct (softmax_values_wf zv oh b k Hzv Hoh Hsz Hso)
    as (He & H0 & Hl & Hz1 & Hzy & Hz_y & Hn & Hd & Hv).
  assert (wf (np_maximum0 hv)) as Hr by by apply wf_np_map.
  intros [->|[->|(j & -> & Hj)]] t Ht.
  - rewrite (nn_graph_old w1 t1 Ht1) in Ht. injection Ht as <-.
    split; [done|]. intros o Ho. by rewrite Ho1 in Ho.
  - rewrite (nn_graph_old w2 t2 Ht2) in Ht. injection Ht as <-.
    split; [done|]. intros o Ho. by rewrite Ho2 in Ho.
  - apply nn_graph_inv in Ht as [Ht|(j' & Hj' & Ht)].
    { apply lookup_lt_Some in Ht. lia. }
    assert (j' = j) as -> by lia. clear Hj'.
    destruct j as [|[|[|[|[|[|[|[|[|[|[|[|[|[|j]]]]]]]]]]]]]]; [..|lia];
      injection Ht as <-; cbn [cached_value operator inputs];
      (split; [done|]); intros o Ho; simplify_eq.
    + (* x @ w1 *)
      exists [xb; cached_value t1]. split.
      { cbn [mapM]. rewrite (realized_new _ 0 _
                   (eq_sym (Nat.add_0_r _)) eq_refl).
        by rewrite (realized_old w1 t1 Ht1). }
      intros og [Hwg Hsg].
      apply (MatMul_fits_2d xb (cached_value t1) og b d h); congruence.
    + (* relu *)
      exists [hv]. split.
      { cbn [mapM]. by rewrite (realized_new _ 1 _ eq_refl eq_refl). }
      intros og Hog.
      by apply (unary_fits ReLU hv (np_maximum0 hv)).
    + (* z *)
      exists [np_maximum0 hv; cached_value t2]. split.
      { cbn [mapM]. rewrite (realized_new _ 2 _ eq_refl eq_refl).
        by rewrite (realized_old w2 t2 Ht2). }
      intros og [Hwg Hsg].
      apply (MatMul_fits_2d (np_maximum0 hv) (cached_value t2) og b h k);
        simpl; congruence.
    + (* exp(z) *)
      exists [zv]. split.
      { cbn [mapM]. by rewrite (realized_new _ 3 _ eq_refl eq_refl). }
      intros og Hog.
      by apply (unary_fits Exp zv (softmax_exp zv)).
    + (* .sum(1) *)
      exists [softmax_exp zv]. split.
      { cbn [mapM]. by rewrite (realized_new _ 5 _ eq_refl eq_refl). }
      intros og Hog.
      apply (Summation_fits _ _ (softmax_z0 zv b k)); [done| |done].
      by apply softmax_z0_sum.
    + (* log *)
      exists [softmax_z0 zv b k]. split.
      { cbn [mapM].
        by rewrite (realized_new _ 6 _
                     (eq_sym (Nat.add_assoc _ 5 1)) eq_refl). }
      intros og Hog.
      by apply (unary_fits Log _ (softmax_log zv b k)).
    + (* .sum() *)
      exists [softmax_log zv b k]. split.
      { cbn [mapM].
        by rewrite (realized_new _ 7 _
                     (eq_sym (Nat.add_assoc _ 5 2)) eq_refl). }
      intros og Hog.
      apply (Summation_fits _ _ (softmax_z1 zv b k)); [done| |done].
      by apply np_sum_all_axes.
    + (* z * y_one_hot *)
      exists [zv; oh]. split.
      { cbn [mapM]. rewrite (realized_new _ 3 _ eq_refl eq_refl).
        by rewrite (realized_new _ 4 _ eq_refl eq_refl). }
      intros og [Hwg Hsg].
      apply EWiseMul_fits; try done; simpl in Hsg; congruence.
    + (* summation *)
      exists [softmax_zy zv oh b k]. split.
      { cbn [mapM].
        by rewrite (realized_new _ 9 _
                     (eq_sym (Nat.add_assoc _ 5 4)) eq_refl). }
      intros og Hog.
      apply (Summation_fits _ _ (softmax_z_y zv oh b k)); [done| |done].
      by apply np_sum_all_axes.
    + (* negate *)
      exists [softmax_z_y zv oh b k]. split.
      { cbn [mapM].
        by rewrite (realized_new _ 10 _
                     (eq_sym (Nat.add_assoc _ 5 5)) eq_refl). }
      intros og Hog.
      by apply (unary_fits Negate _ (softmax_neg zv oh b k)).
    + (* z1 - z_y *)
      exists [softmax_z1 zv b k; softmax_neg zv oh b k]. split.
      { cbn [mapM].
        rewrite (realized_new _ 8 _ (eq_sym (Nat.add_assoc _ 5 3)) eq_refl).
        by rewrite (realized_new _ 11 _
                     (eq_sym (Nat.add_assoc _ 5 6)) eq_refl). }
      intros og [Hwg Hsg]. by apply EWiseAdd_fits.
    + (* / batch_size *)
      exists [softmax_diff zv oh b k]. split.
      { cbn [mapM].
        by rewrite (realized_new _ 12 _
                     (eq_sym (Nat.add_assoc _ 5 7)) eq_refl). }
      intros og Hog.
      by apply (unary_fits (DivScalar (of_int (Z.of_nat b))) _
                  (softmax_value of_int zv oh b k)).
Qed.

(** The backward pass from the loss gives both weights a gradient of
    their shape. *)
Lemma nn_graph_backward :
  ∃ st g1 g2,
    backward nn_graph (length G + 13) = Ok st ∧
    grad st !! w1 = Some g1 ∧ fits g1 (cached_value t1) ∧
    grad st !! w2 = Some g2 ∧ fits g2 (cached_value t2).
Proof using All.
  destruct nn_graph_ok as (Hwf & Har & Hleaf).
  destruct nn_graph_reaches_weights as [Hr1 Hr2].
  assert (nn_reached (length G + 13)) as Hroot
    by (right; right; exists 13; split; [done|lia]).
  destruct (backward_pass_fits nn_graph (length G + 13)
              (np_ones (shape (softmax_value of_int zv oh b k)))
              (mkTensor (Some (DivScalar (of_int (Z.of_nat b))))
                        [length G + 5 + 7]
                        (softmax_value of_int zv oh b k) true))
    as (st & Hst & Hall); try done.
  - by apply (nn_graph_new _ 13).
  - intros u Hu. apply nn_graph_fits. by eapply nn_graph_reachable.
  - destruct (Hall w1 t1 Hr1 (nn_graph_old w1 t1 Ht1)) as (g1 & Hg1 & Hf1).
    destruct (Hall w2 t2 Hr2 (nn_graph_old w2 t2 Ht2)) as (g2 & Hg2 & Hf2).
    exists st, g1, g2. split; [|done].
    unfold backward.
    rewrite (realized_new (length G + 13) 13 _ eq_refl eq_refl).
    by rewrite bind_Ok.
Qed.

End Graph.

End NnStep.

Section NnEpoch.
Context {R : Type} `{Scalar R}.
Variable of_int : Z → R.

Lemma np_rows_fits (x : NDArray R) (N : nat) (s : list nat) (i j : nat) :
  wf x → shape x = N :: s → i ≤ N → i ≤ j →
  ∃ xb, np_rows x i j = Ok xb ∧ shape xb = (j `min` N - i) :: s ∧ wf xb.
Proof.
  intros Hwf Hs Hi Hij. unfold np_rows. rewrite Hs.
  rewrite (Nat.min_l i N) by done.
  eexists. split; [done|]. split; [done|].
  unfold wf in *. cbn [shape data]. rewrite Hs, numel_cons in Hwf.
  rewrite length_take, length_drop, Hwf, numel_cons. nia.
Qed.

Lemma one_hot_fits (k : nat) (labels : list nat) :
  Forall (λ l, l < k) labels →
  ∃ oh : NDArray R, one_hot k labels = Ok oh ∧
                    shape oh = [length labels; k] ∧ wf oh.
Proof.
  intros Hl. unfold one_hot.
  assert (forallb (λ l, l <? k) labels = true) as ->.
  { induction Hl as [|l labels Hlk _ IH]; [done|]. simpl.
    rewrite IH. by destruct (Nat.ltb_spec l k); [|lia]. }
  eexists. split; [done|]. split; [done|].
  unfold wf. cbn [shape data]. unfold numel. simpl. clear Hl.
  induction labels as [|l labels IH]; simpl; [done|].
  rewrite length_app, length_map, length_seq, IH. lia.
Qed.

Lemma sgd_update_fits (w g : NDArray R) (lr : R) :
  wf w → fits g w →
  ∃ w', sgd_update w g lr = Ok w' ∧ wf w' ∧ shape w' = shape w.
Proof.
  intros Hw [Hg Hsg]. unfold sgd_update.
  apply np_binop_fit; [done|by apply wf_np_map|done].
Qed.

(** One iteration of the loop on a batch that starts inside the data,
    when the weights are leaves. *)
Lemma nn_step_fits (G : list (Tensor R)) (x : NDArray R) (y : list nat)
    (w1 w2 : nat) (lr : R) (N d h k batch i : nat) :
  wf x → shape x = [N; d] → length y = N → Forall (λ l, l < k) y →
  arena_ok G → leaf_of_shape G w1 [d; h] → leaf_of_shape G w2 [h; k] →
  0 < batch → i < N →
  ∃ G' w1' w2',
    nn_step of_int x y k batch lr (G, w1, w2) i = Ok (G', w1', w2') ∧
    arena_ok G' ∧ leaf_of_shape G' w1' [d; h] ∧ leaf_of_shape G' w2' [h; k].
Proof.
  intros Hx Hsx Hy Hlab HG (t1 & Ht1 & Ho1 & Hw1 & Hs1)
    (t2 & Ht2 & Ho2 & Hw2 & Hs2) Hb Hi.
  pose proof (lookup_lt_Some _ _ _ Ht1) as Hlt1.
  pose proof (lookup_lt_Some _ _ _ Ht2) as Hlt2.
  destruct (np_rows_fits x N [d] i (i + batch)) as (xb & Hxb & Hsxb & Hwxb);
    [done|done|lia|lia|].
  set (b := (i + batch) `min` N - i) in *.
  assert (length (take batch (drop i y)) = b) as Hlen.
  { rewrite length_take, length_drop. unfold b. lia. }
  destruct (one_hot_fits k (take batch (drop i y))) as (oh & Hoh & Hsoh & Hwoh).
  { apply Forall_take, Forall_drop. done. }
  rewrite Hlen in Hsoh.
  destruct (np_matmul_2_2 xb (cached_value t1) b d h Hsxb Hs1)
    as (hv & Hhv & Hshv & Hwhv).
  assert (shape (np_maximum0 hv) = [b; h]) as Hsr by done.
  destruct (np_matmul_2_2 (np_maximum0 hv) (cached_value t2) b h k Hsr Hs2)
    as (zv & Hzv & Hszv & Hwzv).
  destruct (nn_graph_backward of_int G w1 w2 t1 t2 xb hv zv oh b d h k)
    as (st & g1 & g2 & Hst & Hg1 & Hf1 & Hg2 & Hf2); try done.
  destruct (sgd_update_fits (cached_value t1) g1 lr Hw1 Hf1)
    as (w1a & Hu1 & Hww1 & Hsw1).
  destruct (sgd_update_fits (cached_value t2) g2 lr Hw2 Hf2)
    as (w2a & Hu2 & Hww2 & Hsw2).
  set (Gn := nn_graph of_int G w1 w2 xb hv zv oh b k) in *.
  assert (arena_ok Gn) as HGn by by eapply nn_graph_ok.
  assert (realized Gn w1 = Ok (cached_value t1)) as Hr1
    by by apply realized_old.
  assert (realized Gn w2 = Ok (cached_value t2)) as Hr2
    by by apply realized_old.
  exists ((Gn ++ [mkTensor None [] w1a true]) ++ [mkTensor None [] w2a true]),
    (length Gn), (length (Gn ++ [mkTensor None [] w1a true])).
  split_and!.
  - unfold nn_step. rewrite Hxb, bind_Ok. unfold make_leaf. cbv beta iota.
    rewrite (make_from_op_2 _ MatMul (length G) w1 xb (cached_value t1) hv);
      [|apply realized_snoc
       |rewrite realized_app_l by done; unfold realized; by rewrite Ht1
       |done].
    rewrite bind_Ok. cbv beta iota.
    rewrite (make_from_op_1 _ ReLU _ hv (np_maximum0 hv));
      [|apply realized_snoc|done].
    rewrite bind_Ok. cbv beta iota.
    rewrite (make_from_op_2 _ MatMul _ w2 (np_maximum0 hv)
               (cached_value t2) zv);
      [|apply realized_snoc
       |rewrite !realized_app_l by (rewrite ?length_app; simpl; lia);
        unfold realized; by rewrite Ht2
       |done].
    rewrite bind_Ok. cbv beta iota. rewrite Hoh, bind_Ok.
    rewrite (softmax_loss_graph of_int _ _ _ zv oh b k);
      [|rewrite realized_app_l by (rewrite !length_app; simpl; lia);
        apply realized_snoc
       |apply realized_snoc|done..].
    rewrite bind_Ok. cbv beta iota.
    match goal with
    | |- context [backward ?g ?l] =>
        replace g with Gn;
        [replace l with (length G + 13) by (rewrite !length_app; simpl; lia)|]
    end.
    2:{ unfold Gn, nn_graph, nn_nodes. rewrite <- !app_assoc. simpl.
        rewrite !length_app. simpl. repeat (f_equal; try lia). }
    rewrite Hst, bind_Ok.
    rewrite Hr1, bind_Ok.
    unfold grad_of. rewrite Hg1, bind_Ok, Hu1, bind_Ok.
    rewrite realized_app_l
      by (unfold Gn, nn_graph; rewrite length_app; lia).
    rewrite Hr2, bind_Ok.
    by rewrite Hg2, bind_Ok, Hu2, bind_Ok.
  - by do 2 apply arena_ok_leaf.
  - apply leaf_of_shape_app. eexists. split; [apply list_lookup_middle; done|].
    cbn [operator cached_value]. split_and!; (done || congruence).
  - eexists. split; [apply list_lookup_middle; done|].
    cbn [operator cached_value]. split_and!; (done || congruence).
Qed.

Lemma foldlM_invariant {A B} (f : A → B → result A) (P : A → Prop)
    (l : list B) (a : A) :
  (∀ a x, x ∈ l → P a → ∃ a', f a x = Ok a' ∧ P a') →
  P a → ∃ a', foldlM f a l = Ok a' ∧ P a'.
Proof.
  revert a. induction l as [|x l IH]; intros a Hf Ha.
  - by exists a.
  - destruct (Hf a x ltac:(by left) Ha) as (a1 & Ha1 & HP1).
    rewrite foldlM_cons, Ha1, bind_Ok. apply IH; [|done].
    intros a' x' Hx'. apply Hf. by right.
Qed.

Lemma py_range_lt (stop : nat) (step : Z) (starts : list nat) :
  (0 < step)%Z → py_range stop step = Ok starts →
  Forall (λ i, i < stop) starts.
Proof.
  intros Hs. unfold py_range.
  rewrite !bool_decide_false by lia. intros [= <-].
  apply Forall_forall. intros i (k & -> & Hk%elem_of_seq)%list_elem_of_fmap.
  assert (0 < Z.to_nat step) as Hpos by lia.
  pose proof (Nat.Div0.mul_div_le (stop + Z.to_nat step - 1) (Z.to_nat step)).
  nia.
Qed.


End NnEpoch.

Lemma concat_chunks {A} (c m : nat) (l : list A) :
  length l ≤ m * c →
  concat (map (λ k, take c (drop (k * c) l)) (seq 0 m)) = l.
Proof.
  revert l. induction m as [|m IH]; intros l Hl.
  - destruct l; [done|]. simpl in Hl. lia.
  - cbn [seq map concat]. rewrite map_seq_shift. simpl Nat.mul.
    rewrite drop_0.
    rewrite (map_ext _ (λ k, take c (drop (k * c) (drop c l)))).
    2:{ intros k. by rewrite drop_drop. }
    rewrite IH by (rewrite length_drop; lia).
    apply take_drop.
Qed.

Lemma take_take_ge {A} (n m : nat) (l : list A) :
  length l ≤ n → length l ≤ m → take n l = take m l.
Proof. intros Hn Hm. by rewrite !take_ge. Qed.

Section NnEpochEdges.
Context {R : Type} `{Scalar R}.
Variable of_int : Z → R.

(** X22.  The batches of [nn_epoch], for a positive batch size: the slices
    [x[i:i+batch]] and [y[i:i+batch]] at the starts of
    [range(0, num_examples, batch)] are not empty, have at most [batch]
    rows, and put one after the other they are [x] and [y]: an epoch
    uses every example once, in order. *)
Theorem nn_epoch_batches (x : NDArray R) (y : list nat) (N d : nat)
    (batch : Z) :
  wf x → shape x = [N; d] → length y = N → (0 < batch)%Z →
  ∃ starts xbs,
    py_range N batch = Ok starts ∧
    mapM (λ i, np_rows x i (i + Z.to_nat batch)) starts = Ok xbs ∧
    concat (map data xbs) = data x ∧
    concat (map (λ i, take (Z.to_nat batch) (drop i y)) starts) = y ∧
    Forall (λ xb, ∃ r, shape xb = [r; d] ∧ 0 < r ≤ Z.to_nat batch) xbs.
Proof.
  intros Hx Hsx Hy Hb.
  set (b := Z.to_nat batch). assert (0 < b) as Hbpos by lia.
  set (m := (N + b - 1) / b).
  assert (N ≤ m * b) as Hm.
  { unfold m. pose proof (Nat.div_mod_eq (N + b - 1) b).
    pose proof (Nat.mod_upper_bound (N + b - 1) b). nia. }
  assert (∀ k, k < m → k * b < N) as Hk.
  { intros k Hkm. unfold m in Hkm.
    pose proof (Nat.Div0.mul_div_le (N + b - 1) b). nia. }
  assert (length (data x) = N * d) as Hlen.
  { unfold wf in Hx. rewrite Hx, Hsx. unfold numel. simpl. lia. }
  set (g := λ i, mkArr [(i + b) `min` N - i; d]
                   (take (((i + b) `min` N - i) * numel [d])
                         (drop (i * numel [d]) (data x)))).
  exists (map (λ k, k * b) (seq 0 m)), (map g (map (λ k, k * b) (seq 0 m))).
  assert (numel [d] = d) as Hd by (unfold numel; simpl; lia).
  split_and!.
  - unfold py_range. by rewrite !bool_decide_false by lia.
  - apply mapM_Ok_map, Forall_forall.
    intros i (k & -> & Hkm%elem_of_seq)%list_elem_of_fmap.
    unfold np_rows. rewrite Hsx.
    rewrite (Nat.min_l (k * b) N) by (apply Nat.lt_le_incl, Hk; lia). done.
  - rewrite !map_map. cbn [data g]. rewrite Hd.
    rewrite (map_ext_in _ (λ k, take (b * d) (drop (k * (b * d)) (data x)))).
    + apply concat_chunks. nia.
    + intros k Hkm%in_seq.
      assert (k * b < N) as HkN by (apply Hk; lia).
      replace (k * b * d) with (k * (b * d)) by lia.
      destruct (decide (k * b + b ≤ N)) as [Hle|Hgt].
      * by rewrite Nat.min_l, Nat.add_sub' by done.
      * rewrite Nat.min_r by lia.
        apply take_take_ge; rewrite length_drop; nia.
  - rewrite map_map. by apply concat_chunks; lia.
  - apply Forall_forall.
    intros xb (i & -> & (k & -> & Hkm%elem_of_seq)%list_elem_of_fmap)
      %list_elem_of_fmap.
    assert (k * b < N) as HkN by (apply Hk; lia).
    eexists. split; [done|]. lia.
Qed.

(** X23.  The edges of [nn_epoch]: an [x] without dimensions or weights [w2]
    with fewer than two raise [IndexError] ([x.shape[0]], [w2.shape[1]]);
    a batch size of zero raises [ValueError] ([range]); with a negative
    batch size or no example the loop is not entered and the weights
    come back as they are. *)
Theorem nn_epoch_edge_cases (G : list (Tensor R)) (x : NDArray R)
    (y : list nat) (w1 w2 : nat) (w2v : NDArray R) (lr : R) (batch : Z) :
  (shape x = [] → nn_epoch of_int G x y w1 w2 lr batch = Err IndexError) ∧
  (realized G w2 = Ok w2v → shape x ≠ [] → rank w2v < 2 →
   nn_epoch of_int G x y w1 w2 lr batch = Err IndexError) ∧
  (realized G w2 = Ok w2v → shape x ≠ [] → 2 ≤ rank w2v → batch = 0%Z →
   nn_epoch of_int G x y w1 w2 lr batch = Err ValueError) ∧
  (realized G w2 = Ok w2v → shape x ≠ [] → 2 ≤ rank w2v →
   (batch < 0)%Z ∨ (batch ≠ 0%Z ∧ ∃ s, shape x = 0 :: s) →
   nn_epoch of_int G x y w1 w2 lr batch = Ok (G, w1, w2)).
Proof.
  assert (∀ (n : nat) (s : list nat), py_getitem (n :: s) 0 = Ok n)
    as Hget0.
  { intros n s. unfold py_getitem, norm_index.
    by rewrite bool_decide_true by (simpl length; lia). }
  assert (rank w2v < 2 → py_getitem (shape w2v) 1 = Err IndexError) as Hlt2.
  { unfold rank, py_getitem, norm_index. intros Hr.
    by rewrite !bool_decide_false by lia. }
  assert (2 ≤ rank w2v → ∃ c, py_getitem (shape w2v) 1 = Ok c) as Hge2.
  { unfold rank. intros Hr.
    destruct (shape w2v) as [|a [|c s]]; simpl in Hr; try lia.
    exists c. unfold py_getitem, norm_index.
    by rewrite bool_decide_true by (simpl length; lia). }
  split_and!.
  - intros Hs. unfold nn_epoch. by rewrite Hs.
  - intros Hw Hs Hr. unfold nn_epoch.
    destruct (shape x) as [|n s]; [done|].
    by rewrite Hget0, bind_Ok, Hw, bind_Ok, (Hlt2 Hr).
  - intros Hw Hs Hr ->. unfold nn_epoch.
    destruct (shape x) as [|n s]; [done|].
    destruct (Hge2 Hr) as [c Hc]. by rewrite Hget0, bind_Ok, Hw, bind_Ok, Hc.
  - intros Hw Hs Hr Hcase. unfold nn_epoch.
    destruct (shape x) as [|n s] eqn:Hsx; [done|].
    destruct (Hge2 Hr) as [c Hc]. rewrite Hget0, bind_Ok, Hw, bind_Ok, Hc.
    rewrite bind_Ok.
    assert (py_range n batch = Ok []) as ->; [|done].
    unfold py_range.
    destruct Hcase as [Hneg|[Hnz (s' & Hs')]].
    + rewrite bool_decide_false by lia. by rewrite bool_decide_true by lia.
    + injection Hs' as -> ->. rewrite bool_decide_false by done.
      case_bool_decide; [done|].
      rewrite Nat.add_0_l, Nat.div_small by lia. done.
Qed.

End NnEpochEdges.

(** Witnesses of the properties of [simple_ml.py], over the rationals. *)

Definition witness_logits : NDArray Qc := qarr [1; 2] [0; 1]%Z.
Definition witness_one_hot : NDArray Qc := qarr [1; 2] [1; 0]%Z.
Definition witness_leaves : list (Tensor Qc) :=
  [mkTensor None [] witness_logits true;
   mkTensor None [] witness_one_hot true].

Lemma softmax_loss_value_witness :
  ∃ nodes,
    softmax_loss q_of_int witness_leaves 0 1
      = Ok (witness_leaves ++ nodes, 10) ∧
    realized (witness_leaves ++ nodes) 10 = Ok (qarr [] [2]%Z).
Proof.
  destruct (@softmax_loss_value Qc Qc_scalar q_of_int witness_leaves 0 1
              witness_logits witness_one_hot 1 2
              eq_refl eq_refl eq_refl eq_refl eq_refl eq_refl)
    as (nodes & Hl & _ & Hv).
  exists nodes. split; [exact Hl|]. etransitivity; [exact Hv|]. reflexivity.
Defined.

Definition witness_vectors : list (Tensor Qc) :=
  [mkTensor None [] (qarr [2] [0; 1]%Z) true;
   mkTensor None [] (qarr [2] [1; 0]%Z) true].

Lemma softmax_loss_rank_errors_witness :
  softmax_loss q_of_int witness_vectors 0 1 = Err AxisError.
Proof.
  exact (proj2 (@softmax_loss_rank_errors Qc Qc_scalar q_of_int
                  witness_vectors 0 1 (qarr [2] [0; 1]%Z) eq_refl)
               2 eq_refl).
Defined.

(** The weights as leaves of an arena. *)
Definition witness_weights : list (Tensor Qc) :=
  [mkTensor None [] (qarr [2; 2] [1; 0; 0; 1]%Z) true;
   mkTensor None [] (qarr [2; 2] [1; 2; 3; 4]%Z) true].

Lemma witness_weights_ok : arena_ok witness_weights.
Proof.
  apply (arena_ok_leaf [_]), (arena_ok_leaf []).
  split_and!; intros i t; by rewrite lookup_nil.
Qed.


(** A weight with a history: for [w1 = power_scalar(w0, 1)] the first
    [loss.backward()] reaches the [PowerScalar] node, whose gradient is
    not implemented. *)
Lemma nn_epoch_weight_with_history :
  let x := qarr [3; 2] [1; 0; 0; 1; 1; 1]%Z in
  ∃ G w1,
    make_from_op witness_weights (PowerScalar 1) [0] = Ok (G, w1) ∧
    realized G w1 = realized G 0 ∧
    nn_epoch q_of_int G x [0; 1; 1] w1 1 (q_of_int 1) 2
      = Err NotImplementedError.
Proof.
  intros x. eexists _, _. split; [reflexivity|]. split; by vm_compute.
Qed.

Lemma nn_epoch_batches_witness :
  let x := qarr [3; 1] [1; 2; 3]%Z in
  ∃ starts xbs,
    py_range 3 2 = Ok starts ∧
    mapM (λ i, np_rows x i (i + 2)) starts = Ok xbs ∧
    concat (map data xbs) = data x ∧
    concat (map (λ i, take 2 (drop i [0; 1; 2])) starts) = [0; 1; 2] ∧
    Forall (λ xb, ∃ r, shape xb = [r; 1] ∧ 0 < r ≤ 2) xbs.
Proof.
  intros x.
  apply (@nn_epoch_batches Qc x [0; 1; 2] 3 1 2); reflexivity.
Defined.

Lemma nn_epoch_edge_cases_witness :
  let x := qarr [3; 1] [1; 2; 3]%Z in
  let w := qarr [1; 1] [1]%Z in
  let G := [mkTensor None [] w true] in
  nn_epoch q_of_int G x [0; 0; 0] 0 0 (q_of_int 1) 0 = Err ValueError ∧
  nn_epoch q_of_int G x [0; 0; 0] 0 0 (q_of_int 1) (-1) = Ok (G, 0, 0).
Proof.
  intros x w G.
  destruct (@nn_epoch_edge_cases Qc Qc_scalar q_of_int G x [0; 0; 0] 0 0 w
              (q_of_int 1) 0) as (_ & _ & H0 & _).
  destruct (@nn_epoch_edge_cases Qc Qc_scalar q_of_int G x [0; 0; 0] 0 0 w
              (q_of_int 1) (-1)) as (_ & _ & _ & Hneg).
  split.
  - apply H0; [done|done|unfold rank; simpl; lia|done].
  - apply Hneg; [done|done|unfold rank; simpl; lia|left; lia].
Defined.

(** ** More on the operators: [AddScalar], and the number of gradients *)

Section OperatorInvariants.
Context {R : Type} `{Scalar R}.

(** X24.  [AddScalar]: adding [c] and then [-c] gives the input back when
    [(v + c) + (-c) = v] on scalars, and the gradient is the incoming
    gradient itself, whatever the input and the scalar are. *)
Theorem AddScalar_round_trip (c : R) (x out_grad : NDArray R) :
  (∀ v : R, s_add (s_add v c) (s_neg c) = v) →
  add_scalar x c = Ok (mkArr (shape x) (map (λ v, s_add v c) (data x))) ∧
  (add_scalar x c ≫= λ y, add_scalar y (s_neg c)) = Ok x ∧
  gradient (AddScalar c) out_grad [x] = Ok [out_grad].
Proof.
  intros Hc. split; [done|]. split; [|done].
  unfold add_scalar, compute, AddScalar_compute. rewrite bind_Ok.
  unfold np_map. cbn [shape data]. rewrite map_map.
  assert (map (λ v, s_add (s_add v c) (s_neg c)) (data x) = data x) as ->.
  { induction (data x) as [|v l IH]; simpl; [done|]. by rewrite Hc, IH. }
  by destruct x.
Qed.

(** X25.  One gradient per input: whenever the forward pass of an operator
    accepts its inputs and its gradient rule returns, the rule returns
    as many gradients as the operator has inputs (two for [EWiseAdd],
    [EWiseMul], [EWiseDiv] and [MatMul], one for the others). *)
Theorem gradient_one_per_input (o : Op R) (out_grad v : NDArray R)
    (vals gs : list (NDArray R)) :
  compute o vals = Ok v →
  gradient o out_grad vals = Ok gs →
  length gs = length vals ∧ length gs = arity o.
Proof.
  intros Hv Hg.
  pose proof (gradient_length _ _ _ _ Hg) as Hgl.
  pose proof (compute_arity _ _ _ Hv) as Hvl.
  split; congruence.
Qed.

End OperatorInvariants.

Lemma AddScalar_round_trip_witness :
  let x := qarr [3] [1; 2; 3]%Z in
  let og := qarr [3] [4; 5; 6]%Z in
  (add_scalar x (q_of_int 7) ≫= λ y, add_scalar y (s_neg (q_of_int 7)))
    = Ok x ∧
  gradient (AddScalar (q_of_int 7)) og [x] = Ok [og].
Proof.
  intros x og.
  destruct (@AddScalar_round_trip Qc Qc_scalar (q_of_int 7) x og)
    as (_ & Hf & Hg).
  - intros v. simpl. by rewrite <- Qcplus_assoc, Qcplus_opp_r, Qcplus_0_r.
  - exact (conj Hf Hg).
Defined.

Lemma gradient_one_per_input_witness :
  let a := qarr [2] [1; 2]%Z in
  let b := qarr [2] [3; 4]%Z in
  length [qarr [2] [3; 4]%Z; qarr [2] [1; 2]%Z] = 2 ∧
  gradient EWiseMul (qarr [2] [1; 1]%Z) [a; b]
    = Ok [qarr [2] [3; 4]%Z; qarr [2] [1; 2]%Z].
Proof.
  intros a b.
  assert (gradient EWiseMul (qarr [2] [1; 1]%Z) [a; b]
          = Ok [qarr [2] [3; 4]%Z; qarr [2] [1; 2]%Z]) as Hg by reflexivity.
  split; [|exact Hg].
  exact (proj1 (@gradient_one_per_input Qc Qc_scalar EWiseMul
                  (qarr [2] [1; 1]%Z) (qarr [2] [3; 8]%Z) [a; b] _
                  eq_refl Hg)).
Defined.

Lemma MatMul_forward_witness :
  matmul (qarr [1; 2] [1; 2]%Z) (qarr [3; 1] [1; 2; 3]%Z) = Err ValueError.
Proof.
  apply (@MatMul_forward Qc Qc_scalar 1 2 3 1
           (map q_of_int [1; 2]%Z) (map q_of_int [1; 2; 3]%Z)).
  lia.
Defined.

(** ** [parse_mnist] in exact arithmetic: the pixels are normalized *)

Lemma Qc_pixel_in_unit_interval (z : Z) :
  (0 ≤ z ≤ 255)%Z →
  Qcle (Q2Qc 0) (Qcdiv (q_of_int z) (q_of_int 255)) ∧
  Qcle (Qcdiv (q_of_int z) (q_of_int 255)) (Q2Qc 1).
Proof.
  intros Hz. unfold Qcle, Qcdiv, Qcmult, Qcinv, q_of_int, Q2Qc. cbn [this].
  rewrite !Qred_correct.
  split; unfold Qle; simpl; lia.
Qed.

(** X26.  When [parse_mnist] returns, over the rationals with exact division,
    the image array is well formed (as many values as its shape says)
    and every value lies between 0 and 1. *)
Theorem parse_mnist_normalized (img lbl : list Byte.byte)
    (X : NDArray Qc) (y : list Byte.byte) :
  parse_mnist q_of_int img lbl = Parsed X y →
  wf X ∧ Forall (λ v, Qcle (Q2Qc 0) v ∧ Qcle v (Q2Qc 1)) (data X).
Proof.
  unfold parse_mnist.
  destruct (unpack_from_i32_be img 4) as [n|]; [|done].
  destruct (frombuffer_uint8 img 16) as [x|]; [|done].
  unfold reshape_rows.
  destruct (bool_decide (0 < n)%Z) eqn:Hn; [|done].
  destruct (bool_decide (length x `mod` Z.to_nat n = 0)) eqn:Hm; [|done].
  cbn [andb].
  destruct (frombuffer_uint8 lbl 8) as [y'|]; [|done].
  intros [= <- <-]. apply bool_decide_eq_true in Hn, Hm.
  split.
  - unfold wf. cbn [shape data]. rewrite length_map. unfold numel. simpl.
    pose proof (Nat.div_mod_eq (length x) (Z.to_nat n)). lia.
  - cbn [data]. apply Forall_forall. intros v Hv.
    apply list_elem_of_In, in_map_iff in Hv as (b & <- & _).
    apply Qc_pixel_in_unit_interval.
    pose proof (byte_val_bounded b). lia.
Qed.

Lemma parse_mnist_normalized_witness :
  let img := [Byte.x00; Byte.x00; Byte.x08; Byte.x03;
              Byte.x00; Byte.x00; Byte.x00; Byte.x02;
              Byte.x00; Byte.x00; Byte.x00; Byte.x01;
              Byte.x00; Byte.x00; Byte.x00; Byte.x02;
              Byte.x00; Byte.xff; Byte.x33; Byte.x66] in
  let lbl := replicate 8 Byte.x00 ++ [Byte.x07; Byte.x02] in
  let X := mkArr [2; 2]
             (map (λ z, Qcdiv (q_of_int z) (q_of_int 255))
                  [0; 255; 51; 102]%Z) in
  parse_mnist q_of_int img lbl = Parsed X [Byte.x07; Byte.x02] ∧
  wf X ∧ Forall (λ v, Qcle (Q2Qc 0) v ∧ Qcle v (Q2Qc 1)) (data X).
Proof.
  intros img lbl X.
  assert (parse_mnist q_of_int img lbl = Parsed X [Byte.x07; Byte.x02])
    as Hp by reflexivity.
  split; [exact Hp|].
  exact (parse_mnist_normalized img lbl X _ Hp).
Defined.
